(** * VisualMesh: mesh builder, frustum lookup and mesh cache

    A shallow embedding of the [VisualMesh] header (mesh generation and
    frustum lookup) and of the TensorFlow op [tf_op.cpp] (mesh cache and
    input extraction), with the properties of the specification stated
    over it.

    Conventions of the embedding.
    - [size_t] and [int] values are integers of [Z]; every conversion
      the C++ performs between the two is written out with [u64] and
      [i32].
    - [Scalar] is the template parameter of the source.  It is kept
      abstract behind the interface [ScalarOps], and a property is
      proved for every [Scalar] unless it names an instance.  The
      instance [double_ops] is [Scalar = double] with the rounding of
      IEEE 754 binary64; [Q_ops] evaluates the code with exact
      rational arithmetic, which is the arithmetic of the source only
      where no operation rounds, and [R_ops] with real arithmetic.
      The functions of [<cmath>] are parameters of the lookup.
    - [std::vector::operator[]] outside the vector, dereferencing
      [end()], [front()] and [pop_back] on an empty vector and a write
      outside the buffer of a tensor are undefined behaviour in the
      source; here they are the fault [OutOfBounds].
    - A thrown [std::runtime_error] is the fault [RuntimeError].
    - The loops of the constructor over the heights and over phi are
      bounded by their floating-point conditions alone; they take fuel
      here, and [None] tells that the fuel did not suffice.

    What is embedded.
    - The constructor: the loop over the heights, the two loops that
      sample phi from the shape, the sort, the generation of the rows
      with their left and right links, and the stitching.
      [setup_opencl], the rays and the OpenCL upload are left out.
    - [height], [lookup(height, theta_limits)] and [lookup(Hoc, lens)]
      with its two lenses; of [classify], the index vector it builds
      for the device.
    - [mesh_k_error], [find_mesh], [get_mesh] and [Compute] up to the
      projected mesh, and the copy of the projected mesh into the two
      output tensors. *)

From Stdlib Require Import ZArith QArith Qround Qabs Reals Lra Lia String List Bool.
From Stdlib Require Lqa SpecFloat.
From stdpp Require Import base option list.

Local Open Scope Z_scope.

(** ** Machine integers *)

Module Machine.

(** Conversion to [size_t] (64 bits, unsigned). *)
Definition u64 (z : Z) : Z := z mod 2 ^ 64.

(** Conversion to [int] (32 bits, two's complement). *)
Definition i32 (z : Z) : Z := (z + 2 ^ 31) mod 2 ^ 32 - 2 ^ 31.

End Machine.
Import Machine.

(** ** Faults *)

Inductive fault : Type :=
| OutOfBounds
| RuntimeError (msg : string).

Inductive result (A : Type) : Type :=
| Ok (a : A)
| Fault (f : fault).
Arguments Ok {A} a.
Arguments Fault {A} f.

#[global] Instance result_bind : MBind result := fun A B k m =>
  match m with
  | Ok a => k a
  | Fault f => Fault f
  end.

Definition len {A} (v : list A) : Z := Z.of_nat (length v).

(** [v[i]] for a [size_t] index. *)
Definition at_index {A} (v : list A) (i : Z) : result A :=
  if (0 <=? i) && (i <? len v)
  then match v !! Z.to_nat i with
       | Some x => Ok x
       | None => Fault OutOfBounds
       end
  else Fault OutOfBounds.

(** [for (i = lo; ...; ++i)] running [n] times. *)
Fixpoint for_loop {St} (n : nat) (i : Z) (body : Z -> St -> result St) (s : St)
  : result St :=
  match n with
  | O => Ok s
  | S n' =>
      match body i s with
      | Ok s' => for_loop n' (i + 1) body s'
      | Fault f => Fault f
      end
  end.

(** [for (size_t i = lo; i < hi; ++i)]. *)
Definition for_range {St} (lo hi : Z) (body : Z -> St -> result St) (s : St)
  : result St :=
  for_loop (Z.to_nat (hi - lo)) lo body s.

(** ** The scalar interface *)

Class ScalarOps (Scalar : Type) := {
  s_of_Z : Z -> Scalar;                   (* Scalar(n) of an integer *)
  s_half : Scalar;                        (* Scalar(0.5) *)
  s_pi : Scalar;                          (* M_PI *)
  s_pi_2 : Scalar;                        (* M_PI_2 *)
  s_max : Scalar;                         (* numeric_limits<Scalar>::max() *)
  s_add : Scalar -> Scalar -> Scalar;
  s_sub : Scalar -> Scalar -> Scalar;
  s_mul : Scalar -> Scalar -> Scalar;
  s_div : Scalar -> Scalar -> Scalar;
  s_neg : Scalar -> Scalar;
  s_abs : Scalar -> Scalar;
  s_ltb : Scalar -> Scalar -> bool;       (* a < b *)
  s_eqb : Scalar -> Scalar -> bool;       (* a == b *)
  s_floor : Scalar -> Scalar;
  s_ceil : Scalar -> Scalar;
  s_to_Z : Scalar -> Z                    (* conversion to an integer type *)
}.

Definition s_leb `{ScalarOps Scalar} (a b : Scalar) : bool :=
  s_ltb a b || s_eqb a b.

Declare Scope scalar_scope.
Delimit Scope scalar_scope with S.
Infix "+" := s_add : scalar_scope.
Infix "-" := s_sub : scalar_scope.
Infix "*" := s_mul : scalar_scope.
Infix "/" := s_div : scalar_scope.
Notation "- x" := (s_neg x) : scalar_scope.
Infix "<?" := s_ltb : scalar_scope.
Infix "<=?" := s_leb : scalar_scope.
Infix "=?" := s_eqb : scalar_scope.

(** ** Data model *)

(** Positions in [Node::neighbours]. *)
Module Dir.
Definition TL : nat := 0.
Definition TR : nat := 1.
Definition L : nat := 2.
Definition R : nat := 3.
Definition BL : nat := 4.
Definition BR : nat := 5.
End Dir.

(** [struct Node], without the ray: no neighbour offset depends on it. *)
Record Node : Type := mkNode { neighbours : list Z }.

(** [node.neighbours[k]]. *)
Definition nb (n : Node) (k : nat) : Z := default 0 (neighbours n !! k).

Definition set_neighbour (k : nat) (v : Z) (n : Node) : Node :=
  {| neighbours := <[k := v]> (neighbours n) |}.

(** [lut[i].neighbours[k] = v]. *)
Definition set_nb (lut : list Node) (i : Z) (k : nat) (v : Z) : list Node :=
  alter (set_neighbour k v) (Z.to_nat i) lut.

Section Builder.

Context {Scalar : Type} `{ScalarOps Scalar}.

Record Row : Type := mkRow {
  row_phi : Scalar;
  row_begin : Z;
  row_end : Z
}.

Record Mesh : Type := mkMesh {
  nodes : list Node;
  rows : list Row
}.

(** *** Ray generation: the left and right neighbours *)

(** The node pushed for position [i] of a row of [steps] nodes.  The
    four vertical entries are not initialised by the source; they are
    0 here and every one of them is written during stitching. *)
Definition row_node (steps i : Z) : Node :=
  let l := i32 (if i =? 0 then u64 (steps - 1) else u64 (i - 1)) in
  let r := i32 (if i =? u64 (steps - 1) then 0 else u64 (i + 1)) in
  {| neighbours := [0; 0; i32 (u64 (l - i)); i32 (u64 (r - i)); 0; 0] |}.

Fixpoint push_row (n : nat) (steps i : Z) (lut : list Node) : list Node :=
  match n with
  | O => lut
  | S n' => push_row n' steps (i + 1) (lut ++ [row_node steps i])
  end.

(** The loop over the sorted list [phis] of (phi, steps). *)
Fixpoint generate (phis : list (Scalar * Z)) (lut : list Node) (rws : list Row)
  : list Node * list Row :=
  match phis with
  | [] => (lut, rws)
  | (phi, steps) :: rest =>
      let row := mkRow phi (len lut) (u64 (len lut + steps)) in
      generate rest (push_row (Z.to_nat steps) steps 0 lut) (rws ++ [row])
  end.

(** *** The [link] lambda *)

Definition link_left (pos : Scalar) : bool := s_ltb s_half pos.

Definition link_o1 (pos : Scalar) (start size : Z) : Z :=
  let left := link_left pos in
  u64 (s_to_Z (s_add (s_of_Z start)
                 (s_floor (s_add (s_mul pos (s_of_Z size))
                             (s_of_Z (if left then 0 else 1)))))).

Definition link (lut : list Node) (i : Z) (pos : Scalar) (start size : Z)
    (offset : nat) : result (list Node) :=
  _ ← at_index lut i;
  let left := link_left pos in
  let o1 := link_o1 pos start size in
  n1 ← at_index lut o1;
  let o2 := u64 (o1 + nb n1 (2 + (if left then 1 else 0))) in
  let lut1 := set_nb lut i offset (i32 (u64 ((if left then o1 else o2) - i))) in
  Ok (set_nb lut1 i (offset + 1) (i32 (u64 ((if left then o2 else o1) - i)))).

(** *** Vertical stitching of the middle rows *)

Definition row_size (r : Row) : Z := i32 (u64 (row_end r - row_begin r)).

Definition row_pos (r : Row) (i : Z) : Scalar :=
  s_div (s_of_Z (u64 (i - row_begin r))) (s_of_Z (row_size r)).

Definition stitch_row (rws : list Row) (r : Z) (lut : list Node)
  : result (list Node) :=
  prev ← at_index rws (r - 1);
  current ← at_index rws r;
  next ← at_index rws (r + 1);
  for_range (row_begin current) (row_end current)
    (fun i lut =>
       let pos := row_pos current i in
       lut1 ← link lut i pos (i32 (row_begin prev)) (row_size prev) 0;
       link lut1 i pos (i32 (row_begin next)) (row_size next) 4)
    lut.

(** [for (size_t r = 1; r < rows.size() - 1; ++r)]: the bound is
    computed in [size_t]. *)
Definition stitch_rows (rws : list Row) (lut : list Node) : result (list Node) :=
  for_range 1 (u64 (len rws - 1)) (stitch_row rws) lut.

(** *** The first and the last row *)

Definition pole_index (r : Row) (i : Z) : Z :=
  u64 (u64 (i - row_begin r) + u64 (Z.quot (row_size r) 2)).

Definition stitch_front (rws : list Row) (front : Row) (lut : list Node)
  : result (list Node) :=
  for_range (row_begin front) (row_end front)
    (fun i lut =>
       _ ← at_index lut i;
       let index := pole_index front i in
       let pos := row_pos front i in
       let size := u64 (row_size front) in
       let lut1 := set_nb lut i 0
                     (i32 (u64 (row_begin front + index mod size - i))) in
       let lut2 := set_nb lut1 i 1
                     (i32 (u64 (row_begin front + u64 (index + 1) mod size - i))) in
       r2 ← at_index rws 1;
       link lut2 i pos (i32 (row_begin r2))
         (i32 (u64 (row_end r2 - row_begin r2))) 4)
    lut.

Definition stitch_back (rws : list Row) (back : Row) (lut : list Node)
  : result (list Node) :=
  for_range (row_begin back) (row_end back)
    (fun i lut =>
       _ ← at_index lut i;
       let index := pole_index back i in
       let pos := row_pos back i in
       let size := u64 (row_size back) in
       let lut1 := set_nb lut i 4
                     (i32 (u64 (row_begin back + index mod size - i))) in
       let lut2 := set_nb lut1 i 5
                     (i32 (u64 (row_begin back + u64 (index + 1) mod size - i))) in
       r2 ← at_index rws (u64 (len rws - 2));
       link lut2 i pos (i32 (row_begin r2))
         (i32 (u64 (row_end r2 - row_begin r2))) 0)
    lut.

Definition stitch_poles (rws : list Row) (lut : list Node) : result (list Node) :=
  match rws with
  | [] => Ok lut
  | front :: _ =>
      let back := List.last rws front in
      lut1 ← stitch_front rws front lut;
      stitch_back rws back lut1
  end.

(** *** One iteration of the constructor's loop over heights *)

Definition build (phis : list (Scalar * Z)) : result Mesh :=
  let '(lut, rws) := generate phis [] [] in
  lut1 ← stitch_rows rws lut;
  lut2 ← stitch_poles rws lut1;
  Ok (mkMesh lut2 rws).

(** *** What the stitching stores, node by node *)

(** [lut[o].neighbours[k]] for a node of the table. *)
Definition nbr (lut : list Node) (o : Z) (k : nat) : Z :=
  match lut !! Z.to_nat o with
  | Some n => nb n k
  | None => 0
  end.

(** The two offsets a call of [link] stores for node [i]. *)
Definition link_pair (lut : list Node) (i : Z) (pos : Scalar) (start size : Z)
  : Z * Z :=
  let left := link_left pos in
  let o1 := link_o1 pos start size in
  let o2 := u64 (o1 + nbr lut o1 (2 + (if left then 1 else 0))) in
  (i32 (u64 ((if left then o1 else o2) - i)),
   i32 (u64 ((if left then o2 else o1) - i))).

(** The two offsets the first and the last row store towards the pole. *)
Definition pole_pair (r : Row) (i : Z) : Z * Z :=
  let index := pole_index r i in
  let size := u64 (row_size r) in
  (i32 (u64 (row_begin r + index mod size - i)),
   i32 (u64 (row_begin r + u64 (index + 1) mod size - i))).

(** Storing a pair at the positions [k] and [k + 1]. *)
Definition set_pair (k : nat) (p : Z * Z) (n : Node) : Node :=
  set_neighbour (k + 1) (snd p) (set_neighbour k (fst p) n).

(** The link of node [i] of [row] to the row [target]. *)
Definition row_link (lut : list Node) (row target : Row) (i : Z) : Z * Z :=
  link_pair lut i (row_pos row i) (i32 (row_begin target)) (row_size target).

(** Two tables with the same left and right offsets. *)
Definition same_sides (lut lut' : list Node) : Prop :=
  length lut' = length lut
  /\ forall o k, (k = 2 \/ k = 3)%nat -> nbr lut' o k = nbr lut o k.

(** Rows that follow one another from [b] to [e]. *)
Fixpoint chain (b : Z) (rws : list Row) (e : Z) : Prop :=
  match rws with
  | [] => b = e
  | row :: rest => row_begin row = b /\ b <= row_end row /\ chain (row_end row) rest e
  end.

(** The sum of the row sizes. *)
Definition total (phis : list (Scalar * Z)) : Z :=
  fold_right (fun p acc => snd p + acc) 0 phis.

End Builder.

Arguments Row Scalar : clear implicits.
Arguments Mesh Scalar : clear implicits.

(** ** What a built mesh is, for the statements *)

Section BuilderSpec.

Context {Scalar : Type} `{ScalarOps Scalar}.
Implicit Types (rws : list (Row Scalar)) (row prev next front back : Row Scalar).

(** What the loop over a middle or first row leaves in a node. *)
Definition stitched (top bottom : Z * Z) (n : Node) : Node :=
  set_pair 4 bottom (set_pair 0 top n).

(** What the loop over the last row leaves in a node. *)
Definition stitched_back (top bottom : Z * Z) (n : Node) : Node :=
  set_pair 0 top (set_pair 4 bottom n).

(** The node [link] reads for node [i] of [row] is in the table. *)
Definition link_in (lut : list Node) (row target : Row Scalar) (i : Z) : Prop :=
  0 <= link_o1 (row_pos row i) (i32 (row_begin target)) (row_size target) < len lut.

(** The nodes of the rows are the generated ones. *)
Definition nodes_ok (lut : list Node) rws : Prop :=
  forall (r : nat) row i, rws !! r = Some row -> row_begin row <= i < row_end row ->
    lut !! Z.to_nat i = Some (row_node (row_end row - row_begin row) (i - row_begin row)).

(** Node [x] is a node of [row]. *)
Definition row_in row (x : nat) : Prop := row_begin row <= Z.of_nat x < row_end row.

(** The state of the table when the loop over the middle rows is about
    to stitch row [j]. *)
Definition middle_done (lut0 : list Node) rws (j : Z) (lut : list Node) : Prop :=
  same_sides lut0 lut
  /\ (forall (r : nat) prev row next (x : nat),
        (1 <= r)%nat -> Z.of_nat r < j ->
        rws !! (r - 1)%nat = Some prev -> rws !! r = Some row ->
        rws !! Datatypes.S r = Some next -> row_in row x ->
        lut !! x = stitched (row_link lut0 row prev (Z.of_nat x))
                     (row_link lut0 row next (Z.of_nat x)) <$> lut0 !! x
        /\ link_in lut0 row prev (Z.of_nat x) /\ link_in lut0 row next (Z.of_nat x))
  /\ (forall (r : nat) row (x : nat),
        rws !! r = Some row -> ~ ((1 <= r)%nat /\ Z.of_nat r < j) -> row_in row x ->
        lut !! x = lut0 !! x).

(** Row sizes the [int] and [size_t] arithmetic of the source holds. *)
Definition fits (phis : list (Scalar * Z)) : Prop :=
  Forall (fun p => 0 <= snd p) phis /\ total phis < 2 ^ 31 /\ len phis < 2 ^ 31.

(** The finished mesh [m], node by node, from the generated table [lut0]. *)
Record built (lut0 : list Node) (m : Mesh Scalar) : Prop := mkBuilt {
  built_sides : same_sides lut0 (nodes m);
  built_chain : chain 0 (rows m) (len lut0);
  built_nodes : nodes_ok lut0 (rows m);
  built_middle :
    forall (r : nat) prev row next (x : nat),
      (1 <= r)%nat -> rows m !! (r - 1)%nat = Some prev -> rows m !! r = Some row ->
      rows m !! Datatypes.S r = Some next -> row_in row x ->
      nodes m !! x = stitched (row_link lut0 row prev (Z.of_nat x))
                       (row_link lut0 row next (Z.of_nat x)) <$> lut0 !! x
      /\ link_in lut0 row prev (Z.of_nat x) /\ link_in lut0 row next (Z.of_nat x);
  built_front :
    forall front next (x : nat),
      rows m !! 0%nat = Some front -> rows m !! 1%nat = Some next -> row_in front x ->
      nodes m !! x = stitched (pole_pair front (Z.of_nat x))
                       (row_link lut0 front next (Z.of_nat x)) <$> lut0 !! x
      /\ link_in lut0 front next (Z.of_nat x);
  built_back :
    forall back prev (x : nat),
      rows m !! (length (rows m) - 1)%nat = Some back ->
      rows m !! (length (rows m) - 2)%nat = Some prev -> row_in back x ->
      nodes m !! x = stitched_back (row_link lut0 back prev (Z.of_nat x))
                       (pole_pair back (Z.of_nat x)) <$> lut0 !! x
      /\ link_in lut0 back prev (Z.of_nat x)
}.

(** The link rule in the words of the specification, on the finished
    table [lut]: [pair] holds the two offsets of node [i] of [row]
    towards the row [target].  The position [pos] is
    [(i - row.begin) / row.size], [left] is [pos > 0.5], the closest
    node [o1] is [target.begin + floor (pos * target.size + (0 if left
    else 1))] and the second node [o2] is the neighbour of [o1] in the
    direction [second left].  The quotient, the product, the floor and
    the two sums are those of [Scalar], and the last sum is converted
    to an index. *)
Definition link_rule (second : bool -> nat) (lut : list Node)
    (row target : Row Scalar) (i : Z) (pair : Z * Z) : Prop :=
  let pos := (s_of_Z (i - row_begin row) / s_of_Z (row_end row - row_begin row))%S in
  let left := (s_half <? pos)%S in
  let size := row_end target - row_begin target in
  let o1 := u64 (s_to_Z (s_of_Z (row_begin target)
                         + s_floor (pos * s_of_Z size
                                    + s_of_Z (if left then 0 else 1)))%S) in
  let o2 := o1 + nbr lut o1 (second left) in
  0 <= o1 < len lut /\ 0 <= o2 < len lut
  /\ pair = ((if left then o1 else o2) - i, (if left then o2 else o1) - i).

(** The rule of the source: the right neighbour of [o1] when [left]
    holds, its left neighbour otherwise. *)
Definition linked : list Node -> Row Scalar -> Row Scalar -> Z -> Z * Z -> Prop :=
  link_rule (fun left : bool => if left then Dir.R else Dir.L).

(** The rule in the words of the specification: the left neighbour of
    [o1] when [left] holds, its right neighbour otherwise. *)
Definition linked_as_specified
  : list Node -> Row Scalar -> Row Scalar -> Z -> Z * Z -> Prop :=
  link_rule (fun left : bool => if left then Dir.L else Dir.R).

(** The two nodes across the pole, for node [i] of [row]. *)
Definition antipodal (row : Row Scalar) (i : Z) (pair : Z * Z) : Prop :=
  let N := row_end row - row_begin row in
  let p := i - row_begin row in
  pair = (row_begin row + (p + N / 2) mod N - i,
          row_begin row + (p + N / 2 + 1) mod N - i).

(** The left and right offsets of position [p] in a row of [N] nodes. *)
Definition side_offsets (N p : Z) : Z * Z :=
  (if p =? 0 then N - 1 else -1, if p =? N - 1 then - (N - 1) else 1).

(** Every node [link] reads, for the links between adjacent rows, is in
    the table. *)
Definition links_in (lut0 : list Node) (rws : list (Row Scalar)) : Prop :=
  forall (r rt : nat) row target i,
    rws !! r = Some row -> rws !! rt = Some target ->
    (rt = Datatypes.S r \/ r = Datatypes.S rt) ->
    row_begin row <= i < row_end row ->
    link_in lut0 row target i.

(** The direction that points back. *)
Definition complementary (d : nat) : nat := (5 - d)%nat.

(** Node [i] is one of the six neighbours of its neighbour in the
    direction [d]. *)
Definition listed_among (lut : list Node) (i : Z) (d : nat) : Prop :=
  let j := i + nbr lut i d in
  exists d' : nat, (d' < 6)%nat /\ j + nbr lut j d' = i.

(** The neighbour of node [i] in the direction [d] has [i] as its
    neighbour in the complementary direction. *)
Definition listed_back (lut : list Node) (i : Z) (d : nat) : Prop :=
  let j := i + nbr lut i d in
  j + nbr lut j (complementary d) = i.

End BuilderSpec.


(** ** Frustum lookup *)

Section Lookup.

Context {Scalar : Type} `{ScalarOps Scalar}.

(** The functions of [<cmath>] the lookup calls. *)
Variables s_sin s_cos s_tan s_sqrt : Scalar -> Scalar.
Variable s_atan2 : Scalar -> Scalar -> Scalar.

(** [std::map<Scalar, Mesh> luts], as the list of its entries in
    ascending order of key.  The constructor's loop over the heights,
    which fills it, is [heights] further down. *)
Definition Luts : Type := list (Scalar * Mesh Scalar).

(** [luts.lower_bound(height)]: the first entry whose key is not less
    than [height]; [None] is [luts.end()]. *)
Definition lower_bound (luts : Luts) (height : Scalar)
  : option (Scalar * Mesh Scalar) :=
  List.find (fun kv => negb (fst kv <? height)%S) luts.

(** [luts.lower_bound(height)->second]: dereferencing [end()] is
    undefined behaviour. *)
Definition lower_bound_mesh (luts : Luts) (height : Scalar) : result (Mesh Scalar) :=
  match lower_bound luts height with
  | Some kv => Ok (snd kv)
  | None => Fault OutOfBounds
  end.

Definition height (luts : Luts) (h : Scalar) : result (Mesh Scalar) :=
  lower_bound_mesh luts h.

(** *** [lookup(height, theta_limits)] *)

Definition two_pi : Scalar := (s_of_Z 2 * s_pi)%S.

(** [size_t(std::ceil(row_size * theta * (Scalar(1.0) / (Scalar(2.0) * M_PI))))] *)
Definition theta_index (row_size : Z) (theta : Scalar) : Z :=
  u64 (s_to_Z (s_ceil (s_of_Z row_size * theta * (s_of_Z 1 / two_pi))%S)).

Definition range_indices (row : Row Scalar) (range : Scalar * Scalar)
  : list (Z * Z) :=
  let row_size := u64 (row_end row - row_begin row) in
  let begin0 := theta_index row_size (fst range) in
  let end0 := theta_index row_size (snd range) in
  let begin := if row_size <? begin0 then 0 else begin0 in
  let end_ := if row_size <? end0 then row_size else end0 in
  if negb (begin =? end_) then
    if begin <? end_ then
      [(u64 (row_begin row + begin), u64 (row_begin row + end_))]
    else
      [(row_begin row, u64 (row_begin row + end_));
       (u64 (row_begin row + begin), row_end row)]
  else [].

Definition ThetaLimits : Type := Scalar -> result (list (Scalar * Scalar)).

(** The loop over [mesh.rows]; an exception of [theta_limits] leaves
    the loop and the function. *)
Fixpoint lookup_rows (theta_limits : ThetaLimits) (rws : list (Row Scalar))
    (indices : list (Z * Z)) : result (list (Z * Z)) :=
  match rws with
  | [] => Ok indices
  | row :: rest =>
      theta_ranges ← theta_limits (row_phi row);
      lookup_rows theta_limits rest
        (indices ++ flat_map (range_indices row) theta_ranges)
  end.

Definition lookup (luts : Luts) (height : Scalar) (theta_limits : ThetaLimits)
  : result (Mesh Scalar * list (Z * Z)) :=
  mesh ← lower_bound_mesh luts height;
  indices ← lookup_rows theta_limits (rows mesh) [];
  Ok (mesh, indices).

(** *** [lookup(Hoc, lens)], equirectangular lens *)

Definition vec3 : Type := Scalar * Scalar * Scalar.
Definition v0 (v : vec3) : Scalar := fst (fst v).
Definition v1 (v : vec3) : Scalar := snd (fst v).
Definition v2 (v : vec3) : Scalar := snd v.

Definition dot (a b : vec3) : Scalar :=
  (v0 a * v0 b + v1 a * v1 b + v2 a * v2 b)%S.

Definition cross (a b : vec3) : vec3 :=
  ((v1 a * v2 b - v2 a * v1 b)%S,
   (v2 a * v0 b - v0 a * v2 b)%S,
   (v0 a * v1 b - v1 a * v0 b)%S).

(** [Hoc[i][j]]. *)
Definition mat4 : Type := nat -> nat -> Scalar.

Definition Roc_row (Hoc : mat4) (i : nat) : vec3 := (Hoc i 0%nat, Hoc i 1%nat, Hoc i 2%nat).

Record Frustum : Type := mkFrustum {
  rNCo : list vec3;     (* the corners, in the observation frame *)
  rMNo : list vec3;     (* corner to next corner *)
  edges : list vec3;    (* the normals of the four faces *)
  cam : vec3
}.

Definition frustum (Hoc : mat4) (fov : Scalar * Scalar) : Frustum :=
  let x2 := s_of_Z 2 in
  let one := s_of_Z 1 in
  let y_extent := s_tan (fst fov * s_half)%S in
  let z_extent := s_tan (snd fov * s_half)%S in
  let rNCc : list vec3 :=
    [ (one, y_extent, z_extent);
      (one, (- y_extent)%S, z_extent);
      (one, (- y_extent)%S, (- z_extent)%S);
      (one, y_extent, (- z_extent)%S) ] in
  let Roc := Roc_row Hoc in
  let corners :=
    map (fun c => (dot c (Roc 0%nat), dot c (Roc 1%nat), dot c (Roc 2%nat))) rNCc in
  let col j s : vec3 :=
    ((s (Hoc 0%nat j) * x2)%S, (s (Hoc 1%nat j) * x2)%S, (s (Hoc 2%nat j) * x2)%S) in
  let scale (e : Scalar) (v : vec3) : vec3 :=
    ((v0 v * e)%S, (v1 v * e)%S, (v2 v * e)%S) in
  let sides :=
    [ scale y_extent (col 1%nat s_neg);
      scale z_extent (col 2%nat s_neg);
      scale y_extent (col 1%nat (fun x => x));
      scale z_extent (col 2%nat (fun x => x)) ] in
  let corner k := nth k corners (one, one, one) in
  mkFrustum corners sides
    [ cross (corner 0%nat) (corner 1%nat);
      cross (corner 1%nat) (corner 2%nat);
      cross (corner 2%nat) (corner 3%nat);
      cross (corner 3%nat) (corner 0%nat) ]
    (Hoc 0%nat 0%nat, Hoc 1%nat 0%nat, Hoc 2%nat 0%nat).

(** [eq_parts[i]] for the edge with origin [o] and direction [d]. *)
Definition eq_parts (o d : vec3) : list Scalar :=
  let x2 := s_of_Z 2 in
  let '(ox, oy, oz) := o in
  let '(dx, dy, dz) := d in
  [ (dz * oz)%S;
    (- dy * oy - dx * ox)%S;
    (dx * dx * oz * oz - x2 * dx * dz * ox * oz + dy * dy * oz * oz
     - x2 * dy * dz * oy * oz + dz * dz * ox * ox + dz * dz * oy * oy)%S;
    (- dx * dx * oy * oy + x2 * dx * dy * ox * oy - dy * dy * ox * ox)%S;
    (- dz * dz)%S;
    (dx * dx + dy * dy)%S ].

(** The body of the loop over the four edges, for one edge: the
    thetas it appends to [limits], or [None] when the discriminant is
    not positive and [complex_sols] is incremented. *)
Definition edge_limits (phi c2 : Scalar) (o d : vec3) : option (list Scalar) :=
  let zero := s_of_Z 0 in
  let p k := nth k (eq_parts o d) zero in
  let num := (c2 * p 0%nat + p 1%nat)%S in
  let disc := (c2 * p 2%nat + p 3%nat)%S in
  let denom := (c2 * p 4%nat + p 5%nat)%S in
  if (disc <=? zero)%S then None
  else if negb (denom =? zero)%S then
    let root := s_sqrt disc in
    Some (flat_map
            (fun t =>
               if (zero <=? t)%S && (t <=? s_of_Z 1)%S then
                 let z := (v2 o + v2 d * t)%S in
                 if Bool.eqb (zero <? z)%S (s_pi_2 <? phi)%S then
                   let x := (v0 o + v0 d * t)%S in
                   let y := (v1 o + v1 d * t)%S in
                   let theta := s_atan2 y x in
                   [ if (zero <? theta)%S then theta
                     else (theta + s_pi * s_of_Z 2)%S ]
                 else []
               else [])
            [ ((num + root) / denom)%S; ((num - root) / denom)%S ])
  else Some [].

(** The loop over the edges: [(limits, complex_sols)]. *)
Fixpoint collect_limits (phi c2 : Scalar) (sides : list (vec3 * vec3))
    (limits : list Scalar) (complex_sols : Z) : list Scalar * Z :=
  match sides with
  | [] => (limits, complex_sols)
  | (o, d) :: rest =>
      match edge_limits phi c2 o d with
      | None => collect_limits phi c2 rest limits (complex_sols + 1)
      | Some found => collect_limits phi c2 rest (limits ++ found) complex_sols
      end
  end.

(** [0 > dot(test_vec, edges[i])] for some [i]. *)
Definition outside (f : Frustum) (test_vec : vec3) : bool :=
  existsb (fun e => (dot test_vec e <? s_of_Z 0)%S) (edges f).

(** [std::sort] of the limits. *)
Fixpoint sort_insert (x : Scalar) (l : list Scalar) : list Scalar :=
  match l with
  | [] => [x]
  | y :: l' => if (y <? x)%S then y :: sort_insert x l' else x :: l
  end.

Definition sort_limits (l : list Scalar) : list Scalar :=
  fold_right sort_insert [] l.

(** [for (i = s; i < limits.size() - 1; i += 2)
       output.emplace_back(limits[i], limits[i + 1])],
    on the limits from position [s]. *)
Fixpoint pair_up (l : list Scalar) : list (Scalar * Scalar) :=
  match l with
  | a :: b :: rest => (a, b) :: pair_up rest
  | _ => []
  end.

Definition odd_intersections : string :=
  "Odd number of intersections found with cone".

(** What [theta_limits] does with the collected limits. *)
Definition classify_limits (f : Frustum) (phi : Scalar)
    (limits : list Scalar) (complex_sols : Z)
  : result (list (Scalar * Scalar)) :=
  let zero := s_of_Z 0 in
  let sin_phi := s_sin phi in
  let cos_phi := s_cos phi in
  if (complex_sols =? 4) && Bool.eqb (zero <? cos_phi)%S (v2 (cam f) <? zero)%S then
    let test_vec : vec3 := (sin_phi, zero, (- cos_phi)%S) in
    if negb (outside f test_vec) then Ok [(zero, (s_of_Z 2 * s_pi)%S)]
    else Ok []
  else if negb (length limits =? 0)%nat then
    if (Z.of_nat (length limits) mod 2 =? 0) then
      let sorted := sort_limits limits in
      let test_theta := ((nth 0 sorted zero + nth 1 sorted zero) * s_half)%S in
      let sin_theta := s_sin test_theta in
      let cos_theta := s_cos test_theta in
      let test_vec : vec3 :=
        ((cos_theta * sin_phi)%S, (sin_theta * sin_phi)%S, (- cos_phi)%S) in
      let first_is_end := outside f test_vec in
      let output := pair_up (if first_is_end then tail sorted else sorted) in
      Ok (if first_is_end
          then output ++ [(List.last sorted zero, nth 0 sorted zero)]
          else output)
    else Fault (RuntimeError odd_intersections)
  else Ok [].

(** The [theta_limits] lambda of the equirectangular case. *)
Definition theta_limits_equirectangular (f : Frustum) : ThetaLimits :=
  fun phi =>
    let tan_phi := s_tan phi in
    let c2 := (tan_phi * tan_phi)%S in
    let '(limits, complex_sols) :=
      collect_limits phi c2 (combine (rNCo f) (rMNo f)) [] 0 in
    classify_limits f phi limits complex_sols.

Definition lookup_equirectangular (luts : Luts) (Hoc : mat4)
    (fov : Scalar * Scalar) : result (Mesh Scalar * list (Z * Z)) :=
  let height := Hoc 2%nat 3%nat in
  lookup luts height (theta_limits_equirectangular (frustum Hoc fov)).

End Lookup.

(** ** What a lookup converts, for the statements *)

Section LookupSpec.

Context {Scalar : Type} `{ScalarOps Scalar}.

(** The index conversion in the words of the specification, for the
    interval from [theta_lo] to [theta_hi] on the row [row] of [N]
    nodes: an end above [N] is [N], a begin above [N] is 0, equal
    indices give no range, a begin below the end gives one range and a
    begin above the end the two ranges of the wrap.  [index N theta]
    is the index of the angle [theta] before the clamps. *)
Definition index_rule (index : Z -> Scalar -> Z) (row : Row Scalar)
    (theta_lo theta_hi : Scalar) : list (Z * Z) :=
  let N := row_end row - row_begin row in
  let begin0 := index N theta_lo in
  let end0 := index N theta_hi in
  let end_ := if end0 >? N then N else end0 in
  let begin := if begin0 >? N then 0 else begin0 in
  if begin =? end_ then []
  else if begin <? end_ then [(row_begin row + begin, row_begin row + end_)]
  else [(row_begin row, row_begin row + end_); (row_begin row + begin, row_end row)].

(** The index of the specification: the ceiling of [N * theta / (2 pi)],
    with the products and the quotient of [Scalar], converted to an
    index. *)
Definition index_by_quotient (N : Z) (theta : Scalar) : Z :=
  u64 (s_to_Z (s_ceil (s_of_Z N * theta / (s_of_Z 2 * s_pi))%S)).

(** The index with the reciprocal of 2 pi: the ceiling of
    [N * theta * (1 / (2 pi))], where the reciprocal is a value of
    [Scalar] of its own. *)
Definition index_by_reciprocal (N : Z) (theta : Scalar) : Z :=
  u64 (s_to_Z (s_ceil (s_of_Z N * theta * (s_of_Z 1 / (s_of_Z 2 * s_pi)))%S)).

Definition index_conversion_as_specified
  : Row Scalar -> Scalar -> Scalar -> list (Z * Z) :=
  index_rule index_by_quotient.

Definition index_conversion : Row Scalar -> Scalar -> Scalar -> list (Z * Z) :=
  index_rule index_by_reciprocal.

(** The ranges of a whole lookup: row after row, and for each row
    interval after interval, the ranges [conversion] gives.  [limits]
    holds the intervals of each row. *)
Definition converted (conversion : Row Scalar -> Scalar -> Scalar -> list (Z * Z))
    (rws : list (Row Scalar)) (limits : list (list (Scalar * Scalar)))
  : list (Z * Z) :=
  concat (zip_with
            (fun row ranges =>
               flat_map (fun range => conversion row (fst range) (snd range)) ranges)
            rws limits).

End LookupSpec.

(** ** The mesh cache of the TensorFlow op *)

Section Cache.

Context {Scalar : Type} `{ScalarOps Scalar}.

(** Modelled from the spec: the class [visualmesh::Mesh] of
    [mesh/mesh.hpp], which the op instantiates, is not part of the
    sources.  A mesh records the height and the maximum distance it
    was built for (section 3 of the specification); [mesh_ptr] is the
    address held by the [std::shared_ptr], which tells two meshes
    apart. *)
Record MeshPtr : Type := mkMeshPtr {
  mesh_ptr : nat;
  mesh_h : Scalar;
  mesh_max_distance : Scalar
}.

(** [shape.k(h_0, h_1)] of the shape the cache is instantiated with. *)
Variable shape_k : Scalar -> Scalar -> Scalar.

Definition mesh_k_error (h_0 h_1 k : Scalar) : Scalar :=
  s_abs (k - k * shape_k h_0 h_1)%S.

(** The scan of [find_mesh]: [it] is the position of the head of
    [meshes] in the vector; the result is [(best_it, best_error)]. *)
Fixpoint scan (meshes : list MeshPtr) (h k d : Scalar) (it best_it : nat)
    (best_error : Scalar) : nat * Scalar :=
  match meshes with
  | [] => (best_it, best_error)
  | m :: rest =>
      let error := mesh_k_error (mesh_h m) h k in
      if (d =? mesh_max_distance m)%S && (error <? best_error)%S
      then scan rest h k d (Datatypes.S it) it error
      else scan rest h k d (Datatypes.S it) best_it best_error
  end.

(** [std::iter_swap(meshes.begin() + i, meshes.begin() + j)]. *)
Definition iter_swap (meshes : list MeshPtr) (i j : nat) : list MeshPtr :=
  match meshes !! i, meshes !! j with
  | Some a, Some b => <[i := b]> (<[j := a]> meshes)
  | _, _ => meshes
  end.

(** [find_mesh]: the vector after the call and the pointer returned
    ([None] is [nullptr]).  The pointer is read through [best_it]
    after the swap. *)
Definition find_mesh (meshes : list MeshPtr) (h k t d : Scalar)
  : list MeshPtr * option MeshPtr :=
  match meshes with
  | [] => (meshes, None)
  | _ =>
      let '(best_it, best_error) := scan meshes h k d 0%nat 0%nat s_max in
      let meshes' := iter_swap meshes 0%nat best_it in
      (meshes', if (best_error <=? t)%S then meshes' !! best_it else None)
  end.

(** [while (int32_t(meshes.size()) > cached_meshes) meshes.pop_back()],
    with [size] the number of elements of [meshes]; [pop_back] on an
    empty vector is undefined behaviour. *)
Fixpoint evict (size : nat) (meshes : list MeshPtr) (cached_meshes : Z)
  : result (list MeshPtr) :=
  if i32 (len meshes) >? cached_meshes then
    match size with
    | O => Fault OutOfBounds
    | Datatypes.S size' => evict size' (removelast meshes) cached_meshes
    end
  else Ok meshes.

(** The static vector [meshes] of one instantiation of [get_mesh];
    [next_ptr] is the address [std::make_shared] returns next. *)
Record Cache : Type := mkCache {
  meshes : list MeshPtr;
  next_ptr : nat
}.

(** [get_mesh], run by one thread: nothing happens to the vector
    between the two locked scopes. *)
Definition get_mesh (c : Cache) (height n_intersections intersection_tolerance : Scalar)
    (cached_meshes : Z) (max_distance : Scalar) : result (Cache * MeshPtr) :=
  let '(meshes1, mesh) :=
    find_mesh (meshes c) height n_intersections intersection_tolerance max_distance in
  match mesh with
  | Some m => Ok (mkCache meshes1 (next_ptr c), m)
  | None =>
      let new_mesh := mkMeshPtr (next_ptr c) height max_distance in
      let '(meshes2, mesh) :=
        find_mesh meshes1 height n_intersections intersection_tolerance max_distance in
      match mesh with
      | Some m => Ok (mkCache meshes2 (Datatypes.S (next_ptr c)), m)
      | None =>
          meshes3 ← evict (length meshes2) meshes2 cached_meshes;
          Ok (mkCache (meshes3 ++ [new_mesh]) (Datatypes.S (next_ptr c)), new_mesh)
      end
  end.

End Cache.

Arguments MeshPtr Scalar : clear implicits.
Arguments Cache Scalar : clear implicits.

(** ** [VisualMeshOp::Compute] *)

Section Op.

Context {Scalar : Type} `{ScalarOps Scalar}.

(** A tensor: its shape and its elements in row-major order. *)
Record Tensor (A : Type) : Type := mkTensor {
  dims : list Z;
  flat : list A
}.
Arguments dims {A} t.
Arguments flat {A} t.

Definition IsScalar {A} (t : Tensor A) : bool := (length (dims t) =? 0)%nat.
Definition IsVector {A} (t : Tensor A) : bool := (length (dims t) =? 1)%nat.
Definition IsSquareMatrix {A} (t : Tensor A) : bool :=
  match dims t with
  | [a; b] => a =? b
  | _ => false
  end.
Definition dim_size {A} (t : Tensor A) (k : nat) : Z := nth k (dims t) 0.

(** The thirteen inputs, in the order of [enum Args]. *)
Record Inputs : Type := mkInputs {
  in_image_dimensions : Tensor Z;
  in_lens_type : Tensor string;
  in_lens_focal_length : Tensor Scalar;
  in_lens_fov : Tensor Scalar;
  in_lens_centre : Tensor Scalar;
  in_cam_to_observation_plane : Tensor Scalar;
  in_height : Tensor Scalar;
  in_n_intersections : Tensor Scalar;
  in_cached_meshes : Tensor Z;
  in_intersection_tolerance : Tensor Scalar;
  in_max_distance : Tensor Scalar;
  in_geometry : Tensor string;
  in_radius : Tensor Scalar
}.

(** The inputs with another value in the [cached_meshes] tensor. *)
Definition with_cached_meshes (inp : Inputs) (value : list Z) : Inputs :=
  mkInputs (in_image_dimensions inp) (in_lens_type inp) (in_lens_focal_length inp)
    (in_lens_fov inp) (in_lens_centre inp) (in_cam_to_observation_plane inp)
    (in_height inp) (in_n_intersections inp)
    (mkTensor Z (dims (in_cached_meshes inp)) value)
    (in_intersection_tolerance inp) (in_max_distance inp) (in_geometry inp)
    (in_radius inp).

Inductive Projection : Type := EQUISOLID | EQUIDISTANT | RECTILINEAR.

Record OpLens : Type := mkOpLens {
  lens_dimensions : Z * Z;
  lens_focal_length : Scalar;
  lens_fov : Scalar;
  lens_centre : Scalar * Scalar;
  lens_projection : Projection
}.

(** [ProjectedMesh]: pixel coordinates and neighbourhood graph. *)
Record ProjectedMesh : Type := mkProjected {
  pixel_coordinates : list (Scalar * Scalar);
  neighbourhood : list (list Z)
}.

(** What the op takes from code that is not part of the sources:
    [Sphere::k] and [Circle::k] for a radius, the projection done by
    [mesh->lookup] and [engine.project], and the [int32] read by
    [scalar<int32>()] from a tensor of [T]. *)
Variable sphere_k circle_k : Scalar -> Scalar -> Scalar -> Scalar.
Variable project : MeshPtr Scalar -> list (list Scalar) -> OpLens -> ProjectedMesh.
Variable scalar_as_int32 : Scalar -> Z.

(** The outcome of [Compute]: the projected mesh, which the op then
    copies into its two output tensors (the copy is [outputs]), or
    the status set by a failed [OP_REQUIRES]. *)
Inductive Outcome : Type :=
| Projected (projected : ProjectedMesh)
| InvalidArgument (msg : string).

(** The two instantiations of [get_mesh] each have their own static
    vector. *)
Record OpState : Type := mkOpState {
  sphere_meshes : Cache Scalar;
  circle_meshes : Cache Scalar
}.

Definition input_checks (inp : Inputs) : list (bool * string) :=
  [ (IsVector (in_image_dimensions inp) && (dim_size (in_image_dimensions inp) 0 =? 2),
     "The image dimensions must be a 2d vector of [y_size, x_size]"%string);
    (IsScalar (in_lens_focal_length inp), "The focal length must be a scalar"%string);
    (IsScalar (in_lens_fov inp), "The field of view must be a scalar"%string);
    (IsVector (in_lens_centre inp) && (dim_size (in_lens_centre inp) 0 =? 2),
     "The lens centre must be a 2d vector of [y_size, x_size]"%string);
    (IsSquareMatrix (in_cam_to_observation_plane inp)
       && (dim_size (in_cam_to_observation_plane inp) 0 =? 3),
     "Roc must be a 3x3 matrix"%string);
    (IsScalar (in_height inp), "The height must be a scalar"%string);
    (IsScalar (in_n_intersections inp),
     "The number of intersections must be a scalar"%string);
    (IsScalar (in_cached_meshes inp), "The number cached meshes must be a scalar"%string);
    (IsScalar (in_intersection_tolerance inp),
     "The intersection tolerance must be a scalar"%string);
    (IsScalar (in_max_distance inp), "The maximum distance must be a scalar"%string);
    (IsScalar (in_geometry inp), "Geometry must be a single string value"%string);
    (IsScalar (in_radius inp), "The radius must be a scalar"%string) ].

(** The first [OP_REQUIRES] that fails. *)
Definition first_failed (checks : list (bool * string)) : option string :=
  snd <$> List.find (fun c => negb (fst c)) checks.

(** Element [k] of a tensor. *)
Definition element {A} (t : Tensor A) (k : Z) : result A := at_index (flat t) k.

Definition parse_projection (s : string) : option Projection :=
  if String.eqb s "EQUISOLID" then Some EQUISOLID
  else if String.eqb s "EQUIDISTANT" then Some EQUIDISTANT
  else if String.eqb s "RECTILINEAR" then Some RECTILINEAR
  else None.

Definition Compute (inp : Inputs) (st : OpState) : result (OpState * Outcome) :=
  match first_failed (input_checks inp) with
  | Some msg => Ok (st, InvalidArgument msg)
  | None =>
      dim0 ← element (in_image_dimensions inp) 0;
      dim1 ← element (in_image_dimensions inp) 1;
      let dimensions := (i32 dim1, i32 dim0) in
      projection ← element (in_lens_type inp) 0;
      focal_length ← element (in_lens_focal_length inp) 0;
      fov ← element (in_lens_fov inp) 0;
      centre0 ← element (in_lens_centre inp) 0;
      centre1 ← element (in_lens_centre inp) 1;
      let tRoc := in_cam_to_observation_plane inp in
      height ← element (in_height inp) 0;
      max_distance ← element (in_max_distance inp) 0;
      n_intersections ← element (in_n_intersections inp) 0;
      (* read from N_INTERSECTIONS, not from CACHED_MESHES *)
      cached_bits ← element (in_n_intersections inp) 0;
      let cached_meshes := scalar_as_int32 cached_bits in
      intersection_tolerance ← element (in_intersection_tolerance inp) 0;
      geometry ← element (in_geometry inp) 0;
      radius ← element (in_radius inp) 0;
      match parse_projection projection with
      | None =>
          Ok (st, InvalidArgument
                    "Projection must be one of EQUISOLID, EQUIDISTANT or RECTILINEAR")
      | Some lens_projection =>
          if negb (String.eqb geometry "SPHERE" || String.eqb geometry "CIRCLE") then
            Ok (st, InvalidArgument "Geometry must be one of SPHERE or CIRCLE")
          else
            r00 ← element tRoc 0; r01 ← element tRoc 1; r02 ← element tRoc 2;
            r10 ← element tRoc 3; r11 ← element tRoc 4; r12 ← element tRoc 5;
            r20 ← element tRoc 6; r21 ← element tRoc 7; r22 ← element tRoc 8;
            let zero := s_of_Z 0 in
            let Hoc :=
              [ [r00; r01; r02; zero];
                [r10; r11; r12; zero];
                [r20; r21; r22; height];
                [zero; zero; zero; s_of_Z 1] ] in
            let lens :=
              mkOpLens dimensions focal_length fov (centre1, centre0) lens_projection in
            if String.eqb geometry "SPHERE" then
              '(cache, mesh) ← get_mesh (sphere_k radius) (sphere_meshes st) height
                                 n_intersections intersection_tolerance cached_meshes
                                 max_distance;
              Ok (mkOpState cache (circle_meshes st),
                  Projected (project mesh Hoc lens))
            else
              '(cache, mesh) ← get_mesh (circle_k radius) (circle_meshes st) height
                                 n_intersections intersection_tolerance cached_meshes
                                 max_distance;
              Ok (mkOpState (sphere_meshes st) cache,
                  Projected (project mesh Hoc lens))
      end
  end.

End Op.

Arguments Inputs Scalar : clear implicits.
Arguments OpLens Scalar : clear implicits.
Arguments ProjectedMesh Scalar : clear implicits.
Arguments Outcome Scalar : clear implicits.
Arguments OpState Scalar : clear implicits.

(** ** [lookup(Hoc, lens)], radial lens, and the choice of the lens *)

Section Radial.

Context {Scalar : Type} `{ScalarOps Scalar}.

Variables s_sin s_cos s_tan s_sqrt s_acos : Scalar -> Scalar.
Variable s_atan2 : Scalar -> Scalar -> Scalar.

(** The [theta_limits] lambda of the radial case; [a > b] of the
    source is [b < a].  It answers one interval for every phi and
    throws nothing. *)
Definition theta_limits_radial (cam : vec3) (fov : Scalar) : ThetaLimits :=
  fun phi =>
    let zero := s_of_Z 0 in
    let x2_pi := (s_of_Z 2 * s_pi)%S in
    let cos_half_fov := s_cos (fov * s_half)%S in
    let upper := (s_pi_2 <? phi)%S in
    let cam_inc := s_acos (- v2 cam)%S in
    let half_fov := (fov * s_half)%S in
    if (upper && (s_pi - phi <? half_fov - (s_pi - cam_inc))%S)
       || (negb upper && (phi <? half_fov - cam_inc)%S)
    then Ok [(zero, x2_pi)]
    else if (upper && (half_fov + (s_pi - cam_inc) <? s_pi - phi)%S)
            || (negb upper && (half_fov + cam_inc <? phi)%S)
    then Ok [(zero, zero)]
    else
      let offset := s_atan2 (v1 cam) (v0 cam) in
      let sin_offset := s_sin offset in
      let cos_offset := s_cos offset in
      let r_x := (v0 cam * cos_offset + v1 cam * sin_offset)%S in
      let z := (- s_cos phi)%S in
      let a := (s_of_Z 1 - z * z)%S in
      let x := ((cos_half_fov - v2 cam * z) / r_x)%S in
      let y_disc := (a - x * x)%S in
      if (y_disc <? zero)%S then Ok [(zero, zero)]
      else
        let y := s_sqrt y_disc in
        let t1 := (offset + s_atan2 (- y) x)%S in
        let t2 := (offset + s_atan2 y x)%S in
        Ok [(if (zero <? t1)%S then t1 else (t1 + x2_pi)%S,
             if (zero <? t2)%S then t2 else (t2 + x2_pi)%S)].

Definition lookup_radial (luts : Luts) (Hoc : mat4) (fov : Scalar)
  : result (Mesh Scalar * list (Z * Z)) :=
  let cam : vec3 := (Hoc 0%nat 0%nat, Hoc 1%nat 0%nat, Hoc 2%nat 0%nat) in
  let height := Hoc 2%nat 3%nat in
  lookup luts height (theta_limits_radial cam fov).

(** [struct Lens].  [type] is the value of the enumeration: 0 for
    [EQUIRECTANGULAR], 1 for [RADIAL]; the two members of the union
    are kept apart, each case of the lookup reads its own. *)
Record Lens : Type := mkLens {
  lens_type : Z;
  dimensions : Z * Z;
  radial_fov : Scalar;
  radial_pixels_per_radian : Scalar;
  equirectangular_fov : Scalar * Scalar;
  equirectangular_focal_length_pixels : Scalar
}.

Definition unknown_lens_type : string := "Unknown lens type".

(** [lookup(Hoc, lens)]: the [switch] on the type of the lens. *)
Definition lookup_lens (luts : Luts) (Hoc : mat4) (lens : Lens)
  : result (Mesh Scalar * list (Z * Z)) :=
  if lens_type lens =? 0 then
    lookup_equirectangular s_sin s_cos s_tan s_sqrt s_atan2 luts Hoc
      (equirectangular_fov lens)
  else if lens_type lens =? 1 then lookup_radial luts Hoc (radial_fov lens)
  else Fault (RuntimeError unknown_lens_type).

End Radial.

Arguments Lens Scalar : clear implicits.

(** ** The indices [classify] hands to the device *)

(** Conversion to [ptrdiff_t] (64 bits, two's complement). *)
Definition i64 (z : Z) : Z := (z + 2 ^ 63) mod 2 ^ 64 - 2 ^ 63.

(** [points += range.second - range.first] over the ranges: the sum is
    formed in [size_t] and stored in the [int] [points]. *)
Definition count_points (ranges : list (Z * Z)) : Z :=
  fold_left (fun points range => i32 (u64 (u64 points + u64 (snd range - fst range))))
    ranges 0.

(** [indices.resize(points)] on the empty vector of [cl_int]; [None]
    is the [std::length_error] thrown for a negative [points], which
    converts to a size above [max_size()]. *)
Definition resize (points : Z) : option (list Z) :=
  if points <? 0 then None else Some (repeat 0 (Z.to_nat points)).

(** [std::iota(it, n, value)] for [n] at [count] elements after [it]:
    a write after the end of the vector is undefined behaviour. *)
Fixpoint iota (count : nat) (indices : list Z) (it value : Z) : result (list Z) :=
  match count with
  | O => Ok indices
  | Datatypes.S count' =>
      if (0 <=? it) && (it <? len indices)
      then iota count' (<[Z.to_nat it := i32 value]> indices) (it + 1) (u64 (value + 1))
      else Fault OutOfBounds
  end.

(** The loop that fills the indices.  [std::next] takes the length of
    the range as a [ptrdiff_t]; when it is negative [n] is before [it]
    and [std::iota] runs over the end of the vector. *)
Fixpoint fill_indices (ranges : list (Z * Z)) (indices : list Z) (it : Z)
  : result (list Z) :=
  match ranges with
  | [] => Ok indices
  | range :: rest =>
      let d := i64 (u64 (snd range - fst range)) in
      if d <? 0 then Fault OutOfBounds
      else
        indices' ← iota (Z.to_nat d) indices it (fst range);
        fill_indices rest indices' (it + d)
  end.

(** The vector [indices] of [classify] for the ranges of the lookup;
    the OpenCL calls around it are not embedded. *)
Definition classify_indices (ranges : list (Z * Z)) : option (result (list Z)) :=
  indices ← resize (count_points ranges);
  Some (fill_indices ranges indices 0).

(** The node indices of the ranges, in order. *)
Definition range_nodes (ranges : list (Z * Z)) : list Z :=
  flat_map (fun range => seqZ (fst range) (snd range - fst range)) ranges.

(** The number of nodes of the ranges. *)
Definition range_total (ranges : list (Z * Z)) : Z :=
  fold_right (fun range acc => snd range - fst range + acc) 0 ranges.

(** ** The constructor: sampling of phi and the loop over the heights *)

Section Constructor.

Context {Scalar : Type} `{ScalarOps Scalar}.

(** [shape.phi] and [shape.theta] of the shape the mesh is generated
    for, and [std::isnan]. *)
Variables shape_phi shape_theta : Scalar -> Scalar -> Scalar.
Variable s_isnan : Scalar -> bool.

(** [std::max(a, b)] and [std::min(a, b)]. *)
Definition s_max_of (a b : Scalar) : Scalar := if (a <? b)%S then b else a.
Definition s_min_of (a b : Scalar) : Scalar := if (b <? a)%S then b else a.

(** [std::max(shape.theta(phi, h), min_angular_res)]. *)
Definition row_theta (min_angular_res h phi : Scalar) : Scalar :=
  s_max_of (shape_theta phi h) min_angular_res.

(** [size_t(std::ceil(Scalar(2.0) * M_PI / theta))]. *)
Definition row_steps (theta : Scalar) : Z :=
  u64 (s_to_Z (s_ceil (s_of_Z 2 * s_pi / theta)%S)).

(** The body the two loops over phi share: the row of [phi] is
    recorded unless its theta is not a number. *)
Definition sample (min_angular_res h phi : Scalar) (phis : list (Scalar * Z))
  : list (Scalar * Z) :=
  let theta := row_theta min_angular_res h phi in
  if negb (s_isnan theta) then phis ++ [(phi, row_steps theta)] else phis.

(** [for (phi = ...; phi < M_PI_2;)]: the loop from straight down up to
    the horizon.  The loops of the constructor are bounded by nothing
    but their conditions; [fuel] bounds the number of iterations, and
    [None] tells that it did not suffice. *)
Fixpoint sample_below (fuel : nat) (min_angular_res h phi : Scalar)
    (phis : list (Scalar * Z)) : option (list (Scalar * Z)) :=
  if (phi <? s_pi_2)%S then
    match fuel with
    | O => None
    | Datatypes.S fuel' =>
        sample_below fuel' min_angular_res h
          (s_max_of (phi + min_angular_res)%S (shape_phi phi h))
          (sample min_angular_res h phi phis)
    end
  else Some phis.

(** [for (phi = ...; phi > M_PI_2;)]: the loop from straight up down to
    the horizon. *)
Fixpoint sample_above (fuel : nat) (min_angular_res h phi : Scalar)
    (phis : list (Scalar * Z)) : option (list (Scalar * Z)) :=
  if (s_pi_2 <? phi)%S then
    match fuel with
    | O => None
    | Datatypes.S fuel' =>
        sample_above fuel' min_angular_res h
          (s_min_of (phi - min_angular_res)%S (shape_phi phi h))
          (sample min_angular_res h phi phis)
    end
  else Some phis.

(** The vector [phis] after the two loops. *)
Definition sample_phis (fuel : nat) (min_angular_res h : Scalar)
  : option (list (Scalar * Z)) :=
  phis ← sample_below fuel min_angular_res h (shape_phi (s_of_Z 0) h * s_half)%S [];
  sample_above fuel min_angular_res h ((s_pi + shape_phi s_pi h) * s_half)%S phis.

(** [operator<] of [std::pair<Scalar, size_t>]. *)
Definition pair_ltb (a b : Scalar * Z) : bool :=
  (fst a <? fst b)%S || (negb (fst b <? fst a)%S && (snd a <? snd b)).

(** [std::sort(phis.begin(), phis.end())]. *)
Fixpoint sort_phis_insert (x : Scalar * Z) (l : list (Scalar * Z)) : list (Scalar * Z) :=
  match l with
  | [] => [x]
  | y :: l' => if pair_ltb y x then y :: sort_phis_insert x l' else x :: l
  end.

Definition sort_phis (l : list (Scalar * Z)) : list (Scalar * Z) :=
  fold_right sort_phis_insert [] l.

(** The mesh of one height: sampling, sorting, generation and
    stitching. *)
Definition mesh_of_height (fuel : nat) (min_angular_res h : Scalar)
  : option (result (Mesh Scalar)) :=
  phis ← sample_phis fuel min_angular_res h;
  Some (build (sort_phis phis)).

(** [luts.insert(std::make_pair(h, mesh))]: a key equivalent to [h]
    keeps its mesh. *)
Fixpoint map_insert (luts : Luts) (h : Scalar) (mesh : Mesh Scalar) : Luts :=
  match luts with
  | [] => [(h, mesh)]
  | (key, value) :: rest =>
      if (key <? h)%S then (key, value) :: map_insert rest h mesh
      else if (h <? key)%S then (h, mesh) :: luts
      else luts
  end.

(** [for (h = min_height; h < max_height; h += (max_height - min_height)
    / height_resolution)], from the height [h] and the map [luts]
    on. *)
Fixpoint heights (fuel : nat) (min_angular_res min_height max_height : Scalar)
    (height_resolution : Z) (h : Scalar) (luts : Luts) : option (result Luts) :=
  if (h <? max_height)%S then
    match fuel with
    | O => None
    | Datatypes.S fuel' =>
        match mesh_of_height fuel' min_angular_res h with
        | None => None
        | Some (Fault f) => Some (Fault f)
        | Some (Ok mesh) =>
            heights fuel' min_angular_res min_height max_height height_resolution
              (h + (max_height - min_height) / s_of_Z height_resolution)%S
              (map_insert luts h mesh)
        end
    end
  else Some (Ok luts).

(** The constructor, after [setup_opencl] and without the upload of
    the tables to the device: the map [luts] it leaves. *)
Definition VisualMesh (fuel : nat) (min_height max_height : Scalar)
    (height_resolution : Z) (min_angular_res : Scalar) : option (result Luts) :=
  heights fuel min_angular_res min_height max_height height_resolution min_height [].

End Constructor.

(** ** The output tensors of the op *)

Arguments dims {A} t.
Arguments flat {A} t.

Section Outputs.

Context {Scalar : Type} `{ScalarOps Scalar}.

(** Conversion of an [int] or [unsigned int] to the integer type [U]
    of the op, [int32] or [int64]. *)
Variable to_U : Z -> Z.

(** [t(i, j) = v] on a matrix.  The tensor map computes the position
    [i * cols + j] in the row-major buffer and does not check [j]
    against the number of columns; a write outside the buffer is
    undefined behaviour. *)
Definition matrix_set {A} (t : Tensor A) (i j : Z) (v : A) : result (Tensor A) :=
  let index := i * dim_size t 1 + j in
  if (0 <=? index) && (index <? len (flat t))
  then Ok (mkTensor A (dims t) (<[Z.to_nat index := v]> (flat t)))
  else Fault OutOfBounds.

(** [allocate_output] for a matrix: the buffer is not initialised by
    the source, its elements are [fill] here; an allocation that fails
    is not modelled. *)
Definition allocate_matrix {A} (rows_ cols_ : Z) (fill : A) : Tensor A :=
  mkTensor A [rows_; cols_] (repeat fill (Z.to_nat (rows_ * cols_))).

(** The copy of the pixel coordinates, [x, y] to [y, x]. *)
Definition output_coordinates (px : list (Scalar * Scalar)) : result (Tensor Scalar) :=
  for_range 0 (len px)
    (fun i c =>
       p ← at_index px i;
       c1 ← matrix_set c i 0 (snd p);
       matrix_set c1 i 1 (fst p))
    (allocate_matrix (len px) 2 (s_of_Z 0)).

(** The copy of the neighbourhood graph.  The number of columns is
    the size of [neighbourhood.front()], and [front()] of an empty
    vector is undefined behaviour; the counters [i] and [j] are
    [unsigned int], the loops are those of the source for fewer than
    [2 ^ 32] nodes. *)
Definition output_neighbours (neighbourhood : list (list Z)) : result (Tensor Z) :=
  front ← match neighbourhood with
          | [] => Fault OutOfBounds
          | m :: _ => Ok m
          end;
  for_range 0 (len neighbourhood)
    (fun i n =>
       m ← at_index neighbourhood i;
       n1 ← matrix_set n i 0 (to_U i);
       for_range 0 (len m)
         (fun j n => x ← at_index m j; matrix_set n i (j + 1) (to_U x))
         n1)
    (allocate_matrix (len neighbourhood) (len front) 0).

(** The two outputs of the op for a projected mesh. *)
Definition outputs (projected : ProjectedMesh Scalar) : result (Tensor Scalar * Tensor Z) :=
  coordinates ← output_coordinates (pixel_coordinates projected);
  neighbours ← output_neighbours (neighbourhood projected);
  Ok (coordinates, neighbours).

End Outputs.

(** ** IEEE 754 binary64 arithmetic *)

(** [Scalar = double], the second type the op is registered for.  A
    double is a [spec_float] of the Standard Library, with 53 bits of
    precision and rounding to the nearest value, ties to even: the
    arithmetic of the source where it is compiled to IEEE 754
    operations on doubles, one operation at a time. *)
Module Binary64.

Definition prec : Z := 53.
Definition emax : Z := 1024.

Definition double : Type := SpecFloat.spec_float.

(** [m * 2 ^ e], rounded. *)
Definition of_scaled (m e : Z) : double :=
  SpecFloat.binary_normalize prec emax m e false.

(** Conversion of an integer to [double]. *)
Definition of_Z (z : Z) : double := of_scaled z 0.

(** The largest integer that is not above [(-1) ^ s * m * 2 ^ e], and
    the smallest integer that is not below it. *)
Definition floor_Z (s : bool) (m : positive) (e : Z) : Z :=
  Z.shiftl (if s then Zneg m else Zpos m) e.

Definition ceil_Z (s : bool) (m : positive) (e : Z) : Z :=
  - Z.shiftl (if s then Zpos m else Zneg m) e.

(** [std::floor] and [std::ceil]: a double with an exponent that is
    not negative is an integer already, and the integer part of another
    one has fewer than 53 bits. *)
Definition floor (x : double) : double :=
  match x with
  | SpecFloat.S754_finite s m e =>
      if e <? 0 then SpecFloat.binary_normalize prec emax (floor_Z s m e) 0 s else x
  | _ => x
  end.

Definition ceil (x : double) : double :=
  match x with
  | SpecFloat.S754_finite s m e =>
      if e <? 0 then SpecFloat.binary_normalize prec emax (ceil_Z s m e) 0 s else x
  | _ => x
  end.

(** Conversion to an integer type: the fraction is dropped.  The
    conversion of an infinity or of a NaN is undefined behaviour in the
    source; it is 0 here. *)
Definition to_Z (x : double) : Z :=
  match x with
  | SpecFloat.S754_finite s m e => if s then ceil_Z s m e else floor_Z s m e
  | _ => 0
  end.

End Binary64.

(** [M_PI] is 884279719003555 / 2 ^ 48, [Scalar(0.5)] is exact and
    [s_max] is the largest finite double. *)
#[global] Instance double_ops : ScalarOps Binary64.double := {|
  s_of_Z := Binary64.of_Z;
  s_half := Binary64.of_scaled 1 (-1);
  s_pi := Binary64.of_scaled 884279719003555 (-48);
  s_pi_2 := Binary64.of_scaled 884279719003555 (-49);
  s_max := Binary64.of_scaled (2 ^ 53 - 1) 971;
  s_add := SpecFloat.SFadd Binary64.prec Binary64.emax;
  s_sub := SpecFloat.SFsub Binary64.prec Binary64.emax;
  s_mul := SpecFloat.SFmul Binary64.prec Binary64.emax;
  s_div := SpecFloat.SFdiv Binary64.prec Binary64.emax;
  s_neg := SpecFloat.SFopp;
  s_abs := SpecFloat.SFabs;
  s_ltb := SpecFloat.SFltb;
  s_eqb := SpecFloat.SFeqb;
  s_floor := Binary64.floor;
  s_ceil := Binary64.ceil;
  s_to_Z := Binary64.to_Z
|}.

(** Row sizes as a list of (phi, steps) of doubles: row [k] gets phi
    [k]. *)
Definition double_rows (sizes : list Z) : list (Binary64.double * Z) :=
  imap (fun k n => (Binary64.of_Z (Z.of_nat k), n)) sizes.

(** The mesh of three rows of four nodes each. *)
Definition three_rows_of_four_double : Mesh Binary64.double :=
  Eval vm_compute in
    match build (double_rows [4; 4; 4]) with
    | Ok m => m
    | Fault _ => mkMesh [] []
    end.

(** The mesh of two rows of 58 nodes each, tabulated for the height 1,
    and a [theta_limits] that answers the half turn from 0 to [M_PI]
    for every row. *)
Definition two_rows_of_58 : Mesh Binary64.double :=
  Eval vm_compute in
    match build (double_rows [58; 58]) with
    | Ok m => m
    | Fault _ => mkMesh [] []
    end.

Definition luts_of_58 : Luts (Scalar := Binary64.double) :=
  [(Binary64.of_Z 1, two_rows_of_58)].

Definition half_turn : ThetaLimits (Scalar := Binary64.double) :=
  fun phi => Ok [(Binary64.of_Z 0, s_pi)].

(** ** Exact rational arithmetic *)

Definition Q_ltb (a b : Q) : bool := negb (Qle_bool b a).

(** [M_PI] is the double 3.141592653589793, a dyadic rational, and
    [s_max] the largest finite [float].  No operation rounds here: this
    is the arithmetic of the source where every value it computes is a
    value of [Scalar], as the positions k/4 and the heights of the
    examples are, and not elsewhere. *)
#[global] Instance Q_ops : ScalarOps Q := {|
  s_of_Z := inject_Z;
  s_half := 1 # 2;
  s_pi := 884279719003555 # 281474976710656;
  s_pi_2 := 884279719003555 # 562949953421312;
  s_max := inject_Z (2 ^ 128 - 2 ^ 104);
  s_add := Qplus;
  s_sub := Qminus;
  s_mul := Qmult;
  s_div := Qdiv;
  s_neg := Qopp;
  s_abs := Qabs;
  s_ltb := Q_ltb;
  s_eqb := Qeq_bool;
  s_floor := fun q => inject_Z (Qfloor q);
  s_ceil := fun q => inject_Z (Qceiling q);
  s_to_Z := fun q => Z.quot (Qnum q) (Zpos (Qden q))
|}.

(** ** Real arithmetic *)

Definition R_ltb (a b : R) : bool := if Rlt_dec a b then true else false.

Definition R_eqb (a b : R) : bool := if Req_dec_T a b then true else false.

Definition R_floor (x : R) : Z := Int_part x.

Definition R_ceil (x : R) : Z := - Int_part (- x).

Definition R_trunc (x : R) : Z := if Rle_dec 0 x then R_floor x else R_ceil x.

(** The code over the real numbers, with the real sine and cosine. *)
#[global] Instance R_ops : ScalarOps R := {|
  s_of_Z := IZR;
  s_half := (/ 2)%R;
  s_pi := PI;
  s_pi_2 := (PI / 2)%R;
  s_max := IZR (2 ^ 128 - 2 ^ 104);
  s_add := Rplus;
  s_sub := Rminus;
  s_mul := Rmult;
  s_div := Rdiv;
  s_neg := Ropp;
  s_abs := Rabs;
  s_ltb := R_ltb;
  s_eqb := R_eqb;
  s_floor := fun x => IZR (R_floor x);
  s_ceil := fun x => IZR (R_ceil x);
  s_to_Z := R_trunc
|}.

(** A frustum and a mesh of two rows for the examples of the lookup. *)
Definition unit_frustum : Frustum (Scalar := R) :=
  mkFrustum [] [] [] (0%R, 0%R, (-1)%R).

Definition two_rows : Mesh R :=
  mkMesh [] [mkRow 0%R 0 4; mkRow 1%R 4 8].

(** A [theta_limits] that finds one intersection on the row of phi 0
    and none on the other rows. *)
Definition one_intersection_at_0 : ThetaLimits (Scalar := R) :=
  fun phi =>
    classify_limits sin cos unit_frustum phi
      (if R_eqb phi 0 then [1%R] else []) 0.

(** Row sizes as a list of (phi, steps): row [k] gets phi [k]. *)
Definition row_sizes (sizes : list Z) : list (Q * Z) :=
  imap (fun k n => (inject_Z (Z.of_nat k), n)) sizes.

(** The mesh of three rows of four nodes each. *)
Definition three_rows_of_four : Mesh Q :=
  Eval vm_compute in
    match build (row_sizes [4; 4; 4]) with
    | Ok m => m
    | Fault _ => mkMesh [] []
    end.

(** An example shape for the cache: the intersection count is
    inversely proportional to the height, [k(h_0, h_1) = h_0 / h_1]. *)
Definition ratio_k (h_0 h_1 : Q) : Q := (h_0 / h_1)%Q.

(** A request to [get_mesh]. *)
Record Request : Type := mkRequest {
  req_height : Q;
  req_n_intersections : Q;
  req_tolerance : Q;
  req_cached_meshes : Z;
  req_max_distance : Q
}.

(** Successive calls of [get_mesh] on one cache, for the shape whose
    [k] is [shape_k]: the final cache and the handles returned, in
    order. *)
Fixpoint get_meshes (shape_k : Q -> Q -> Q) (c : Cache Q) (reqs : list Request)
  : result (Cache Q * list (MeshPtr Q)) :=
  match reqs with
  | [] => Ok (c, [])
  | r :: rest =>
      '(c1, m) ← get_mesh shape_k c (req_height r) (req_n_intersections r)
                   (req_tolerance r) (req_cached_meshes r) (req_max_distance r);
      '(c2, ms) ← get_meshes shape_k c1 rest;
      Ok (c2, m :: ms)
  end.

Definition empty_cache : Cache Q := mkCache [] 0%nat.

(** The mesh at the address [ptr], built for the height [h] and the
    maximum distance [d]. *)
Definition cached (ptr : nat) (h d : Q) : MeshPtr Q := mkMeshPtr ptr h d.

(** A request for 4 intersections with a tolerance of 1/2. *)
Definition request (h d : Q) (capacity : Z) : Request :=
  mkRequest h 4%Q (1 # 2)%Q capacity d.

(** ** Examples in exact arithmetic *)

(** Rational stand-ins for the functions of [<cmath>], to run the
    lookups on examples; the properties of the lookups are proved for
    all functions. *)
Definition q_sin (x : Q) : Q := (x - x * x * x / 6)%Q.
Definition q_cos (x : Q) : Q := (1 - x * x / 2)%Q.
Definition q_tan (x : Q) : Q := (x + x * x * x / 3)%Q.
Definition q_sqrt (x : Q) : Q := ((x + 1) / 2)%Q.
Definition q_acos (x : Q) : Q := (s_pi_2 - x)%Q.
Definition q_atan2 (y x : Q) : Q := (y / (1 + x * x))%Q.

(** An example shape: the next row is one radian further from the
    pole the sampling started at, and every row has nodes one radian
    apart. *)
Definition step_phi (phi h : Q) : Q :=
  if Q_ltb phi s_pi_2 then (phi + 1)%Q else (phi - 1)%Q.
Definition unit_theta (phi h : Q) : Q := 1%Q.
Definition never_nan (x : Q) : bool := false.

(** The mesh built for the example shape at the height 1 with a
    [min_angular_res] of 1/2, and the map the constructor leaves for
    the heights from 1 to 2 with a [height_resolution] of 1. *)
Definition example_mesh : Mesh Q :=
  Eval vm_compute in
    match mesh_of_height step_phi unit_theta never_nan 19 (1 # 2)%Q 1%Q with
    | Some (Ok m) => m
    | _ => mkMesh [] []
    end.

Definition example_luts : Luts (Scalar := Q) := [(1%Q, example_mesh)].

(** A camera at the height 1 that looks straight down. *)
Definition looking_down : mat4 (Scalar := Q) :=
  fun i j =>
    match i, j with
    | 0%nat, 2%nat => 1%Q
    | 1%nat, 1%nat => 1%Q
    | 2%nat, 0%nat => (-1)%Q
    | 2%nat, 3%nat => 1%Q
    | _, _ => 0%Q
    end.

(** A radial lens with a field of view of one radian. *)
Definition radial_lens : Lens Q :=
  mkLens 1 (640, 480) 1%Q 1%Q (1%Q, 1%Q) 1%Q.

(** Inputs of the op that ask for a sphere; the projection is left
    out of the example. *)
Definition sphere_inputs : Inputs Q :=
  mkInputs (mkTensor Z [2] [480; 640])
    (mkTensor string [] ["EQUISOLID"%string])
    (mkTensor Q [] [1%Q]) (mkTensor Q [] [1%Q]) (mkTensor Q [2] [0%Q; 0%Q])
    (mkTensor Q [3; 3] [1%Q; 0%Q; 0%Q; 0%Q; 1%Q; 0%Q; 0%Q; 0%Q; 1%Q])
    (mkTensor Q [] [1%Q]) (mkTensor Q [] [4%Q]) (mkTensor Z [] [2])
    (mkTensor Q [] [(1 # 2)%Q]) (mkTensor Q [] [10%Q])
    (mkTensor string [] ["SPHERE"%string]) (mkTensor Q [] [1%Q]).

Definition no_projection (mesh : MeshPtr Q) (Hoc : list (list Q)) (lens : OpLens Q)
  : ProjectedMesh Q :=
  mkProjected [] [].


(** * Properties *)

(** ** Machine integers *)

Lemma u64_small z : 0 <= z < 2 ^ 64 -> u64 z = z.
Proof. intros Hz. unfold u64. now apply Z.mod_small. Qed.

Lemma i32_small z : - 2 ^ 31 <= z < 2 ^ 31 -> i32 z = z.
Proof. intros Hz. unfold i32. rewrite Z.mod_small; lia. Qed.

Lemma u64_range z : 0 <= u64 z < 2 ^ 64.
Proof. unfold u64. apply Z.mod_pos_bound. lia. Qed.

(** A difference of two [size_t] stored in an [int]: the two
    wrap-arounds cancel when the difference fits. *)
Lemma i32_u64 z : - 2 ^ 31 <= z < 2 ^ 31 -> i32 (u64 z) = z.
Proof.
  intros Hz. unfold i32, u64.
  pose proof (Z.div_mod z (2 ^ 64) ltac:(lia)) as Hdm.
  replace (z mod 2 ^ 64 + 2 ^ 31)
    with (z + 2 ^ 31 + (- (z / 2 ^ 64) * 2 ^ 32) * 2 ^ 32) by lia.
  rewrite Z.mod_add by lia.
  rewrite Z.mod_small; lia.
Qed.

(** ** Loops *)

Arguments for_range : simpl never.

Section LoopFacts.

Context {St : Type}.
Implicit Types (body : Z -> St -> result St) (s : St).

Lemma for_range_empty lo hi body s : hi <= lo -> for_range lo hi body s = Ok s.
Proof.
  intros Hle. unfold for_range.
  replace (Z.to_nat (hi - lo)) with 0%nat by lia. reflexivity.
Qed.

Lemma for_range_step lo hi body s :
  lo < hi ->
  for_range lo hi body s =
    match body lo s with
    | Ok s' => for_range (lo + 1) hi body s'
    | Fault f => Fault f
    end.
Proof.
  intros Hlt. unfold for_range.
  replace (Z.to_nat (hi - lo)) with (Datatypes.S (Z.to_nat (hi - (lo + 1)))) by lia.
  reflexivity.
Qed.

(** A fault in the first iteration is the outcome of the loop. *)
Lemma for_range_first_fault lo hi body s f :
  lo < hi -> body lo s = Fault f -> for_range lo hi body s = Fault f.
Proof. intros Hlt Hf. rewrite for_range_step by exact Hlt. now rewrite Hf. Qed.

End LoopFacts.

(** ** The node table *)

Section TableFacts.

Lemma at_index_ok {A} (v : list A) (i : Z) (x : A) :
  at_index v i = Ok x <-> 0 <= i < len v /\ v !! Z.to_nat i = Some x.
Proof.
  unfold at_index.
  destruct (Z.leb_spec 0 i), (Z.ltb_spec i (len v)); cbn;
    try (split; [discriminate | lia]).
  destruct (v !! Z.to_nat i) as [y|] eqn:Hy.
  - split; [intros [= ->]; auto | intros [_ [= ->]]; reflexivity].
  - split; [discriminate | intros [_ [=]]].
Qed.

Lemma at_index_total {A} (v : list A) (i : Z) :
  0 <= i < len v -> exists x, at_index v i = Ok x.
Proof.
  intros Hi. unfold len in Hi.
  destruct (lookup_lt_is_Some_2 v (Z.to_nat i)) as [x Hx]; [lia|].
  exists x. apply at_index_ok. unfold len. auto.
Qed.

Lemma length_set_nb lut i k v : length (set_nb lut i k v) = length lut.
Proof. apply length_alter. Qed.

Lemma nb_set_neighbour_ne k v n k' : k <> k' -> nb (set_neighbour k v n) k' = nb n k'.
Proof. intros Hne. unfold nb, set_neighbour. cbn. now rewrite list_lookup_insert_ne. Qed.

Lemma nb_set_neighbour_eq k v n :
  (k < length (neighbours n))%nat -> nb (set_neighbour k v n) k = v.
Proof. intros Hlt. unfold nb, set_neighbour. cbn. now rewrite list_lookup_insert_eq. Qed.

Lemma length_set_neighbour k v n :
  length (neighbours (set_neighbour k v n)) = length (neighbours n).
Proof. apply length_insert. Qed.

Lemma nb_set_pair_ne k p n k' : k <> k' -> (k + 1)%nat <> k' -> nb (set_pair k p n) k' = nb n k'.
Proof. intros H1 H2. unfold set_pair. now rewrite !nb_set_neighbour_ne. Qed.

Lemma nb_set_pair k p n :
  (k + 1 < length (neighbours n))%nat ->
  nb (set_pair k p n) k = fst p /\ nb (set_pair k p n) (k + 1) = snd p.
Proof.
  intros Hlt. unfold set_pair. split.
  - rewrite nb_set_neighbour_ne by lia. apply nb_set_neighbour_eq. lia.
  - apply nb_set_neighbour_eq. rewrite length_set_neighbour. lia.
Qed.

Lemma length_set_pair k p n :
  length (neighbours (set_pair k p n)) = length (neighbours n).
Proof. unfold set_pair. now rewrite !length_set_neighbour. Qed.

(** Tables with the same sides *)

Lemma same_sides_refl lut : same_sides lut lut.
Proof. split; auto. Qed.

Lemma same_sides_trans l1 l2 l3 : same_sides l1 l2 -> same_sides l2 l3 -> same_sides l1 l3.
Proof. intros [Hl1 Hs1] [Hl2 Hs2]. split; [congruence|]. intros o k Hk. rewrite Hs2, Hs1; auto. Qed.

Lemma nbr_alter (f : Node -> Node) lut i o k :
  (forall n, nb (f n) k = nb n k) -> nbr (alter f i lut) o k = nbr lut o k.
Proof.
  intros Hf. unfold nbr. rewrite list_lookup_alter.
  destruct (decide (i = Z.to_nat o)) as [->|]; [|reflexivity].
  destruct (lut !! Z.to_nat o); cbn; auto.
Qed.

Lemma same_sides_alter (f : Node -> Node) lut i :
  (forall n, nb (f n) 2 = nb n 2) -> (forall n, nb (f n) 3 = nb n 3) ->
  same_sides lut (alter f i lut).
Proof.
  intros H2 H3. split; [apply length_alter|].
  intros o k [-> | ->]; now apply nbr_alter.
Qed.

End TableFacts.

(** ** Loops over the node table *)

Section LoopInvariants.

Context {St : Type}.

Lemma for_range_inv (P : Z -> St -> Prop) lo hi (body : Z -> St -> result St) s s' :
  lo <= hi -> P lo s ->
  (forall j t t', lo <= j < hi -> P j t -> body j t = Ok t' -> P (j + 1) t') ->
  for_range lo hi body s = Ok s' -> P hi s'.
Proof.
  intros Hle. remember (Z.to_nat (hi - lo)) as n eqn:Hn.
  revert lo s Hle Hn. induction n as [|n IH]; intros lo s Hle Hn HP Hstep Hrun.
  - assert (lo = hi) as -> by lia.
    rewrite for_range_empty in Hrun by lia. now injection Hrun as <-.
  - rewrite for_range_step in Hrun by lia.
    destruct (body lo s) as [t|f] eqn:Hbody; [|discriminate].
    apply (IH (lo + 1) t); try lia.
    + apply (Hstep lo s t); auto; lia.
    + intros j u u' Hj. apply Hstep. lia.
    + exact Hrun.
Qed.

End LoopInvariants.

Section LinkFacts.

Context {Scalar : Type} `{ScalarOps Scalar}.

Lemma link_pair_sides lut lut' i pos start size :
  same_sides lut lut' -> link_pair lut' i pos start size = link_pair lut i pos start size.
Proof.
  intros [_ Hs]. unfold link_pair.
  rewrite Hs; [reflexivity|]. destruct (link_left pos); auto.
Qed.

Lemma row_link_sides lut lut' row target i :
  same_sides lut lut' -> row_link lut' row target i = row_link lut row target i.
Proof. apply link_pair_sides. Qed.

Lemma link_ok lut i pos start size off lut' :
  link lut i pos start size off = Ok lut' ->
  0 <= i < len lut /\ 0 <= link_o1 pos start size < len lut
  /\ lut' = alter (set_pair off (link_pair lut i pos start size)) (Z.to_nat i) lut.
Proof.
  unfold link.
  destruct (at_index lut i) as [n|] eqn:Hi; [|discriminate]. cbn.
  destruct (at_index lut (link_o1 pos start size)) as [n1|] eqn:Ho; [|discriminate]. cbn.
  apply at_index_ok in Hi as [Hi _]. apply at_index_ok in Ho as [Ho Hn1].
  intros [= <-]. repeat split; try lia.
  unfold set_nb. rewrite list_alter_alter_eq.
  unfold link_pair, nbr. rewrite Hn1. reflexivity.
Qed.

Lemma set_pair_sides off p n k :
  (off = 0 \/ off = 4)%nat -> (k = 2 \/ k = 3)%nat -> nb (set_pair off p n) k = nb n k.
Proof. intros Hoff Hk. apply nb_set_pair_ne; lia. Qed.

(** A loop that alters node [i] in its iteration [i]; [Q i] is what
    iteration [i] establishes besides. *)
Lemma for_range_nodes (F : Z -> Node -> Node) (Q : Z -> Prop) lut0 body lo hi lut lut' :
  0 <= lo ->
  (forall i l l', lo <= i < hi -> same_sides lut0 l -> body i l = Ok l' ->
                  l' = alter (F i) (Z.to_nat i) l /\ Q i) ->
  (forall i n k, (k = 2 \/ k = 3)%nat -> nb (F i n) k = nb n k) ->
  same_sides lut0 lut -> for_range lo hi body lut = Ok lut' ->
  same_sides lut0 lut'
  /\ (forall x : nat, lut' !! x = if decide (lo <= Z.of_nat x < hi)
                                 then F (Z.of_nat x) <$> lut !! x else lut !! x)
  /\ (forall i, lo <= i < hi -> Q i).
Proof.
  intros Hlo Hbody HF Hsides Hrun.
  destruct (Z.le_gt_cases lo hi) as [Hle|Hgt].
  - apply (for_range_inv
             (fun j l => same_sides lut0 l
                         /\ (forall x : nat, l !! x = if decide (lo <= Z.of_nat x < j)
                                                    then F (Z.of_nat x) <$> lut !! x
                                                    else lut !! x)
                         /\ (forall i, lo <= i < j -> Q i))
             lo hi body lut lut'); auto.
    + split; [exact Hsides|]. split; [|lia].
      intros x. case_decide; [lia | reflexivity].
    + intros j l l' Hj (Hs & Hl & HQ) Hb.
      destruct (Hbody j l l' Hj Hs Hb) as [-> HQj]. split; [|split].
      * eapply same_sides_trans; [exact Hs|]. apply same_sides_alter; intros; apply HF; auto.
      * intros x. destruct (decide (Z.to_nat j = x)) as [<-|Hne].
        -- rewrite list_lookup_alter_eq, (Hl (Z.to_nat j)), Z2Nat.id by lia.
           repeat case_decide; try lia. reflexivity.
        -- rewrite list_lookup_alter_ne, (Hl x) by exact Hne.
           repeat case_decide; try lia; reflexivity.
      * intros i Hi. destruct (Z.eq_dec i j) as [->|]; [exact HQj | apply HQ; lia].
  - rewrite for_range_empty in Hrun by lia. injection Hrun as <-.
    split; [exact Hsides|]. split; [|lia].
    intros x. case_decide; [lia | reflexivity].
Qed.

End LinkFacts.

(** ** Rows and generation *)

Section RowFacts.

Context {Scalar : Type} `{ScalarOps Scalar}.
Implicit Types (rws : list (Row Scalar)) (row : Row Scalar).

Lemma chain_app b rws e rws2 e' :
  chain b rws e -> chain e rws2 e' -> chain b (rws ++ rws2) e'.
Proof.
  revert b. induction rws as [|row rws IH]; intros b; cbn.
  - now intros ->.
  - intros (Hb & Hle & Hrest) H2. auto.
Qed.

Lemma chain_le b rws e : chain b rws e -> b <= e.
Proof.
  revert b. induction rws as [|row rws IH]; intros b; cbn.
  - lia.
  - intros (Hb & Hle & Hrest). apply IH in Hrest. lia.
Qed.

Lemma chain_lookup b rws e (r : nat) row :
  chain b rws e -> rws !! r = Some row ->
  b <= row_begin row /\ row_begin row <= row_end row /\ row_end row <= e.
Proof.
  revert b r. induction rws as [|row0 rws IH]; intros b r; cbn; [discriminate|].
  intros (Hb & Hle & Hrest) Hr. destruct r as [|r]; cbn in Hr.
  - injection Hr as <-. apply chain_le in Hrest. lia.
  - destruct (IH _ _ Hrest Hr) as (? & ? & ?). lia.
Qed.

Lemma chain_first b rws e row : chain b rws e -> rws !! 0%nat = Some row -> row_begin row = b.
Proof. destruct rws; cbn; [discriminate|]. now intros (Hb & _) [= <-]. Qed.

Lemma chain_next b rws e (r : nat) row row' :
  chain b rws e -> rws !! r = Some row -> rws !! Datatypes.S r = Some row' ->
  row_end row = row_begin row'.
Proof.
  revert b r. induction rws as [|row0 rws IH]; intros b r; cbn; [discriminate|].
  intros (Hb & Hle & Hrest) Hr Hr'. destruct r as [|r]; cbn in Hr, Hr'.
  - injection Hr as <-. symmetry. eapply chain_first; eauto.
  - eapply IH; eauto.
Qed.

Lemma chain_order b rws e (r r' : nat) row row' :
  chain b rws e -> rws !! r = Some row -> rws !! r' = Some row' -> (r < r')%nat ->
  row_end row <= row_begin row'.
Proof.
  revert b r r'. induction rws as [|row0 rws IH]; intros b r r'; cbn; [discriminate|].
  intros (Hb & Hle & Hrest) Hr Hr' Hlt. destruct r' as [|r']; [lia|]. cbn in Hr'.
  destruct r as [|r]; cbn in Hr.
  - injection Hr as <-. eapply chain_lookup in Hr'; eauto. lia.
  - eapply IH; eauto. lia.
Qed.

Lemma chain_last b rws e row :
  chain b rws e -> rws !! pred (length rws) = Some row -> row_end row = e.
Proof.
  revert b. induction rws as [|row0 rws IH]; intros b; cbn; [discriminate|].
  intros (Hb & Hle & Hrest). destruct rws as [|row1 rws].
  - cbn in *. intros [= <-]. congruence.
  - cbn [length pred]. intros Hl. eapply IH; eauto.
Qed.

(** Distinct rows share no node. *)
Lemma chain_disjoint b rws e (r r' : nat) row row' i :
  chain b rws e -> rws !! r = Some row -> rws !! r' = Some row' ->
  row_begin row <= i < row_end row -> row_begin row' <= i < row_end row' -> r = r'.
Proof.
  intros Hc Hr Hr' Hi Hi'.
  destruct (Nat.lt_trichotomy r r') as [Hlt|[Heq|Hgt]]; [|exact Heq|].
  - pose proof (chain_order _ _ _ _ _ _ _ Hc Hr Hr' Hlt). lia.
  - pose proof (chain_order _ _ _ _ _ _ _ Hc Hr' Hr Hgt). lia.
Qed.

(** Generation *)

Lemma push_row_length n steps i lut :
  length (push_row n steps i lut) = (length lut + n)%nat.
Proof.
  revert i lut. induction n as [|n IH]; intros i lut; cbn; [lia|].
  rewrite IH, length_app. cbn. lia.
Qed.

Lemma push_row_lookup n steps i lut (x : nat) :
  push_row n steps i lut !! x =
    if decide (x < length lut)%nat then lut !! x
    else if decide (x < length lut + n)%nat
         then Some (row_node steps (i + Z.of_nat (x - length lut)))
         else None.
Proof.
  revert i lut. induction n as [|n IH]; intros i lut; cbn [push_row].
  - repeat case_decide; try lia; try reflexivity. apply lookup_ge_None. lia.
  - rewrite IH, length_app. cbn [length].
    repeat case_decide; try lia.
    + now rewrite lookup_app_l by lia.
    + rewrite lookup_app_r by lia.
      replace (x - length lut)%nat with 0%nat by lia. cbn. now rewrite Z.add_0_r.
    + f_equal. f_equal. lia.
    + reflexivity.
Qed.

Lemma total_cons (p : Scalar * Z) phis : total (p :: phis) = snd p + total phis.
Proof. reflexivity. Qed.

Lemma total_nonneg (phis : list (Scalar * Z)) :
  Forall (fun p => 0 <= snd p) phis -> 0 <= total phis.
Proof.
  induction 1 as [|p phis Hp _ IH]; [reflexivity|]. rewrite total_cons. lia.
Qed.

Lemma generate_inv (phis : list (Scalar * Z)) :
  forall lut rws lut' rws',
    Forall (fun p => 0 <= snd p) phis ->
    len lut + total phis < 2 ^ 64 ->
    chain 0 rws (len lut) -> nodes_ok lut rws ->
    generate phis lut rws = (lut', rws') ->
    chain 0 rws' (len lut') /\ nodes_ok lut' rws'
    /\ len lut' = len lut + total phis
    /\ length rws' = (length rws + length phis)%nat.
Proof.
  induction phis as [|[phi steps] phis IH]; intros lut rws lut' rws' Hpos Htot Hchain Hnodes.
  - cbn. intros [= <- <-]. repeat split; auto; lia.
  - cbn [generate]. inversion Hpos as [|? ? Hsteps Hpos']; subst. cbn in Hsteps.
    rewrite total_cons in Htot. cbn [snd] in Htot.
    pose proof (total_nonneg phis Hpos') as Htotal.
    assert (Hlen : 0 <= len lut) by (unfold len; lia).
    intros Hgen. apply IH in Hgen; auto.
    + destruct Hgen as (Hc & Hn & Hl & Hr). repeat split; auto.
      * rewrite Hl, total_cons. unfold len. rewrite push_row_length. cbn [snd]. lia.
      * rewrite Hr, length_app. cbn. lia.
    + unfold len in *. rewrite push_row_length. lia.
    + eapply chain_app; [exact Hchain|]. cbn.
      rewrite u64_small by lia. unfold len in *. rewrite push_row_length.
      repeat split; lia.
    + intros r row i Hr Hi.
      apply lookup_app_Some in Hr as [Hr | [Hge Hr]].
      * pose proof (chain_lookup _ _ _ _ _ Hchain Hr) as (? & ? & ?).
        rewrite push_row_lookup. unfold len in *.
        case_decide; [|lia]. eapply Hnodes; eauto.
      * apply list_lookup_singleton_Some in Hr as [_ <-]. cbn in Hi |- *.
        rewrite u64_small in Hi |- * by lia.
        rewrite push_row_lookup. unfold len in *.
        repeat case_decide; try lia.
        f_equal. f_equal; lia.
Qed.

End RowFacts.

(** ** Stitching, row by row *)



Section StitchFacts.

Context {Scalar : Type} `{ScalarOps Scalar}.
Implicit Types (rws : list (Row Scalar)) (row prev next : Row Scalar).

Lemma at_index_lookup {A} (v : list A) (r : nat) (x : A) :
  v !! r = Some x -> at_index v (Z.of_nat r) = Ok x.
Proof.
  intros Hr. apply at_index_ok. rewrite Nat2Z.id. split; [|exact Hr].
  apply lookup_lt_Some in Hr. unfold len. lia.
Qed.

Lemma stitched_sides top bottom n k :
  (k = 2 \/ k = 3)%nat -> nb (stitched top bottom n) k = nb n k.
Proof. intros Hk. unfold stitched. rewrite !set_pair_sides; auto. Qed.

Lemma stitched_back_sides top bottom n k :
  (k = 2 \/ k = 3)%nat -> nb (stitched_back top bottom n) k = nb n k.
Proof. intros Hk. unfold stitched_back. rewrite !set_pair_sides; auto. Qed.

Lemma same_sides_len lut lut' : same_sides lut lut' -> len lut' = len lut.
Proof. intros [Hl _]. unfold len. now rewrite Hl. Qed.

Lemma same_sides_set_pair lut i off p :
  (off = 0 \/ off = 4)%nat -> same_sides lut (alter (set_pair off p) i lut).
Proof. intros Hoff. apply same_sides_alter; intros n; apply set_pair_sides; auto. Qed.

(** One call of [link] on a table with the sides of [lut0]. *)
Lemma link_row lut0 lut row target i off lut' :
  (off = 0 \/ off = 4)%nat -> same_sides lut0 lut ->
  link lut i (row_pos row i) (i32 (row_begin target)) (row_size target) off = Ok lut' ->
  lut' = alter (set_pair off (row_link lut0 row target i)) (Z.to_nat i) lut
  /\ link_in lut0 row target i /\ same_sides lut0 lut'.
Proof.
  intros Hoff Hs Hlink. apply link_ok in Hlink as (Hi & Ho & ->).
  fold (row_link lut row target i). rewrite (row_link_sides lut0 lut) by exact Hs.
  split; [reflexivity|]. split.
  - unfold link_in. now rewrite <- (same_sides_len lut0 lut).
  - eapply same_sides_trans; [exact Hs|]. now apply same_sides_set_pair.
Qed.

Lemma stitch_row_nodes lut0 rws (r : nat) prev row next lut lut' :
  (1 <= r)%nat -> rws !! (r - 1)%nat = Some prev -> rws !! r = Some row ->
  rws !! Datatypes.S r = Some next -> 0 <= row_begin row ->
  same_sides lut0 lut -> stitch_row rws (Z.of_nat r) lut = Ok lut' ->
  same_sides lut0 lut'
  /\ (forall x : nat,
        lut' !! x = if decide (row_begin row <= Z.of_nat x < row_end row)
                    then stitched (row_link lut0 row prev (Z.of_nat x))
                           (row_link lut0 row next (Z.of_nat x)) <$> lut !! x
                    else lut !! x)
  /\ (forall i, row_begin row <= i < row_end row ->
                link_in lut0 row prev i /\ link_in lut0 row next i).
Proof.
  intros Hr Hprev Hrow Hnext Hb Hs. unfold stitch_row.
  replace (Z.of_nat r - 1) with (Z.of_nat (r - 1)) by lia.
  replace (Z.of_nat r + 1) with (Z.of_nat (Datatypes.S r)) by lia.
  rewrite (at_index_lookup _ _ _ Hprev), (at_index_lookup _ _ _ Hrow),
    (at_index_lookup _ _ _ Hnext). cbn [mbind result_bind].
  apply (for_range_nodes
           (fun i => stitched (row_link lut0 row prev i) (row_link lut0 row next i))
           (fun i => link_in lut0 row prev i /\ link_in lut0 row next i)); auto.
  - intros i l l' Hi Hl Hbody.
    destruct (link l i _ _ _ 0) as [l1|] eqn:Hl1; [|discriminate]. cbn in Hbody.
    apply (link_row lut0) in Hl1 as (-> & Hin1 & Hs1); auto.
    apply (link_row lut0) in Hbody as (-> & Hin2 & Hs2); auto.
    split; [|auto]. now rewrite list_alter_alter_eq.
  - intros i n k Hk. now apply stitched_sides.
Qed.

End StitchFacts.

Section PoleFacts.

Context {Scalar : Type} `{ScalarOps Scalar}.
Implicit Types (rws : list (Row Scalar)) (row prev next front back : Row Scalar).

Lemma stitch_front_nodes lut0 rws front next lut lut' :
  rws !! 1%nat = Some next -> 0 <= row_begin front ->
  same_sides lut0 lut -> stitch_front rws front lut = Ok lut' ->
  same_sides lut0 lut'
  /\ (forall x : nat,
        lut' !! x = if decide (row_begin front <= Z.of_nat x < row_end front)
                    then stitched (pole_pair front (Z.of_nat x))
                           (row_link lut0 front next (Z.of_nat x)) <$> lut !! x
                    else lut !! x)
  /\ (forall i, row_begin front <= i < row_end front -> link_in lut0 front next i).
Proof.
  intros Hnext Hb Hs. unfold stitch_front.
  apply (for_range_nodes
           (fun i => stitched (pole_pair front i) (row_link lut0 front next i))
           (fun i => link_in lut0 front next i)); auto.
  - intros i l l' Hi Hl Hbody.
    destruct (at_index l i) as [n|]; [|discriminate]. cbn [mbind result_bind] in Hbody.
    pose proof (at_index_lookup rws 1 next Hnext) as Hr2.
    change (Z.of_nat 1) with 1 in Hr2. rewrite Hr2 in Hbody.
    cbn [mbind result_bind] in Hbody.
    unfold set_nb in Hbody. rewrite list_alter_alter_eq in Hbody.
    change (alter _ (Z.to_nat i) l)
      with (alter (set_pair 0 (pole_pair front i)) (Z.to_nat i) l) in Hbody.
    change (i32 (u64 (row_end next - row_begin next))) with (row_size next) in Hbody.
    apply (link_row lut0) in Hbody as (-> & Hin & Hs'); auto.
    + split; [|exact Hin]. now rewrite list_alter_alter_eq.
    + eapply same_sides_trans; [exact Hl|]. apply same_sides_set_pair; auto.
  - intros i n k Hk. now apply stitched_sides.
Qed.

Lemma stitch_back_nodes lut0 rws back prev lut lut' :
  (2 <= length rws)%nat -> len rws < 2 ^ 64 ->
  rws !! (length rws - 2)%nat = Some prev -> 0 <= row_begin back ->
  same_sides lut0 lut -> stitch_back rws back lut = Ok lut' ->
  same_sides lut0 lut'
  /\ (forall x : nat,
        lut' !! x = if decide (row_begin back <= Z.of_nat x < row_end back)
                    then stitched_back (row_link lut0 back prev (Z.of_nat x))
                           (pole_pair back (Z.of_nat x)) <$> lut !! x
                    else lut !! x)
  /\ (forall i, row_begin back <= i < row_end back -> link_in lut0 back prev i).
Proof.
  intros Hlen Hfit Hprev Hb Hs. unfold stitch_back.
  assert (Hidx : u64 (len rws - 2) = Z.of_nat (length rws - 2)).
  { unfold len in *. rewrite u64_small; lia. }
  apply (for_range_nodes
           (fun i => stitched_back (row_link lut0 back prev i) (pole_pair back i))
           (fun i => link_in lut0 back prev i)); auto.
  - intros i l l' Hi Hl Hbody.
    destruct (at_index l i) as [n|]; [|discriminate]. cbn [mbind result_bind] in Hbody.
    rewrite Hidx, (at_index_lookup rws _ prev Hprev) in Hbody.
    cbn [mbind result_bind] in Hbody.
    unfold set_nb in Hbody. rewrite list_alter_alter_eq in Hbody.
    change (alter _ (Z.to_nat i) l)
      with (alter (set_pair 4 (pole_pair back i)) (Z.to_nat i) l) in Hbody.
    change (i32 (u64 (row_end prev - row_begin prev))) with (row_size prev) in Hbody.
    apply (link_row lut0) in Hbody as (-> & Hin & Hs'); auto.
    + split; [|exact Hin]. now rewrite list_alter_alter_eq.
    + eapply same_sides_trans; [exact Hl|]. apply same_sides_set_pair; auto.
  - intros i n k Hk. now apply stitched_back_sides.
Qed.

End PoleFacts.

Section BuildFacts.

Context {Scalar : Type} `{ScalarOps Scalar}.
Implicit Types (rws : list (Row Scalar)) (row prev next front back : Row Scalar).

Lemma stitch_rows_nodes lut0 rws T lut1 :
  (1 <= length rws)%nat -> len rws < 2 ^ 64 -> chain 0 rws T ->
  stitch_rows rws lut0 = Ok lut1 ->
  middle_done lut0 rws (len rws - 1) lut1.
Proof.
  intros Hlen Hfit Hchain Hrun. unfold stitch_rows in Hrun.
  rewrite u64_small in Hrun by (unfold len in *; lia).
  destruct (Z.le_gt_cases 1 (len rws - 1)) as [Hle|Hgt].
  2:{ rewrite for_range_empty in Hrun by lia. injection Hrun as <-.
      split; [apply same_sides_refl|]. split; [intros; lia | reflexivity]. }
  apply (for_range_inv (middle_done lut0 rws) 1 (len rws - 1)
           (stitch_row rws) lut0 lut1); auto.
  - split; [apply same_sides_refl|]. split; [intros; lia | reflexivity].
  - intros j lut lut' Hj (Hs & HA & HB) Hstep.
    set (rj := Z.to_nat j).
    assert (Hrj : j = Z.of_nat rj) by lia.
    unfold len in Hj.
    destruct (lookup_lt_is_Some_2 rws (rj - 1)) as [prev Hprev]; [lia|].
    destruct (lookup_lt_is_Some_2 rws rj) as [row Hrow]; [lia|].
    destruct (lookup_lt_is_Some_2 rws (Datatypes.S rj)) as [next Hnext]; [lia|].
    pose proof (chain_lookup _ _ _ _ _ Hchain Hrow) as (Hb0 & _ & _).
    rewrite Hrj in Hstep.
    apply (stitch_row_nodes lut0 rws rj prev row next) in Hstep
      as (Hs' & Hl' & Hin'); auto; [|lia].
    assert (Hother : forall (r : nat) row' (x : nat),
               rws !! r = Some row' -> r <> rj -> row_in row' x -> lut' !! x = lut !! x).
    { intros r row' x Hr Hne Hx. rewrite Hl'. case_decide as Hxj; [|reflexivity].
      exfalso. apply Hne.
      eapply (chain_disjoint 0 rws T r rj row' row (Z.of_nat x)); eauto. }
    split; [exact Hs'|]. split.
    + intros r prev' row' next' x Hr1 Hr Hp Hr' Hn Hx.
      destruct (decide (r = rj)) as [->|Hne].
      * assert (prev' = prev) as -> by congruence.
        assert (row' = row) as -> by congruence.
        assert (next' = next) as -> by congruence.
        rewrite Hl'. unfold row_in in Hx. case_decide; [|lia].
        rewrite (HB rj row x Hrow) by (unfold row_in; lia || auto).
        split; [reflexivity|]. apply Hin'. exact Hx.
      * rewrite (Hother r row' x Hr' Hne Hx). apply (HA r prev' row' next' x); auto. lia.
    + intros r row' x Hr Hnot Hx.
      assert (Hne : r <> rj) by (intros ->; apply Hnot; lia).
      rewrite (Hother r row' x Hr Hne Hx). apply (HB r row'); auto. lia.
Qed.

End BuildFacts.

(** ** The finished mesh *)



Section BuildMesh.

Context {Scalar : Type} `{ScalarOps Scalar}.
Implicit Types (rws : list (Row Scalar)) (row prev next front back : Row Scalar).

Lemma last_lookup_default {A} (l : list A) (d x : A) :
  l !! (length l - 1)%nat = Some x -> List.last l d = x.
Proof.
  induction l as [|a l IH]; [discriminate|].
  destruct l as [|b l]; cbn [length].
  - cbn. now intros [= ->].
  - intros Hl. change (List.last (a :: b :: l) d) with (List.last (b :: l) d).
    apply IH. cbn [length] in *.
    replace (Datatypes.S (Datatypes.S (length l)) - 1)%nat
      with (Datatypes.S (Datatypes.S (length l) - 1)) in Hl by lia.
    exact Hl.
Qed.

Lemma generate_start (phis : list (Scalar * Z)) lut0 rws :
  fits phis -> generate phis [] [] = (lut0, rws) ->
  chain 0 rws (len lut0) /\ nodes_ok lut0 rws /\ len lut0 = total phis
  /\ length rws = length phis.
Proof.
  intros (Hpos & Htot & _) Hgen.
  apply generate_inv in Hgen; auto.
  - change (len (@nil Node)) with 0. lia.
  - reflexivity.
  - intros r row i Hr. discriminate.
Qed.

Lemma build_built (phis : list (Scalar * Z)) (m : Mesh Scalar) :
  fits phis -> (2 <= length phis)%nat -> build phis = Ok m ->
  exists lut0, generate phis [] [] = (lut0, rows m) /\ built lut0 m.
Proof.
  intros Hfits Hlen Hbuild. unfold build in Hbuild.
  destruct (generate phis [] []) as [lut0 rws] eqn:Hgen.
  destruct (generate_start phis lut0 rws Hfits Hgen) as (Hchain & Hnodes & Htotal & Hrows).
  destruct Hfits as (Hpos & Htot & Hphis).
  assert (Hrl : len rws < 2 ^ 64) by (unfold len in *; lia).
  destruct (stitch_rows rws lut0) as [lut1|] eqn:H1; [|discriminate].
  cbn [mbind result_bind] in Hbuild.
  destruct (stitch_poles rws lut1) as [lut3|] eqn:H3; [|discriminate].
  cbn [mbind result_bind] in Hbuild. injection Hbuild as <-.
  exists lut0. split; [reflexivity|]. cbn [rows nodes].
  apply (stitch_rows_nodes lut0 rws (len lut0)) in H1 as (Hs1 & HA & HB); auto; [|lia].
  unfold stitch_poles in H3.
  destruct (lookup_lt_is_Some_2 rws 0) as [front Hfront]; [lia|].
  destruct (lookup_lt_is_Some_2 rws 1) as [next Hnext]; [lia|].
  destruct (lookup_lt_is_Some_2 rws (length rws - 1)) as [back Hback]; [lia|].
  destruct (lookup_lt_is_Some_2 rws (length rws - 2)) as [prev Hprev]; [lia|].
  destruct rws as [|front' rest] eqn:Hrws; [discriminate|]. rewrite <- Hrws in *.
  assert (front' = front) as -> by (rewrite Hrws in Hfront; cbn in Hfront; congruence).
  rewrite (last_lookup_default rws front back Hback) in H3.
  destruct (stitch_front rws front lut1) as [lut2|] eqn:H2; [|discriminate].
  cbn [mbind result_bind] in H3.
  pose proof (chain_lookup _ _ _ _ _ Hchain Hfront) as (Hfb & _ & _).
  pose proof (chain_lookup _ _ _ _ _ Hchain Hback) as (Hbb & _ & _).
  apply (stitch_front_nodes lut0 rws front next) in H2 as (Hs2 & Hl2 & Hin2); auto.
  apply (stitch_back_nodes lut0 rws back prev) in H3 as (Hs3 & Hl3 & Hin3); auto; [|lia].
  assert (Hnf : forall (r : nat) row (x : nat),
             rws !! r = Some row -> r <> 0%nat -> row_in row x -> lut2 !! x = lut1 !! x).
  { intros r row x Hr Hne Hx. rewrite Hl2. case_decide as Hxf; [|reflexivity].
    exfalso. apply Hne.
    eapply (chain_disjoint 0 rws _ r 0 row front (Z.of_nat x)); eauto. }
  assert (Hnb : forall (r : nat) row (x : nat),
             rws !! r = Some row -> r <> (length rws - 1)%nat -> row_in row x ->
             lut3 !! x = lut2 !! x).
  { intros r row x Hr Hne Hx. rewrite Hl3. case_decide as Hxf; [|reflexivity].
    exfalso. apply Hne.
    eapply (chain_disjoint 0 rws _ r _ row back (Z.of_nat x)); eauto. }
  constructor; cbn [rows nodes]; auto.
  - intros r prev' row next' x Hr1 Hp Hr Hn Hx.
    assert (Hr2 : (Datatypes.S r < length rws)%nat) by (eapply lookup_lt_Some; eauto).
    rewrite (Hnb r row x Hr) by (lia || auto).
    rewrite (Hnf r row x Hr) by (lia || auto).
    apply (HA r prev' row next' x); auto. unfold len. lia.
  - intros front' next' x Hf Hn Hx.
    assert (front' = front) as -> by congruence.
    assert (next' = next) as -> by congruence.
    rewrite (Hnb 0%nat front x Hfront) by (lia || auto).
    rewrite Hl2. unfold row_in in Hx. case_decide; [|lia].
    rewrite (HB 0%nat front x Hfront) by (unfold row_in; lia || auto).
    split; [reflexivity | apply Hin2; exact Hx].
  - intros back' prev' x Hb Hp Hx.
    assert (back' = back) as -> by congruence.
    assert (prev' = prev) as -> by congruence.
    rewrite Hl3. unfold row_in in Hx. case_decide; [|lia].
    rewrite (Hnf _ back x Hback) by (unfold row_in; lia || auto).
    rewrite (HB _ back x Hback) by (unfold row_in, len; lia || auto).
    split; [reflexivity | apply Hin3; exact Hx].
Qed.

End BuildMesh.



Section WrapFree.

Context {Scalar : Type} `{ScalarOps Scalar}.
Implicit Types (rws : list (Row Scalar)) (row prev next target : Row Scalar).

Lemma chain_cover b rws e i :
  chain b rws e -> b <= i < e ->
  exists (r : nat) row, rws !! r = Some row /\ row_begin row <= i < row_end row.
Proof.
  revert b. induction rws as [|row rws IH]; intros b; cbn.
  - intros <-. lia.
  - intros (Hb & Hle & Hrest) Hi.
    destruct (Z.lt_ge_cases i (row_end row)) as [Hlt|Hge].
    + exists 0%nat, row. split; [reflexivity | lia].
    + destruct (IH _ Hrest) as (r & row' & Hr & Hin); [lia|].
      exists (Datatypes.S r), row'. auto.
Qed.

Lemma row_node_sides (N p : Z) :
  0 <= p < N -> N < 2 ^ 31 ->
  length (neighbours (row_node N p)) = 6%nat
  /\ (nb (row_node N p) 2, nb (row_node N p) 3) = side_offsets N p.
Proof.
  intros Hp HN. split; [reflexivity|].
  unfold row_node, nb, side_offsets. cbn [neighbours lookup list_lookup default].
  rewrite (u64_small (N - 1)) by lia.
  destruct (Z.eqb_spec p 0) as [Hp0|Hp0]; destruct (Z.eqb_spec p (N - 1)) as [Hp1|Hp1];
    rewrite ?(u64_small (p - 1)), ?(u64_small (p + 1)) by lia;
    rewrite ?(i32_small (N - 1)), ?(i32_small (p - 1)), ?(i32_small (p + 1)),
      ?(i32_small 0) by lia;
    rewrite !i32_u64 by lia; f_equal; cbn; lia.
Qed.

(** The arithmetic of a row, without the conversions. *)
Lemma row_wrap_free rws T (r : nat) row i :
  chain 0 rws T -> T < 2 ^ 31 -> rws !! r = Some row ->
  row_begin row <= i < row_end row ->
  i32 (row_begin row) = row_begin row
  /\ row_size row = row_end row - row_begin row
  /\ row_pos row i
     = (s_of_Z (i - row_begin row) / s_of_Z (row_end row - row_begin row))%S
  /\ antipodal row i (pole_pair row i).
Proof.
  intros Hchain HT Hr Hi.
  pose proof (chain_lookup _ _ _ _ _ Hchain Hr) as (Hb & Hbe & He).
  assert (Hsize : row_size row = row_end row - row_begin row).
  { unfold row_size. apply i32_u64. lia. }
  split; [apply i32_small; lia|]. split; [exact Hsize|]. split.
  - unfold row_pos. rewrite Hsize, u64_small by lia. reflexivity.
  - unfold antipodal, pole_pair, pole_index. rewrite Hsize.
    set (N := row_end row - row_begin row). set (p := i - row_begin row).
    assert (HN : 0 < N) by (unfold N; lia).
    rewrite Z.quot_div_nonneg by lia.
    pose proof (Z.div_pos N 2 ltac:(lia) ltac:(lia)).
    pose proof (Z.div_le_upper_bound N 2 N ltac:(lia) ltac:(lia)).
    rewrite (u64_small p), (u64_small (N / 2)), (u64_small N) by (unfold p; lia).
    rewrite (u64_small (p + N / 2)) by (unfold p; lia).
    rewrite (u64_small (p + N / 2 + 1)) by (unfold p; lia).
    pose proof (Z.mod_pos_bound (p + N / 2) N HN).
    pose proof (Z.mod_pos_bound (p + N / 2 + 1) N HN).
    rewrite !i32_u64 by (unfold N in *; lia). reflexivity.
Qed.

(** The left and right neighbours of a node are nodes of its row. *)
Lemma sides_in_row lut0 rws T o k :
  chain 0 rws T -> nodes_ok lut0 rws -> T < 2 ^ 31 -> 0 <= o < T ->
  (k = 2 \/ k = 3)%nat ->
  exists (r : nat) row,
    rws !! r = Some row /\ row_begin row <= o < row_end row
    /\ row_begin row <= o + nbr lut0 o k < row_end row
    /\ nbr lut0 o k = (if decide (k = 2%nat)
                       then fst (side_offsets (row_end row - row_begin row) (o - row_begin row))
                       else snd (side_offsets (row_end row - row_begin row) (o - row_begin row))).
Proof.
  intros Hchain Hnodes HT Ho Hk.
  destruct (chain_cover _ _ _ o Hchain Ho) as (r & row & Hr & Hin).
  pose proof (chain_lookup _ _ _ _ _ Hchain Hr) as (Hb & Hbe & He).
  exists r, row. split; [exact Hr|]. split; [exact Hin|].
  unfold nbr. rewrite (Hnodes r row o Hr Hin).
  destruct (row_node_sides (row_end row - row_begin row) (o - row_begin row))
    as [_ Hsides]; [lia | lia |].
  injection Hsides as H2 H3. unfold side_offsets in *. cbn [fst snd].
  destruct Hk as [-> | ->]; cbn [decide]; [rewrite H2 | rewrite H3].
  - case_decide; [|lia]. split; [|reflexivity]. destruct (Z.eqb_spec (o - row_begin row) 0); lia.
  - case_decide; [lia|]. split; [|reflexivity].
    destruct (Z.eqb_spec (o - row_begin row) (row_end row - row_begin row - 1)); lia.
Qed.

End WrapFree.

Section LinkRule.

Context {Scalar : Type} `{ScalarOps Scalar}.
Implicit Types (rws : list (Row Scalar)) (row prev next target : Row Scalar).

Lemma row_bounds_wrap_free rws T (r : nat) row :
  chain 0 rws T -> T < 2 ^ 31 -> rws !! r = Some row ->
  i32 (row_begin row) = row_begin row /\ row_size row = row_end row - row_begin row.
Proof.
  intros Hchain HT Hr.
  pose proof (chain_lookup _ _ _ _ _ Hchain Hr) as (Hb & Hbe & He).
  split; [apply i32_small; lia|]. unfold row_size. apply i32_u64. lia.
Qed.

Lemma stitched_entries top bottom n :
  length (neighbours n) = 6%nat ->
  (nb (stitched top bottom n) 0, nb (stitched top bottom n) 1) = top
  /\ (nb (stitched top bottom n) 4, nb (stitched top bottom n) 5) = bottom.
Proof.
  intros Hn. unfold stitched.
  destruct (nb_set_pair 4 bottom (set_pair 0 top n)) as [H4 H5];
    [rewrite length_set_pair; lia|].
  destruct (nb_set_pair 0 top n) as [H0 H1]; [lia|].
  change (4 + 1)%nat with 5%nat in H5. change (0 + 1)%nat with 1%nat in H1.
  rewrite H4, H5.
  rewrite (nb_set_pair_ne 4 bottom _ 0), (nb_set_pair_ne 4 bottom _ 1) by lia.
  rewrite H0, H1. now destruct top, bottom.
Qed.

Lemma stitched_back_entries top bottom n :
  length (neighbours n) = 6%nat ->
  (nb (stitched_back top bottom n) 0, nb (stitched_back top bottom n) 1) = top
  /\ (nb (stitched_back top bottom n) 4, nb (stitched_back top bottom n) 5) = bottom.
Proof.
  intros Hn. unfold stitched_back.
  destruct (nb_set_pair 0 top (set_pair 4 bottom n)) as [H0 H1];
    [rewrite length_set_pair; lia|].
  destruct (nb_set_pair 4 bottom n) as [H4 H5]; [lia|].
  change (4 + 1)%nat with 5%nat in H5. change (0 + 1)%nat with 1%nat in H1.
  rewrite H0, H1.
  rewrite (nb_set_pair_ne 0 top _ 4), (nb_set_pair_ne 0 top _ 5) by lia.
  rewrite H4, H5. now destruct top, bottom.
Qed.

(** What [link] stored is the link rule on the finished table. *)
Lemma row_link_linked lut0 lut rws (r rt : nat) row target i :
  chain 0 rws (len lut0) -> nodes_ok lut0 rws -> len lut0 < 2 ^ 31 ->
  same_sides lut0 lut ->
  rws !! r = Some row -> rws !! rt = Some target ->
  row_begin row <= i < row_end row ->
  link_in lut0 row target i ->
  linked lut row target i (row_link lut0 row target i).
Proof.
  intros Hchain Hnodes HT Hs Hr Hrt Hi Hin.
  destruct (row_wrap_free rws _ r row i Hchain HT Hr Hi) as (_ & _ & Hpos & _).
  destruct (row_bounds_wrap_free rws _ rt target Hchain HT Hrt) as (Hbt & Hst).
  pose proof (chain_lookup _ _ _ _ _ Hchain Hr) as (Hb & Hbe & He).
  unfold link_in in Hin. unfold row_link, link_pair, linked, link_rule.
  rewrite Hpos, Hbt, Hst in *.
  set (pos := (s_of_Z (i - row_begin row) / s_of_Z (row_end row - row_begin row))%S) in *.
  change (s_half <? pos)%S with (link_left pos).
  change (u64 (s_to_Z (s_of_Z (row_begin target)
                       + s_floor (pos * s_of_Z (row_end target - row_begin target)
                                  + s_of_Z (if link_left pos then 0 else 1)))%S))
    with (link_o1 pos (row_begin target) (row_end target - row_begin target)).
  set (o1 := link_o1 pos (row_begin target) (row_end target - row_begin target)) in *.
  set (k := (2 + (if link_left pos then 1 else 0))%nat).
  assert (Hk : (k = 2 \/ k = 3)%nat) by (unfold k; destruct (link_left pos); auto).
  destruct (sides_in_row lut0 rws _ o1 k Hchain Hnodes HT Hin Hk)
    as (r1 & row1 & Hr1 & Ho1 & Ho2 & _).
  pose proof (chain_lookup _ _ _ _ _ Hchain Hr1) as (Hb1 & Hbe1 & He1).
  destruct Hs as [Hlen Hsides].
  assert (Hkk : nbr lut o1 (if link_left pos then Dir.R else Dir.L) = nbr lut0 o1 k).
  { rewrite <- (Hsides o1 k Hk). unfold k. now destruct (link_left pos). }
  rewrite Hkk. unfold len in *. rewrite Hlen.
  rewrite (u64_small (o1 + nbr lut0 o1 k)) by lia.
  split; [lia|]. split; [lia|].
  destruct (link_left pos); rewrite !i32_u64 by lia; reflexivity.
Qed.

(** A linked pair is a node [o1] of the table and its right neighbour
    or its left neighbour, in the order of the table. *)
Lemma linked_nodes lut row target i pair :
  linked lut row target i pair ->
  exists (left : bool) (o1 : Z),
    0 <= o1 < len lut
    /\ 0 <= o1 + nbr lut o1 (if left then Dir.R else Dir.L) < len lut
    /\ pair = ((if left then o1 else o1 + nbr lut o1 (if left then Dir.R else Dir.L)) - i,
               (if left then o1 + nbr lut o1 (if left then Dir.R else Dir.L) else o1) - i).
Proof. intros (Ho1 & Ho2 & ->). eexists _, _. eauto. Qed.

End LinkRule.

Section MiddleRows.

Context {Scalar : Type} `{ScalarOps Scalar}.
Implicit Types (rws : list (Row Scalar)) (row prev next target : Row Scalar).

Lemma build_facts (phis : list (Scalar * Z)) (m : Mesh Scalar) :
  fits phis -> (2 <= length phis)%nat -> build phis = Ok m ->
  exists lut0, built lut0 m /\ len lut0 < 2 ^ 31 /\ length (rows m) = length phis.
Proof.
  intros Hfits Hlen Hbuild.
  destruct (build_built phis m Hfits Hlen Hbuild) as (lut0 & Hgen & Hbuilt).
  destruct (generate_start phis lut0 (rows m) Hfits Hgen) as (_ & _ & Htotal & Hrows).
  exists lut0. destruct Hfits as (_ & Htot & _).
  split; [exact Hbuilt|]. split; [lia | exact Hrows].
Qed.

Lemma build_rows_length (phis : list (Scalar * Z)) (m : Mesh Scalar) :
  fits phis -> build phis = Ok m -> length (rows m) = length phis.
Proof.
  intros Hfits Hbuild. unfold build in Hbuild.
  destruct (generate phis [] []) as [lut0 rws] eqn:Hgen.
  destruct (generate_start phis lut0 rws Hfits Hgen) as (_ & _ & _ & Hrows).
  destruct (stitch_rows rws lut0); [|discriminate]. cbn in Hbuild.
  destruct (stitch_poles rws _); [|discriminate]. cbn in Hbuild.
  now injection Hbuild as <-.
Qed.

Lemma generated_node lut0 rws (r : nat) row i :
  chain 0 rws (len lut0) -> nodes_ok lut0 rws -> len lut0 < 2 ^ 31 ->
  rws !! r = Some row -> row_begin row <= i < row_end row ->
  exists n, lut0 !! Z.to_nat i = Some n /\ length (neighbours n) = 6%nat.
Proof.
  intros Hchain Hnodes HT Hr Hi. eexists. split; [eapply Hnodes; eauto | reflexivity].
Qed.

(** C5, as the code has it.  For every node [i] of a middle row of a
    built mesh, the top pair is the link rule applied to the previous
    row and the bottom pair the link rule applied to the next row.  The
    link rule is the one of the specification, written out in
    [link_rule]: [left] is [pos > 0.5], the closest node [o1] is
    [target.begin + floor (pos * target.size + (0 if left else 1))] in
    the arithmetic of [Scalar], and [o1] is stored on the left exactly
    when [left] holds; but the second node is the right neighbour of
    [o1] when [left] holds and its left neighbour otherwise. *)
Theorem middle_row_links (phis : list (Scalar * Z)) (m : Mesh Scalar)
    (r : nat) prev row next (i : Z) :
  fits phis -> build phis = Ok m ->
  (1 <= r)%nat -> rows m !! (r - 1)%nat = Some prev -> rows m !! r = Some row ->
  rows m !! Datatypes.S r = Some next ->
  row_begin row <= i < row_end row ->
  exists node,
    nodes m !! Z.to_nat i = Some node
    /\ linked (nodes m) row prev i (nb node Dir.TL, nb node Dir.TR)
    /\ linked (nodes m) row next i (nb node Dir.BL, nb node Dir.BR).
Proof.
  intros Hfits Hbuild Hr1 Hprev Hrow Hnext Hi.
  assert (Hlen : (2 <= length phis)%nat).
  { rewrite <- (build_rows_length phis m Hfits Hbuild).
    apply lookup_lt_Some in Hnext. lia. }
  destruct (build_facts phis m Hfits Hlen Hbuild) as (lut0 & Hbuilt & HT & Hrows).
  destruct Hbuilt as [Hs Hchain Hnodes Hmid _ _].
  pose proof (chain_lookup _ _ _ _ _ Hchain Hrow) as (Hb & Hbe & He).
  destruct (generated_node lut0 _ r row i Hchain Hnodes HT Hrow Hi) as (n & Hn & Hn6).
  destruct (Hmid r prev row next (Z.to_nat i) Hr1 Hprev Hrow Hnext) as (Hnode & Hin1 & Hin2).
  { unfold row_in. lia. }
  rewrite Z2Nat.id in * by lia. rewrite Hn in Hnode. cbn in Hnode.
  eexists. split; [exact Hnode|].
  destruct (stitched_entries (row_link lut0 row prev i) (row_link lut0 row next i) n Hn6)
    as [Htop Hbottom].
  unfold Dir.TL, Dir.TR, Dir.BL, Dir.BR. rewrite Htop, Hbottom.
  split; eapply row_link_linked; eauto.
Qed.

End MiddleRows.

Section PolesAndSides.

Context {Scalar : Type} `{ScalarOps Scalar}.
Implicit Types (rws : list (Row Scalar)) (row prev next target front back : Row Scalar).

(** C8.  In a built mesh of at least two rows, every node [i] of the
    first row has as top pair the two nodes of its row across the pole,
    at the positions [(p + N / 2) mod N] and [(p + N / 2 + 1) mod N],
    and as bottom pair the link rule applied to the second row; every
    node of the last row has the two nodes across the pole as bottom
    pair and the link rule applied to the row before as top pair.  The
    link rule is the one of the middle rows, written out in
    [link_rule]. *)
Theorem pole_row_links (phis : list (Scalar * Z)) (m : Mesh Scalar) :
  fits phis -> (2 <= length phis)%nat -> build phis = Ok m ->
  (forall front next i,
      rows m !! 0%nat = Some front -> rows m !! 1%nat = Some next ->
      row_begin front <= i < row_end front ->
      exists node,
        nodes m !! Z.to_nat i = Some node
        /\ antipodal front i (nb node Dir.TL, nb node Dir.TR)
        /\ linked (nodes m) front next i (nb node Dir.BL, nb node Dir.BR))
  /\ (forall back prev i,
         rows m !! (length (rows m) - 1)%nat = Some back ->
         rows m !! (length (rows m) - 2)%nat = Some prev ->
         row_begin back <= i < row_end back ->
         exists node,
           nodes m !! Z.to_nat i = Some node
           /\ antipodal back i (nb node Dir.BL, nb node Dir.BR)
           /\ linked (nodes m) back prev i (nb node Dir.TL, nb node Dir.TR)).
Proof.
  intros Hfits Hlen Hbuild.
  destruct (build_facts phis m Hfits Hlen Hbuild) as (lut0 & Hbuilt & HT & Hrows).
  destruct Hbuilt as [Hs Hchain Hnodes _ Hfront Hback].
  split.
  - intros front next i Hf Hn Hi.
    pose proof (chain_lookup _ _ _ _ _ Hchain Hf) as (Hb & Hbe & He).
    destruct (generated_node lut0 _ _ front i Hchain Hnodes HT Hf Hi) as (n & Hn0 & Hn6).
    destruct (Hfront front next (Z.to_nat i) Hf Hn) as (Hnode & Hin).
    { unfold row_in. lia. }
    rewrite Z2Nat.id in * by lia. rewrite Hn0 in Hnode. cbn in Hnode.
    eexists. split; [exact Hnode|].
    destruct (stitched_entries (pole_pair front i) (row_link lut0 front next i) n Hn6)
      as [Htop Hbottom].
    unfold Dir.TL, Dir.TR, Dir.BL, Dir.BR. rewrite Htop, Hbottom. split.
    + eapply row_wrap_free; eauto.
    + eapply row_link_linked; eauto.
  - intros back prev i Hb' Hp Hi.
    pose proof (chain_lookup _ _ _ _ _ Hchain Hb') as (Hb & Hbe & He).
    destruct (generated_node lut0 _ _ back i Hchain Hnodes HT Hb' Hi) as (n & Hn0 & Hn6).
    destruct (Hback back prev (Z.to_nat i) Hb' Hp) as (Hnode & Hin).
    { unfold row_in. lia. }
    rewrite Z2Nat.id in * by lia. rewrite Hn0 in Hnode. cbn in Hnode.
    eexists. split; [exact Hnode|].
    destruct (stitched_back_entries (row_link lut0 back prev i) (pole_pair back i) n Hn6)
      as [Htop Hbottom].
    unfold Dir.TL, Dir.TR, Dir.BL, Dir.BR. rewrite Htop, Hbottom. split.
    + eapply row_wrap_free; eauto.
    + eapply row_link_linked; eauto.
Qed.

(** The sides of a node of the finished table. *)
Lemma built_sides_in_row lut0 (m : Mesh Scalar) (i : Z) (k : nat) :
  built lut0 m -> len lut0 < 2 ^ 31 -> 0 <= i < len (nodes m) ->
  (k = 2 \/ k = 3)%nat ->
  exists (r : nat) row,
    rows m !! r = Some row /\ row_begin row <= i < row_end row
    /\ row_begin row <= i + nbr (nodes m) i k < row_end row
    /\ nbr (nodes m) i k
       = (if decide (k = 2%nat)
          then fst (side_offsets (row_end row - row_begin row) (i - row_begin row))
          else snd (side_offsets (row_end row - row_begin row) (i - row_begin row))).
Proof.
  intros [Hs Hchain Hnodes _ _ _] HT Hi Hk.
  rewrite (same_sides_len _ _ Hs) in Hi.
  destruct Hs as [_ Hsides]. rewrite (Hsides i k Hk).
  eapply sides_in_row; eauto.
Qed.

(** C1, as the code has it.  In a built mesh of at least two rows the
    left and right links are symmetric: for [d] left or right, the
    neighbour of every node [i] in the direction [d] is a node of the
    table, and its neighbour in the complementary direction is [i]. *)
Theorem horizontal_links_symmetric (phis : list (Scalar * Z)) (m : Mesh Scalar)
    (i : Z) (d : nat) :
  fits phis -> (2 <= length phis)%nat -> build phis = Ok m ->
  0 <= i < len (nodes m) -> d = Dir.L \/ d = Dir.R ->
  0 <= i + nbr (nodes m) i d < len (nodes m) /\ listed_back (nodes m) i d.
Proof.
  intros Hfits Hlen Hbuild Hi Hd.
  destruct (build_facts phis m Hfits Hlen Hbuild) as (lut0 & Hbuilt & HT & Hrows).
  pose proof (built_chain _ _ Hbuilt) as Hchain.
  pose proof (same_sides_len _ _ (built_sides _ _ Hbuilt)) as Hlen'.
  unfold listed_back.
  assert (Hdd : (d = 2 /\ complementary d = 3 \/ d = 3 /\ complementary d = 2)%nat).
  { destruct Hd as [-> | ->]; [left | right]; split; reflexivity. }
  set (d' := complementary d) in *. clearbody d'. clear Hd.
  destruct (built_sides_in_row lut0 m i d Hbuilt HT Hi)
    as (r & row & Hr & Hin & Hj & Hv); [lia|].
  pose proof (chain_lookup _ _ _ _ _ Hchain Hr) as (Hb & Hbe & He).
  set (j := i + nbr (nodes m) i d) in *.
  assert (Hjn : 0 <= j < len (nodes m)) by lia.
  split; [exact Hjn|].
  destruct (built_sides_in_row lut0 m j d' Hbuilt HT Hjn)
    as (r' & row' & Hr' & Hin' & _ & Hv'); [lia|].
  assert (r' = r) as -> by (eapply chain_disjoint; eauto).
  assert (row' = row) as -> by congruence.
  rewrite Hv'. unfold j in *. rewrite Hv in *. clear Hv Hv'.
  unfold side_offsets in *. cbn [fst snd] in *.
  destruct Hdd as [[-> ->]|[-> ->]]; cbn [decide] in *;
    repeat case_decide; try lia;
    repeat match goal with
           | H : context [?x =? ?y] |- _ => destruct (Z.eqb_spec x y)
           | |- context [?x =? ?y] => destruct (Z.eqb_spec x y)
           end; lia.
Qed.

End PolesAndSides.


(** ** The builder returns *)

Section Total.

Context {St : Type}.

Lemma for_range_total (P : St -> Prop) lo hi (body : Z -> St -> result St) s :
  P s ->
  (forall i t, lo <= i < hi -> P t -> exists t', body i t = Ok t' /\ P t') ->
  exists s', for_range lo hi body s = Ok s' /\ P s'.
Proof.
  remember (Z.to_nat (hi - lo)) as n eqn:Hn.
  revert lo s Hn. induction n as [|n IH]; intros lo s Hn HP Hbody.
  - exists s. split; [apply for_range_empty; lia | exact HP].
  - rewrite for_range_step by lia.
    destruct (Hbody lo s) as (t & Ht & HPt); [lia | exact HP |].
    rewrite Ht. apply IH; [lia | exact HPt |].
    intros i u Hi. apply Hbody. lia.
Qed.

End Total.

Section BuildReturns.

Context {Scalar : Type} `{ScalarOps Scalar}.
Implicit Types (rws : list (Row Scalar)) (row prev next target front back : Row Scalar).

Lemma len_set_nb lut i k v : len (set_nb lut i k v) = len lut.
Proof. unfold len. now rewrite length_set_nb. Qed.

Lemma link_total lut i pos start size off :
  0 <= i < len lut -> 0 <= link_o1 pos start size < len lut ->
  exists lut', link lut i pos start size off = Ok lut' /\ len lut' = len lut.
Proof.
  intros Hi Ho. unfold link.
  destruct (at_index_total lut i Hi) as [n ->]. cbn [mbind result_bind].
  destruct (at_index_total lut _ Ho) as [n1 ->]. cbn [mbind result_bind].
  eexists. split; [reflexivity|]. now rewrite !len_set_nb.
Qed.

Lemma link_row_total lut0 lut row target i off :
  len lut = len lut0 -> 0 <= i < len lut0 -> link_in lut0 row target i ->
  exists lut',
    link lut i (row_pos row i) (i32 (row_begin target)) (row_size target) off = Ok lut'
    /\ len lut' = len lut0.
Proof.
  intros Hlen Hi Hin. unfold link_in in Hin. rewrite <- Hlen in *.
  now apply link_total.
Qed.

Lemma stitch_row_total lut0 rws (r : nat) lut :
  chain 0 rws (len lut0) -> links_in lut0 rws ->
  (1 <= r)%nat -> (Datatypes.S r < length rws)%nat -> len lut = len lut0 ->
  exists lut', stitch_row rws (Z.of_nat r) lut = Ok lut' /\ len lut' = len lut0.
Proof.
  intros Hchain Hlinks Hr1 Hr2 Hlen.
  destruct (lookup_lt_is_Some_2 rws (r - 1)) as [prev Hprev]; [lia|].
  destruct (lookup_lt_is_Some_2 rws r) as [row Hrow]; [lia|].
  destruct (lookup_lt_is_Some_2 rws (Datatypes.S r)) as [next Hnext]; [lia|].
  pose proof (chain_lookup _ _ _ _ _ Hchain Hrow) as (Hb & Hbe & He).
  unfold stitch_row.
  replace (Z.of_nat r - 1) with (Z.of_nat (r - 1)) by lia.
  replace (Z.of_nat r + 1) with (Z.of_nat (Datatypes.S r)) by lia.
  rewrite (at_index_lookup _ _ _ Hprev), (at_index_lookup _ _ _ Hrow),
    (at_index_lookup _ _ _ Hnext). cbn [mbind result_bind].
  apply (for_range_total (fun l => len l = len lut0)); [exact Hlen|].
  intros i l Hi Hl.
  destruct (link_row_total lut0 l row prev i 0 Hl) as (l1 & -> & Hl1); [lia | |].
  { apply (Hlinks r (r - 1)%nat row prev i); auto. right. lia. }
  cbn [mbind result_bind].
  apply (link_row_total lut0 l1 row next i 4 Hl1); [lia|].
  apply (Hlinks r (Datatypes.S r) row next i); auto.
Qed.

Lemma stitch_rows_total lut0 rws :
  chain 0 rws (len lut0) -> links_in lut0 rws ->
  (1 <= length rws)%nat -> len rws < 2 ^ 64 ->
  exists lut1, stitch_rows rws lut0 = Ok lut1 /\ len lut1 = len lut0.
Proof.
  intros Hchain Hlinks Hlen Hfit. unfold stitch_rows.
  rewrite u64_small by (unfold len in *; lia).
  apply (for_range_total (fun l => len l = len lut0)); [reflexivity|].
  intros j l Hj Hl. unfold len in Hj.
  replace j with (Z.of_nat (Z.to_nat j)) by lia.
  apply (stitch_row_total lut0); auto; lia.
Qed.

Lemma stitch_front_total lut0 rws front next lut :
  chain 0 rws (len lut0) -> links_in lut0 rws ->
  rws !! 0%nat = Some front -> rws !! 1%nat = Some next -> len lut = len lut0 ->
  exists lut', stitch_front rws front lut = Ok lut' /\ len lut' = len lut0.
Proof.
  intros Hchain Hlinks Hfront Hnext Hlen.
  pose proof (chain_lookup _ _ _ _ _ Hchain Hfront) as (Hb & Hbe & He).
  unfold stitch_front.
  apply (for_range_total (fun l => len l = len lut0)); [exact Hlen|].
  intros i l Hi Hl.
  destruct (at_index_total l i) as [n ->]; [lia|]. cbn [mbind result_bind].
  pose proof (at_index_lookup rws 1 next Hnext) as Hr2.
  change (Z.of_nat 1) with 1 in Hr2. rewrite Hr2. cbn [mbind result_bind].
  change (i32 (u64 (row_end next - row_begin next))) with (row_size next).
  apply (link_row_total lut0); [now rewrite !len_set_nb | lia |].
  apply (Hlinks 0%nat 1%nat front next i); auto.
Qed.

Lemma stitch_back_total lut0 rws back prev lut :
  chain 0 rws (len lut0) -> links_in lut0 rws ->
  (2 <= length rws)%nat -> len rws < 2 ^ 64 ->
  rws !! (length rws - 1)%nat = Some back -> rws !! (length rws - 2)%nat = Some prev ->
  len lut = len lut0 ->
  exists lut', stitch_back rws back lut = Ok lut' /\ len lut' = len lut0.
Proof.
  intros Hchain Hlinks Hlen Hfit Hback Hprev Hl0.
  pose proof (chain_lookup _ _ _ _ _ Hchain Hback) as (Hb & Hbe & He).
  assert (Hidx : u64 (len rws - 2) = Z.of_nat (length rws - 2)).
  { unfold len in *. rewrite u64_small; lia. }
  unfold stitch_back.
  apply (for_range_total (fun l => len l = len lut0)); [exact Hl0|].
  intros i l Hi Hl.
  destruct (at_index_total l i) as [n ->]; [lia|]. cbn [mbind result_bind].
  rewrite Hidx, (at_index_lookup rws _ prev Hprev). cbn [mbind result_bind].
  change (i32 (u64 (row_end prev - row_begin prev))) with (row_size prev).
  apply (link_row_total lut0); [now rewrite !len_set_nb | lia |].
  apply (Hlinks (length rws - 1)%nat (length rws - 2)%nat back prev i); auto.
  right. lia.
Qed.

(** The builder returns a mesh when there are at least two rows and
    every node [link] reads is in the table. *)
Lemma build_returns (phis : list (Scalar * Z)) lut0 rws :
  fits phis -> (2 <= length phis)%nat -> generate phis [] [] = (lut0, rws) ->
  links_in lut0 rws ->
  exists m, build phis = Ok m.
Proof.
  intros Hfits Hlen Hgen Hlinks.
  destruct (generate_start phis lut0 rws Hfits Hgen) as (Hchain & _ & _ & Hrows).
  destruct Hfits as (_ & _ & Hphis).
  assert (Hrl : len rws < 2 ^ 64) by (unfold len in *; lia).
  unfold build. rewrite Hgen.
  destruct (stitch_rows_total lut0 rws Hchain Hlinks) as (lut1 & -> & Hl1); [lia | lia |].
  cbn [mbind result_bind]. unfold stitch_poles.
  destruct (lookup_lt_is_Some_2 rws 0) as [front Hfront]; [lia|].
  destruct (lookup_lt_is_Some_2 rws 1) as [next Hnext]; [lia|].
  destruct (lookup_lt_is_Some_2 rws (length rws - 1)) as [back Hback]; [lia|].
  destruct (lookup_lt_is_Some_2 rws (length rws - 2)) as [prev Hprev]; [lia|].
  destruct rws as [|front' rest] eqn:Hrws; [discriminate|]. rewrite <- Hrws in *.
  assert (front' = front) as -> by (rewrite Hrws in Hfront; cbn in Hfront; congruence).
  rewrite (last_lookup_default rws front back Hback).
  destruct (stitch_front_total lut0 rws front next lut1) as (lut2 & -> & Hl2); auto.
  cbn [mbind result_bind].
  destruct (stitch_back_total lut0 rws back prev lut2) as (lut3 & -> & Hl3); auto; [lia|].
  cbn [mbind result_bind]. eauto.
Qed.

End BuildReturns.

(** ** Binary64 arithmetic on examples *)

(** Values of the instance: the constants, a quotient that rounds, an
    integer above [2 ^ 53] that rounds to even, and [std::floor],
    [std::ceil] and the conversion to an integer on 2.5 and on -2.5. *)
Lemma binary64_values :
  s_half = SpecFloat.S754_finite false (2 ^ 52) (-53)
  /\ s_pi = SpecFloat.S754_finite false 7074237752028440 (-51)
  /\ (s_of_Z 1 / s_of_Z 3)%S = SpecFloat.S754_finite false 6004799503160661 (-54)
  /\ Binary64.of_Z (2 ^ 53 + 1) = Binary64.of_Z (2 ^ 53)
  /\ Binary64.of_Z (2 ^ 53 + 3) = Binary64.of_Z (2 ^ 53 + 4)
  /\ Binary64.floor (Binary64.of_scaled 5 (-1)) = Binary64.of_Z 2
  /\ Binary64.ceil (Binary64.of_scaled 5 (-1)) = Binary64.of_Z 3
  /\ Binary64.floor (Binary64.of_scaled (-5) (-1)) = Binary64.of_Z (-3)
  /\ Binary64.ceil (Binary64.of_scaled (-5) (-1)) = Binary64.of_Z (-2)
  /\ Binary64.to_Z (Binary64.of_scaled 5 (-1)) = 2
  /\ Binary64.to_Z (Binary64.of_scaled (-5) (-1)) = -2.
Proof. repeat split; vm_compute; reflexivity. Qed.

(** The floor in [link] is the floor of a rounded product.  Towards a
    row of 22 nodes that begins at node 0, node 15 of a row of 22 nodes
    reads node 14 in binary64 arithmetic, where the quotient 15/22
    times 22 is below 15, and node 15 in exact arithmetic. *)
Lemma link_o1_rounds :
  link_o1 (Binary64.of_Z 15 / Binary64.of_Z 22)%S 0 22 = 14
  /\ link_o1 (inject_Z 15 / inject_Z 22)%Q 0 22 = 15.
Proof. split; vm_compute; reflexivity. Qed.

(** ** Three rows of four nodes *)

Lemma build_three_rows_of_four :
  build (row_sizes [4; 4; 4]) = Ok three_rows_of_four.
Proof. vm_compute. reflexivity. Qed.

(** In binary64 arithmetic the builder leaves the same node table as
    in exact arithmetic: the positions 0, 1/4, 1/2 and 3/4 are
    doubles. *)
Lemma build_three_rows_of_four_double :
  build (double_rows [4; 4; 4]) = Ok three_rows_of_four_double
  /\ nodes three_rows_of_four_double = nodes three_rows_of_four.
Proof. split; vm_compute; reflexivity. Qed.

Lemma fits_double_rows : fits (double_rows [4; 4; 4]).
Proof.
  split; [|split; reflexivity].
  repeat (constructor; [discriminate|]). constructor.
Defined.

(** A target row of fewer than three nodes can put the node [link]
    reads outside the table: below a row of four nodes, a last row of
    one node makes node 0 read [lut[5]] of a table of five nodes. *)
Lemma build_row_of_one_node : build (row_sizes [4; 1]) = Fault OutOfBounds.
Proof. vm_compute. reflexivity. Qed.

(** C1, as the specification has it, fails.  Node 4 is the first node
    of the middle row; its top-right neighbour is node 1, and node 4 is
    none of the six neighbours of node 1, in the complementary
    direction or in any other. *)
Lemma vertical_links_not_symmetric :
  build (row_sizes [4; 4; 4]) = Ok three_rows_of_four
  /\ rows three_rows_of_four !! 1%nat = Some (mkRow 1%Q 4 8)
  /\ 4 + nbr (nodes three_rows_of_four) 4 Dir.TR = 1
  /\ ~ listed_back (nodes three_rows_of_four) 4 Dir.TR
  /\ ~ listed_among (nodes three_rows_of_four) 4 Dir.TR.
Proof.
  split; [exact build_three_rows_of_four|]. split; [reflexivity|].
  split; [reflexivity|]. split.
  - intros Hback. vm_compute in Hback. discriminate.
  - intros (d & Hd & Hback).
    do 6 (destruct d as [|d]; [vm_compute in Hback; discriminate|]). lia.
Qed.

Lemma horizontal_links_symmetric_witness :
  0 <= 4 + nbr (nodes three_rows_of_four) 4 Dir.L < len (nodes three_rows_of_four)
  /\ listed_back (nodes three_rows_of_four) 4 Dir.L.
Proof.
  apply (horizontal_links_symmetric (row_sizes [4; 4; 4]) three_rows_of_four 4 Dir.L).
  - split; [|split; reflexivity].
    repeat (constructor; [discriminate|]). constructor.
  - cbn. lia.
  - vm_compute. reflexivity.
  - vm_compute. split; [discriminate | reflexivity].
  - left. reflexivity.
Defined.

(** C5, as the specification has it, fails.  Node 7 is the last node of
    the middle row, at position 3/4: the closest node of the first row
    is node 3, and the second node stored is the right neighbour of
    node 3, node 0, where the specification names its left neighbour,
    node 2. *)
Lemma link_rule_not_as_specified :
  build (row_sizes [4; 4; 4]) = Ok three_rows_of_four
  /\ exists node,
       nodes three_rows_of_four !! 7%nat = Some node
       /\ (nb node Dir.TL, nb node Dir.TR) = (3 - 7, 0 - 7)
       /\ ~ linked_as_specified (nodes three_rows_of_four)
              (mkRow 1%Q 4 8) (mkRow 0%Q 0 4) 7 (nb node Dir.TL, nb node Dir.TR).
Proof.
  split; [exact build_three_rows_of_four|].
  eexists. split; [reflexivity|]. split; [reflexivity|].
  intros (_ & _ & Hpair). vm_compute in Hpair. discriminate.
Qed.

Lemma middle_row_links_witness :
  exists node,
    nodes three_rows_of_four_double !! Z.to_nat 7 = Some node
    /\ linked (nodes three_rows_of_four_double)
         (mkRow (Binary64.of_Z 1) 4 8) (mkRow (Binary64.of_Z 0) 0 4) 7
         (nb node Dir.TL, nb node Dir.TR)
    /\ linked (nodes three_rows_of_four_double)
         (mkRow (Binary64.of_Z 1) 4 8) (mkRow (Binary64.of_Z 2) 8 12) 7
         (nb node Dir.BL, nb node Dir.BR).
Proof.
  apply (middle_row_links (double_rows [4; 4; 4]) three_rows_of_four_double 1
           (mkRow (Binary64.of_Z 0) 0 4) (mkRow (Binary64.of_Z 1) 4 8)
           (mkRow (Binary64.of_Z 2) 8 12) 7).
  - exact fits_double_rows.
  - vm_compute. reflexivity.
  - lia.
  - reflexivity.
  - reflexivity.
  - reflexivity.
  - cbn. lia.
Defined.

Lemma pole_row_links_witness :
  exists node,
    nodes three_rows_of_four_double !! Z.to_nat 1 = Some node
    /\ antipodal (mkRow (Binary64.of_Z 0) 0 4) 1 (nb node Dir.TL, nb node Dir.TR)
    /\ linked (nodes three_rows_of_four_double)
         (mkRow (Binary64.of_Z 0) 0 4) (mkRow (Binary64.of_Z 1) 4 8) 1
         (nb node Dir.BL, nb node Dir.BR).
Proof.
  refine (proj1 (pole_row_links (double_rows [4; 4; 4]) three_rows_of_four_double _ _ _)
            (mkRow (Binary64.of_Z 0) 0 4) (mkRow (Binary64.of_Z 1) 4 8) 1 _ _ _).
  - exact fits_double_rows.
  - cbn. lia.
  - vm_compute. reflexivity.
  - reflexivity.
  - reflexivity.
  - cbn. lia.
Defined.

(** ** The builder on meshes of no row or one row *)

Section SmallMeshes.

Context {Scalar : Type} `{ScalarOps Scalar}.

Lemma at_index_nil {A} (i : Z) : at_index (@nil A) i = Fault OutOfBounds.
Proof. unfold at_index. now destruct (_ && _). Qed.

Lemma stitch_rows_no_row (lut : list Node) :
  stitch_rows (@nil (Row Scalar)) lut = Fault OutOfBounds.
Proof.
  unfold stitch_rows. apply for_range_first_fault.
  - reflexivity.
  - reflexivity.
Qed.

Lemma build_no_row : build (@nil (Scalar * Z)) = Fault OutOfBounds.
Proof. unfold build. cbn [generate]. now rewrite stitch_rows_no_row. Qed.

(** A single row that has a node: the first iteration of the loop over
    the first row reads [rows[1]]. *)
Lemma build_one_row (phi : Scalar) (n : Z) :
  1 <= n < 2 ^ 64 -> build [(phi, n)] = Fault OutOfBounds.
Proof.
  intros Hn. unfold build. cbn [generate app].
  change (len (@nil Node)) with 0. rewrite Z.add_0_l, (u64_small n) by lia.
  set (lut := push_row (Z.to_nat n) n 0 []).
  assert (Hlut : len lut = n).
  { unfold len, lut. rewrite push_row_length. cbn [length]. lia. }
  unfold stitch_rows. rewrite for_range_empty by (vm_compute; discriminate).
  cbn [mbind result_bind stitch_poles List.last].
  unfold stitch_front. cbn [row_begin row_end].
  rewrite for_range_first_fault with (f := OutOfBounds); [reflexivity | lia |].
  destruct (at_index_total lut 0) as [node ->]; [lia|]. reflexivity.
Qed.

(** C4.  The builder does not complete on a mesh of no row or of one
    row.  With no row, [rows.size() - 1] wraps around to the largest
    [size_t], the loop over the middle rows runs and reads [rows[0]]
    of the empty vector.  With one row, the loop over the first row
    reads [rows[1]]. *)
Theorem build_small_mesh_out_of_bounds :
  build (@nil (Scalar * Z)) = Fault OutOfBounds
  /\ forall phi : Scalar, build [(phi, 3)] = Fault OutOfBounds.
Proof.
  split; [exact build_no_row|].
  intros phi. apply build_one_row. lia.
Qed.

End SmallMeshes.

(** ** Selecting the mesh of a height *)

Section HeightLookup.

Context {Scalar : Type} `{ScalarOps Scalar}.

Lemma lower_bound_none (luts : Luts) (h : Scalar) :
  lower_bound luts h = None <->
  Forall (fun kv => (fst kv <? h)%S = true) luts.
Proof.
  unfold lower_bound. induction luts as [|kv luts IH]; cbn.
  - split; [constructor | reflexivity].
  - destruct (fst kv <? h)%S eqn:Hlt; cbn.
    + rewrite IH. split.
      * now constructor.
      * now inversion 1.
    + split; [discriminate |].
      inversion 1; congruence.
Qed.

Lemma lower_bound_some (luts : Luts) (h : Scalar) kv :
  lower_bound luts h = Some kv -> In kv luts /\ (fst kv <? h)%S = false.
Proof.
  unfold lower_bound. intros Hfind.
  apply find_some in Hfind as [Hin Hlt].
  split; [exact Hin | now apply negb_true_iff].
Qed.

(** C10.  [height] and [lookup] dereference [luts.lower_bound(height)]
    without comparing it with [luts.end()]: when every key of the map
    is less than the query height, both are out of bounds, whatever
    [theta_limits] is, and no mesh is returned. *)
Theorem lower_bound_end_unchecked (luts : Luts) (h : Scalar) :
  Forall (fun kv => (fst kv <? h)%S = true) luts ->
  height luts h = Fault OutOfBounds
  /\ (forall theta_limits, lookup luts h theta_limits = Fault OutOfBounds)
  /\ (forall mesh, height luts h <> Ok mesh).
Proof.
  intros Hlt. apply lower_bound_none in Hlt.
  assert (Hh : height luts h = Fault OutOfBounds).
  { unfold height, lower_bound_mesh. now rewrite Hlt. }
  repeat split.
  - exact Hh.
  - intros tl. unfold lookup. fold (height luts h). now rewrite Hh.
  - intros mesh. rewrite Hh. discriminate.
Qed.

(** A mesh is returned exactly when some key is not less than the
    query height, and it is the mesh of the first such key. *)
Lemma height_ok (luts : Luts) (h : Scalar) mesh :
  height luts h = Ok mesh ->
  exists key, In (key, mesh) luts /\ (key <? h)%S = false.
Proof.
  unfold height, lower_bound_mesh.
  destruct (lower_bound luts h) as [[key m]|] eqn:Hlb; [|discriminate].
  intros [= <-]. exists key. now apply lower_bound_some in Hlb.
Qed.

End HeightLookup.

Lemma lower_bound_end_unchecked_witness :
  height [(1%Q, mkMesh [] [])] 2%Q = Fault OutOfBounds.
Proof.
  apply (lower_bound_end_unchecked [(1%Q, mkMesh [] [])] 2%Q).
  repeat constructor.
Defined.

(** ** The capacity read by the op *)

Section OpFacts.

Context {Scalar : Type} `{ScalarOps Scalar}.
Variable sphere_k circle_k : Scalar -> Scalar -> Scalar -> Scalar.
Variable project :
  MeshPtr Scalar -> list (list Scalar) -> OpLens Scalar -> ProjectedMesh Scalar.
Variable scalar_as_int32 : Scalar -> Z.

(** C9.  The value of the [cached_meshes] input has no influence on
    [Compute]: the outcome and the two caches are the same for every
    value, because the capacity is read from [n_intersections]. *)
Theorem Compute_ignores_cached_meshes (inp : Inputs Scalar) (value : list Z)
    (st : OpState Scalar) :
  Compute sphere_k circle_k project scalar_as_int32 (with_cached_meshes inp value) st
  = Compute sphere_k circle_k project scalar_as_int32 inp st.
Proof. reflexivity. Qed.

End OpFacts.

(** ** The mesh cache *)

(** C3.  With a capacity of 1, two requests that differ in the maximum
    distance leave two meshes in the cache, whatever the shape: the
    loop evicts while the size is greater than the capacity, and the
    new mesh is pushed after it. *)
Theorem cache_holds_more_than_capacity (shape_k : Q -> Q -> Q) :
  get_meshes shape_k empty_cache [request 1 10 1; request 1 20 1]
  = Ok (mkCache [cached 0 1 10; cached 1 1 20] 2, [cached 0 1 10; cached 1 1 20]).
Proof. vm_compute. reflexivity. Qed.

(** C6.  With a capacity of 2 and the shape [ratio_k], the requests at
    the heights 1, 2 and 2 again: the second mesh is pushed at the
    back, and the third call, which finds the mesh of height 2 at
    position 1 and swaps it to the front, returns what the swap left at
    position 1, the mesh of height 1. *)
Theorem cache_returns_swapped_out_mesh :
  get_meshes ratio_k empty_cache [request 1 10 2; request 2 10 2]
  = Ok (mkCache [cached 0 1 10; cached 1 2 10] 2, [cached 0 1 10; cached 1 2 10])
  /\ get_meshes ratio_k empty_cache [request 1 10 2; request 2 10 2; request 2 10 2]
     = Ok (mkCache [cached 1 2 10; cached 0 1 10] 2,
           [cached 0 1 10; cached 1 2 10; cached 0 1 10]).
Proof. split; vm_compute; reflexivity. Qed.



(** ** An odd number of intersections *)

Section OddIntersections.

Context {Scalar : Type} `{ScalarOps Scalar}.
Variables s_sin s_cos s_tan s_sqrt : Scalar -> Scalar.
Variable s_atan2 : Scalar -> Scalar -> Scalar.

Lemma odd_length_mod (limits : list Scalar) :
  Nat.odd (length limits) = true ->
  (length limits =? 0)%nat = false /\ (Z.of_nat (length limits) mod 2 =? 0) = false.
Proof.
  intros Hodd. split.
  - destruct limits; [discriminate | reflexivity].
  - apply Z.eqb_neq. rewrite <- Nat.negb_even in Hodd.
    apply negb_true_iff in Hodd.
    intros Hmod. apply Z.mod_divide in Hmod; [|lia].
    destruct Hmod as [q Hq].
    assert (Heven : Nat.even (length limits) = true).
    { apply Nat.even_spec. exists (Z.to_nat q). lia. }
    congruence.
Qed.

(** The odd branch: the fault is the fixed message, whatever the phi
    and the limits. *)
Lemma classify_limits_odd (f : Frustum) (phi : Scalar) (limits : list Scalar)
    (complex_sols : Z) :
  Nat.odd (length limits) = true -> complex_sols <> 4 ->
  classify_limits s_sin s_cos f phi limits complex_sols
  = Fault (RuntimeError odd_intersections).
Proof.
  intros Hodd Hcs. apply odd_length_mod in Hodd as [Hne Hmod].
  unfold classify_limits.
  apply Z.eqb_neq in Hcs. rewrite Hcs. cbn [andb].
  rewrite Hne. cbn [negb]. now rewrite Hmod.
Qed.

(** The loop over the edges counts an edge as complex or appends its
    thetas: when every edge is complex no theta was appended. *)
Lemma collect_limits_complex (phi c2 : Scalar) sides limits cs limits' cs' :
  collect_limits s_sqrt s_atan2 phi c2 sides limits cs = (limits', cs') ->
  cs <= cs' <= cs + len sides /\ (cs' = cs + len sides -> limits' = limits).
Proof.
  unfold len. revert limits cs.
  induction sides as [|[o d] sides IH]; intros limits cs; cbn [collect_limits].
  - intros [= <- <-]. cbn. split; [lia | reflexivity].
  - destruct (edge_limits _ _ _ _ _ _) as [found|].
    + intros Hrest. apply IH in Hrest as [Hle Heq]. cbn [length].
      split; [lia | intros ->; lia].
    + intros Hrest. apply IH in Hrest as [Hle Heq]. cbn [length].
      split; [lia | intros Hcs; apply Heq; lia].
Qed.

(** The whole lambda of the equirectangular case throws when the four
    edges of the frustum gave an odd number of thetas. *)
Lemma theta_limits_equirectangular_odd (Hoc : mat4) (fov : Scalar * Scalar)
    (phi : Scalar) :
  let f := frustum s_tan Hoc fov in
  Nat.odd (length (fst (collect_limits s_sqrt s_atan2 phi
                          (s_tan phi * s_tan phi)%S
                          (combine (rNCo f) (rMNo f)) [] 0))) = true ->
  theta_limits_equirectangular s_sin s_cos s_tan s_sqrt s_atan2 f phi
  = Fault (RuntimeError odd_intersections).
Proof.
  intros f Hodd. unfold theta_limits_equirectangular.
  destruct (collect_limits _ _ _ _ _ _ _) as [limits cs] eqn:Hcollect.
  cbn [fst] in Hodd.
  apply classify_limits_odd; [exact Hodd |].
  apply collect_limits_complex in Hcollect as [_ Hall].
  intros ->. rewrite Hall in Hodd by reflexivity. discriminate.
Qed.

(** [lookup] has no handler: it returns ranges only when
    [theta_limits] returned on every row. *)
Lemma lookup_rows_ok (theta_limits : ThetaLimits) (rws : list (Row Scalar))
    indices result :
  lookup_rows theta_limits rws indices = Ok result ->
  forall row, In row rws -> exists ranges, theta_limits (row_phi row) = Ok ranges.
Proof.
  revert indices. induction rws as [|r rws IH]; intros indices Hok row Hin.
  - destruct Hin.
  - cbn [lookup_rows] in Hok.
    destruct (theta_limits (row_phi r)) as [ranges|e] eqn:Hr; [|discriminate].
    destruct Hin as [<- | Hin]; [eauto | eapply IH; eauto].
Qed.

Lemma lookup_ok (luts : Luts) (h : Scalar) (theta_limits : ThetaLimits) mesh indices :
  lookup luts h theta_limits = Ok (mesh, indices) ->
  forall row, In row (rows mesh) -> exists ranges, theta_limits (row_phi row) = Ok ranges.
Proof.
  unfold lookup.
  destruct (lower_bound_mesh luts h) as [m|e]; [|discriminate]. cbn.
  destruct (lookup_rows theta_limits (rows m) []) as [ind|e] eqn:Hrows; [|discriminate].
  cbn. intros [= <- <-]. eapply lookup_rows_ok; eauto.
Qed.

(** C2, as the code has it.  An odd number of collected thetas makes
    [theta_limits] throw a [std::runtime_error] whose message is the
    fixed text, with neither the phi nor the thetas in it; [lookup]
    does not catch it, so a lookup over a mesh that has such a row
    returns no ranges at all. *)
Theorem odd_intersections_abort_lookup (f : Frustum) (phi : Scalar)
    (limits : list Scalar) (complex_sols : Z) :
  Nat.odd (length limits) = true -> complex_sols <> 4 ->
  classify_limits s_sin s_cos f phi limits complex_sols
  = Fault (RuntimeError odd_intersections)
  /\ forall (luts : Luts) (h : Scalar) (theta_limits : ThetaLimits) mesh row,
       lower_bound_mesh luts h = Ok mesh -> In row (rows mesh) ->
       theta_limits (row_phi row) = classify_limits s_sin s_cos f phi limits complex_sols ->
       forall result, lookup luts h theta_limits <> Ok result.
Proof.
  intros Hodd Hcs.
  pose proof (classify_limits_odd f phi limits complex_sols Hodd Hcs) as Hthrow.
  split; [exact Hthrow |].
  intros luts h theta_limits mesh row Hmesh Hin Hrow [mesh' indices] Hok.
  assert (mesh' = mesh) as ->.
  { unfold lookup in Hok. rewrite Hmesh in Hok. cbn in Hok.
    destruct (lookup_rows _ _ _); [|discriminate]. cbn in Hok. congruence. }
  destruct (lookup_ok _ _ _ _ _ Hok row Hin) as [ranges Hranges].
  congruence.
Qed.

End OddIntersections.

Lemma odd_intersections_abort_lookup_witness :
  classify_limits sin cos unit_frustum 0%R [1%R] 0
  = Fault (RuntimeError odd_intersections).
Proof.
  apply (odd_intersections_abort_lookup sin cos unit_frustum 0%R [1%R] 0).
  - reflexivity.
  - lia.
Defined.

Lemma R_ltb_irrefl (x : R) : R_ltb x x = false.
Proof. unfold R_ltb. destruct (Rlt_dec x x) as [Hlt|]; [lra | reflexivity]. Qed.

Lemma R_eqb_refl (x : R) : R_eqb x x = true.
Proof. unfold R_eqb. destruct (Req_dec_T x x); [reflexivity | congruence]. Qed.

(** C2, as the specification has it, fails: the row of phi 0 has one
    intersection, the row of phi 1 has none and would contribute its
    (empty) list of ranges if the first row were skipped; the lookup
    returns no ranges but the error, and the error is the fixed
    message. *)
Lemma odd_row_not_skipped :
  lookup [(1%R, two_rows)] 1%R one_intersection_at_0
  = Fault (RuntimeError odd_intersections)
  /\ forall result, lookup [(1%R, two_rows)] 1%R one_intersection_at_0 <> Ok result.
Proof.
  assert (Hlookup : lookup [(1%R, two_rows)] 1%R one_intersection_at_0
                    = Fault (RuntimeError odd_intersections)).
  { unfold lookup, lower_bound_mesh, lower_bound. cbn [List.find fst snd].
    change (1 <? 1)%S with (R_ltb 1 1). rewrite R_ltb_irrefl.
    cbn [negb snd mbind result_bind rows two_rows lookup_rows row_phi].
    unfold one_intersection_at_0. rewrite R_eqb_refl.
    rewrite (classify_limits_odd sin cos unit_frustum 0%R [1%R] 0);
      [reflexivity | reflexivity | lia]. }
  split; [exact Hlookup |].
  intros result. rewrite Hlookup. discriminate.
Qed.


(** ** Index conversion *)

Section IndexConversion.

Context {Scalar : Type} `{ScalarOps Scalar}.

(** The ranges of one interval. *)
Lemma range_indices_conversion (row : Row Scalar) (range : Scalar * Scalar) :
  0 <= row_begin row <= row_end row -> row_end row < 2 ^ 64 ->
  range_indices row range = index_conversion row (fst range) (snd range).
Proof.
  intros Hrow Hend. unfold range_indices, index_conversion, index_rule.
  rewrite (u64_small (row_end row - row_begin row)) by lia.
  set (N := row_end row - row_begin row).
  change (theta_index N (fst range)) with (index_by_reciprocal N (fst range)).
  change (theta_index N (snd range)) with (index_by_reciprocal N (snd range)).
  set (b0 := index_by_reciprocal N (fst range)).
  set (e0 := index_by_reciprocal N (snd range)).
  assert (Hb0 : 0 <= b0) by apply u64_range.
  assert (He0 : 0 <= e0) by apply u64_range.
  rewrite (Z.gtb_ltb b0 N), (Z.gtb_ltb e0 N).
  destruct (Z.ltb_spec N b0); destruct (Z.ltb_spec N e0);
    repeat match goal with
           | |- context [?x =? ?y] => destruct (Z.eqb_spec x y)
           | |- context [?x <? ?y] => destruct (Z.ltb_spec x y)
           end; cbn [negb]; try reflexivity; try (unfold N in *; lia);
    rewrite ?u64_small by (unfold N in *; lia); reflexivity.
Qed.

(** The loop over the rows, from the ranges [indices] on. *)
Lemma lookup_rows_converted (theta_limits : ThetaLimits) (rws : list (Row Scalar)) :
  forall indices result : list (Z * Z),
    Forall (fun row => 0 <= row_begin row <= row_end row /\ row_end row < 2 ^ 64) rws ->
    lookup_rows theta_limits rws indices = Ok result ->
    exists limits,
      Forall2 (fun row ranges => theta_limits (row_phi row) = Ok ranges) rws limits
      /\ result = indices ++ converted index_conversion rws limits.
Proof.
  induction rws as [|row rws IH]; intros indices result Hrows; cbn [lookup_rows].
  - intros [= <-]. exists []. split; [constructor|].
    unfold converted. cbn. now rewrite app_nil_r.
  - inversion Hrows as [|? ? [Hrow Hend] Hrest]; subst.
    destruct (theta_limits (row_phi row)) as [ranges|f] eqn:Hranges; [|discriminate].
    cbn [mbind result_bind]. intros Hok.
    destruct (IH _ _ Hrest Hok) as (limits & Hlimits & ->).
    exists (ranges :: limits). split; [constructor; assumption|].
    unfold converted. cbn [zip_with concat]. rewrite <- app_assoc. do 2 f_equal.
    clear Hranges Hok. induction ranges as [|range ranges IHr]; [reflexivity|].
    cbn [flat_map]. now rewrite IHr, range_indices_conversion.
Qed.


End IndexConversion.

(** With exact arithmetic the product with the reciprocal is the
    quotient, and the two indices are the same. *)
Lemma index_by_reciprocal_exact (N : Z) (theta : Q) :
  index_by_reciprocal N theta = index_by_quotient N theta.
Proof.
  unfold index_by_reciprocal, index_by_quotient.
  cbn [s_to_Z s_ceil s_mul s_div s_of_Z s_pi Q_ops].
  assert (Heq : (inject_Z N * theta
                 * (inject_Z 1 / (inject_Z 2 * (884279719003555 # 281474976710656)))
                 == inject_Z N * theta
                    / (inject_Z 2 * (884279719003555 # 281474976710656)))%Q).
  { change (inject_Z 1) with 1%Q. field. }
  now rewrite Heq.
Qed.

Lemma build_two_rows_of_58 : build (double_rows [58; 58]) = Ok two_rows_of_58.
Proof. vm_compute. reflexivity. Qed.




(** * Further properties of the code *)

(** ** The finished mesh as a graph *)

Section MeshGraph.

Context {Scalar : Type} `{ScalarOps Scalar}.
Implicit Types (rws : list (Row Scalar)) (row prev next target : Row Scalar).

(** Every node of a finished mesh, with what the stitching stored in
    it: towards the pole for the first and the last row, towards the
    adjacent row otherwise. *)
Lemma built_node (phis : list (Scalar * Z)) (m : Mesh Scalar) (r : nat) row (i : Z) :
  fits phis -> (2 <= length phis)%nat -> build phis = Ok m ->
  rows m !! r = Some row -> row_begin row <= i < row_end row ->
  exists node,
    nodes m !! Z.to_nat i = Some node
    /\ (r = 0%nat /\ antipodal row i (nb node Dir.TL, nb node Dir.TR)
        \/ exists prev, (1 <= r)%nat /\ rows m !! (r - 1)%nat = Some prev
                        /\ linked (nodes m) row prev i (nb node Dir.TL, nb node Dir.TR))
    /\ (Datatypes.S r = length (rows m)
        /\ antipodal row i (nb node Dir.BL, nb node Dir.BR)
        \/ exists next, rows m !! Datatypes.S r = Some next
                        /\ linked (nodes m) row next i (nb node Dir.BL, nb node Dir.BR)).
Proof.
  intros Hfits Hlen Hbuild Hrow Hi.
  destruct (build_facts phis m Hfits Hlen Hbuild) as (lut0 & Hbuilt & HT & Hrows).
  destruct Hbuilt as [Hs Hchain Hnodes Hmid Hfront Hback].
  pose proof (chain_lookup _ _ _ _ _ Hchain Hrow) as (Hb & Hbe & He).
  destruct (generated_node lut0 _ r row i Hchain Hnodes HT Hrow Hi) as (n & Hn & Hn6).
  assert (Hin : row_in row (Z.to_nat i)) by (unfold row_in; lia).
  pose proof (lookup_lt_Some _ _ _ Hrow) as Hr.
  destruct (decide (r = 0%nat)) as [-> | Hr0].
  - destruct (lookup_lt_is_Some_2 (rows m) 1%nat) as [next Hnext]; [lia|].
    destruct (Hfront row next (Z.to_nat i) Hrow Hnext Hin) as (Hnode & Hlink).
    rewrite Z2Nat.id in * by lia. rewrite Hn in Hnode. cbn in Hnode.
    eexists. split; [exact Hnode|].
    destruct (stitched_entries (pole_pair row i) (row_link lut0 row next i) n Hn6)
      as [Htop Hbottom].
    unfold Dir.TL, Dir.TR, Dir.BL, Dir.BR. rewrite Htop, Hbottom. split.
    + left. split; [reflexivity|]. eapply row_wrap_free; eauto.
    + right. exists next. split; [exact Hnext|]. eapply row_link_linked; eauto.
  - destruct (lookup_lt_is_Some_2 (rows m) (r - 1)%nat) as [prev Hprev]; [lia|].
    destruct (decide (Datatypes.S r = length (rows m))) as [Hlast | Hmiddle].
    + replace r with (length (rows m) - 1)%nat in Hrow by lia.
      replace (r - 1)%nat with (length (rows m) - 2)%nat in Hprev by lia.
      destruct (Hback row prev (Z.to_nat i) Hrow Hprev Hin) as (Hnode & Hlink).
      rewrite Z2Nat.id in * by lia. rewrite Hn in Hnode. cbn in Hnode.
      eexists. split; [exact Hnode|].
      destruct (stitched_back_entries (row_link lut0 row prev i) (pole_pair row i) n Hn6)
        as [Htop Hbottom].
      unfold Dir.TL, Dir.TR, Dir.BL, Dir.BR. rewrite Htop, Hbottom. split.
      * right. exists prev. split; [lia|].
        replace (r - 1)%nat with (length (rows m) - 2)%nat by lia.
        split; [exact Hprev|]. eapply row_link_linked; eauto.
      * left. split; [exact Hlast|]. eapply row_wrap_free; eauto.
    + destruct (lookup_lt_is_Some_2 (rows m) (Datatypes.S r)) as [next Hnext]; [lia|].
      destruct (Hmid r prev row next (Z.to_nat i)) as (Hnode & Hin1 & Hin2);
        [lia | assumption..|].
      rewrite Z2Nat.id in * by lia. rewrite Hn in Hnode. cbn in Hnode.
      eexists. split; [exact Hnode|].
      destruct (stitched_entries (row_link lut0 row prev i) (row_link lut0 row next i) n Hn6)
        as [Htop Hbottom].
      unfold Dir.TL, Dir.TR, Dir.BL, Dir.BR. rewrite Htop, Hbottom. split.
      * right. exists prev. split; [lia|]. split; [exact Hprev|].
        eapply row_link_linked; eauto.
      * right. exists next. split; [exact Hnext|]. eapply row_link_linked; eauto.
Qed.

(** X1.  For at least two rows the builder returns a mesh exactly when
    the node [lut[o1]] that [link] reads is a node of the table, for
    every node and each of the rows next to its row: the stitching has
    no other access that can be out of bounds. *)
Theorem build_returns_iff (phis : list (Scalar * Z)) (lut0 : list Node) rws :
  fits phis -> (2 <= length phis)%nat -> generate phis [] [] = (lut0, rws) ->
  (exists m, build phis = Ok m) <-> links_in lut0 rws.
Proof.
  intros Hfits Hlen Hgen. split; [|exact (build_returns phis lut0 rws Hfits Hlen Hgen)].
  intros [m Hbuild].
  destruct (build_built phis m Hfits Hlen Hbuild) as (lut0' & Hgen' & Hbuilt).
  rewrite Hgen in Hgen'. injection Hgen' as <- ->.
  destruct Hbuilt as [_ Hchain _ Hmid Hfront Hback].
  intros r rt row target i Hrow Htarget Hadjacent Hi.
  pose proof (chain_lookup _ _ _ _ _ Hchain Hrow) as (Hb & Hbe & He).
  assert (Hin : row_in row (Z.to_nat i)) by (unfold row_in; lia).
  pose proof (lookup_lt_Some _ _ _ Hrow) as Hr.
  pose proof (lookup_lt_Some _ _ _ Htarget) as Hrt.
  rewrite <- (Z2Nat.id i) by lia.
  destruct Hadjacent as [-> | ->].
  - destruct r as [|r].
    + now destruct (Hfront row target (Z.to_nat i) Hrow Htarget Hin).
    + destruct (lookup_lt_is_Some_2 (rows m) r) as [prev Hprev]; [lia|].
      destruct (Hmid (Datatypes.S r) prev row target (Z.to_nat i)) as (_ & _ & ?);
        [lia | now rewrite Nat.sub_1_r | assumption..].
  - destruct (decide (Datatypes.S (Datatypes.S rt) = length (rows m))) as [Hlast | Hmiddle].
    + replace (Datatypes.S rt) with (length (rows m) - 1)%nat in Hrow by lia.
      replace rt with (length (rows m) - 2)%nat in Htarget by lia.
      now destruct (Hback row target (Z.to_nat i) Hrow Htarget Hin).
    + destruct (lookup_lt_is_Some_2 (rows m) (Datatypes.S (Datatypes.S rt)))
        as [next Hnext]; [lia|].
      destruct (Hmid (Datatypes.S rt) target row next (Z.to_nat i)) as (_ & ? & _);
        [lia | now rewrite Nat.sub_1_r | assumption..].
Qed.

(** The row of a node of the finished table. *)
Lemma built_row (phis : list (Scalar * Z)) (m : Mesh Scalar) (i : Z) :
  fits phis -> (2 <= length phis)%nat -> build phis = Ok m ->
  0 <= i < len (nodes m) ->
  exists (r : nat) row, rows m !! r = Some row /\ row_begin row <= i < row_end row
                        /\ 0 <= row_begin row /\ row_end row <= len (nodes m).
Proof.
  intros Hfits Hlen Hbuild Hi.
  destruct (build_facts phis m Hfits Hlen Hbuild) as (lut0 & Hbuilt & HT & Hrows).
  pose proof (built_chain _ _ Hbuilt) as Hchain.
  pose proof (same_sides_len _ _ (built_sides _ _ Hbuilt)) as Hlen'.
  rewrite Hlen' in *.
  destruct (chain_cover _ _ _ i Hchain Hi) as (r & row & Hrow & Hin).
  pose proof (chain_lookup _ _ _ _ _ Hchain Hrow) as (Hb & Hbe & He).
  exists r, row. auto.
Qed.

(** The node across the pole is a node of the row. *)
Lemma antipodal_in_row row (i : Z) (pair : Z * Z) :
  row_begin row <= i < row_end row -> antipodal row i pair ->
  row_begin row <= i + fst pair < row_end row
  /\ row_begin row <= i + snd pair < row_end row.
Proof.
  intros Hi ->. cbn [fst snd].
  pose proof (Z.mod_pos_bound (i - row_begin row + (row_end row - row_begin row) / 2)
                (row_end row - row_begin row)).
  pose proof (Z.mod_pos_bound (i - row_begin row + (row_end row - row_begin row) / 2 + 1)
                (row_end row - row_begin row)).
  lia.
Qed.

(** The left and the right link of the finished table point back. *)
Lemma built_side_back lut0 (m : Mesh Scalar) (i : Z) (d d' : nat) :
  built lut0 m -> len lut0 < 2 ^ 31 -> 0 <= i < len (nodes m) ->
  (d = 2 /\ d' = 3 \/ d = 3 /\ d' = 2)%nat ->
  0 <= i + nbr (nodes m) i d < len (nodes m)
  /\ (i + nbr (nodes m) i d) + nbr (nodes m) (i + nbr (nodes m) i d) d' = i.
Proof.
  intros Hbuilt HT Hi Hdd.
  pose proof (built_chain _ _ Hbuilt) as Hchain.
  pose proof (same_sides_len _ _ (built_sides _ _ Hbuilt)) as Hlen'.
  destruct (built_sides_in_row lut0 m i d Hbuilt HT Hi)
    as (r & row & Hr & Hin & Hj & Hv); [lia|].
  pose proof (chain_lookup _ _ _ _ _ Hchain Hr) as (Hb & Hbe & He).
  set (j := i + nbr (nodes m) i d) in *.
  assert (Hjn : 0 <= j < len (nodes m)) by lia.
  split; [exact Hjn|].
  destruct (built_sides_in_row lut0 m j d' Hbuilt HT Hjn)
    as (r' & row' & Hr' & Hin' & _ & Hv'); [lia|].
  assert (r' = r) as -> by (eapply chain_disjoint; eauto).
  assert (row' = row) as -> by congruence.
  rewrite Hv'. unfold j in *. rewrite Hv in *. clear Hv Hv'.
  unfold side_offsets in *. cbn [fst snd] in *.
  destruct Hdd as [[-> ->]|[-> ->]]; cbn [decide] in *;
    repeat case_decide; try lia;
    repeat match goal with
           | H : context [?x =? ?y] |- _ => destruct (Z.eqb_spec x y)
           | |- context [?x =? ?y] => destruct (Z.eqb_spec x y)
           end; lia.
Qed.

Lemma nbr_lookup (lut : list Node) (i : Z) node (k : nat) :
  lut !! Z.to_nat i = Some node -> nbr lut i k = nb node k.
Proof. intros Hn. unfold nbr. now rewrite Hn. Qed.

(** The position of the right neighbour in the row. *)
Lemma built_right (phis : list (Scalar * Z)) (m : Mesh Scalar) (r : nat) row (i : Z) :
  fits phis -> (2 <= length phis)%nat -> build phis = Ok m ->
  rows m !! r = Some row -> row_begin row <= i < row_end row ->
  i + nbr (nodes m) i Dir.R
  = row_begin row + (i - row_begin row + 1) mod (row_end row - row_begin row).
Proof.
  intros Hfits Hlen Hbuild Hrow Hin.
  destruct (build_facts phis m Hfits Hlen Hbuild) as (lut0 & Hbuilt & HT & _).
  pose proof (built_chain _ _ Hbuilt) as Hchain.
  pose proof (chain_lookup _ _ _ _ _ Hchain Hrow) as (Hb & Hbe & He).
  assert (Hi : 0 <= i < len (nodes m)).
  { rewrite (same_sides_len _ _ (built_sides _ _ Hbuilt)). lia. }
  destruct (built_sides_in_row lut0 m i Dir.R Hbuilt HT Hi)
    as (r' & row' & Hr' & Hin' & _ & Hv); [right; reflexivity|].
  assert (r' = r) as -> by (eapply chain_disjoint; eauto).
  assert (row' = row) as -> by congruence.
  rewrite Hv. cbn [decide]. case_decide; [discriminate|].
  unfold side_offsets. cbn [snd].
  destruct (Z.eqb_spec (i - row_begin row) (row_end row - row_begin row - 1)) as [Heq | Hne].
  - replace (i - row_begin row + 1) with (row_end row - row_begin row) by lia.
    rewrite Z.mod_same by lia. lia.
  - rewrite Z.mod_small by lia. lia.
Qed.

(** X3.  The two nodes of a vertical pair are next to one another: in a
    built mesh the top-right neighbour of every node is the right
    neighbour of its top-left neighbour, and the bottom-right neighbour
    the right neighbour of its bottom-left neighbour. *)
Theorem vertical_pair_adjacent (phis : list (Scalar * Z)) (m : Mesh Scalar)
    (i : Z) (d : nat) :
  fits phis -> (2 <= length phis)%nat -> build phis = Ok m ->
  0 <= i < len (nodes m) -> d = Dir.TL \/ d = Dir.BL ->
  let j := i + nbr (nodes m) i d in
  j + nbr (nodes m) j Dir.R = i + nbr (nodes m) i (Datatypes.S d).
Proof.
  intros Hfits Hlen Hbuild Hi Hd j.
  destruct (built_row phis m i Hfits Hlen Hbuild Hi) as (r & row & Hrow & Hin & Hb & He).
  destruct (built_node phis m r row i Hfits Hlen Hbuild Hrow Hin)
    as (node & Hnode & Htop & Hbottom).
  assert (Hpole : forall pair, antipodal row i pair ->
            (i + fst pair) + nbr (nodes m) (i + fst pair) Dir.R = i + snd pair).
  { intros pair Ha. destruct (antipodal_in_row row i pair Hin Ha) as [Hf _].
    rewrite (built_right phis m r row _ Hfits Hlen Hbuild Hrow Hf).
    rewrite Ha. cbn [fst snd].
    replace (i + (row_begin row
                  + (i - row_begin row + (row_end row - row_begin row) / 2)
                      mod (row_end row - row_begin row) - i) - row_begin row)
      with ((i - row_begin row + (row_end row - row_begin row) / 2)
              mod (row_end row - row_begin row)) by lia.
    rewrite Z.add_mod_idemp_l by lia. lia. }
  assert (Hlinked : forall target pair, linked (nodes m) row target i pair ->
            (i + fst pair) + nbr (nodes m) (i + fst pair) Dir.R = i + snd pair).
  { intros target pair Hl.
    destruct (linked_nodes _ _ _ _ _ Hl) as (left & o1 & Ho1 & Ho2 & ->).
    destruct left; cbn [fst snd]; rewrite !Zplus_minus; [reflexivity|].
    destruct (build_facts phis m Hfits Hlen Hbuild) as (lut0 & Hbuilt & HT & _).
    destruct (built_side_back lut0 m o1 2%nat 3%nat Hbuilt HT Ho1) as [_ Hback];
      [left; split; reflexivity|].
    exact Hback. }
  unfold j. rewrite !(nbr_lookup _ i _ _ Hnode).
  destruct Hd as [-> | ->].
  - destruct Htop as [[_ Ha] | (prev & _ & _ & Hl)];
      [apply Hpole in Ha | apply Hlinked in Hl]; assumption.
  - destruct Hbottom as [[_ Ha] | (next & _ & Hl)];
      [apply Hpole in Ha | apply Hlinked in Hl]; assumption.
Qed.

(** X4.  The right links close every row into a ring: from a node at
    position [p] of a row of [N] nodes, [k] steps to the right arrive
    at position [(p + k) mod N] of the same row. *)
Theorem right_links_ring (phis : list (Scalar * Z)) (m : Mesh Scalar)
    (r : nat) row (i : Z) (k : nat) :
  fits phis -> (2 <= length phis)%nat -> build phis = Ok m ->
  rows m !! r = Some row -> row_begin row <= i < row_end row ->
  Nat.iter k (fun j => j + nbr (nodes m) j Dir.R) i
  = row_begin row + (i - row_begin row + Z.of_nat k) mod (row_end row - row_begin row).
Proof.
  intros Hfits Hlen Hbuild Hrow Hin.
  induction k as [|k IH].
  - cbn [Nat.iter nat_rect]. change (Z.of_nat 0) with 0. rewrite Z.add_0_r.
    rewrite Z.mod_small by lia. lia.
  - rewrite Nat.iter_succ, IH.
    pose proof (Z.mod_pos_bound (i - row_begin row + Z.of_nat k)
                  (row_end row - row_begin row)) as Hmod.
    rewrite (built_right phis m r row _ Hfits Hlen Hbuild Hrow) by lia.
    f_equal.
    replace (row_begin row + (i - row_begin row + Z.of_nat k)
               mod (row_end row - row_begin row) - row_begin row)
      with ((i - row_begin row + Z.of_nat k) mod (row_end row - row_begin row)) by lia.
    rewrite Z.add_mod_idemp_l by lia. f_equal. lia.
Qed.

End MeshGraph.

(** ** Rows and node table of a built mesh *)

Section RowsOfMesh.

Context {Scalar : Type} `{ScalarOps Scalar}.
Implicit Types (rws : list (Row Scalar)) (row : Row Scalar).

Lemma generate_rows (phis : list (Scalar * Z)) :
  forall lut rws lut' rws',
    Forall (fun p => 0 <= snd p) phis ->
    len lut + total phis < 2 ^ 64 ->
    generate phis lut rws = (lut', rws') ->
    exists new,
      rws' = rws ++ new
      /\ Forall2 (fun p row => row_phi row = fst p
                               /\ row_end row - row_begin row = snd p) phis new.
Proof.
  induction phis as [|[phi steps] phis IH]; intros lut rws lut' rws' Hpos Htot.
  - cbn. intros [= <- <-]. exists []. rewrite app_nil_r. split; [reflexivity | constructor].
  - cbn [generate]. inversion Hpos as [|? ? Hsteps Hpos']; subst. cbn [snd] in Hsteps.
    rewrite total_cons in Htot. cbn [snd] in Htot.
    pose proof (total_nonneg phis Hpos') as Htotal.
    intros Hgen. apply IH in Hgen as (new & -> & Hnew); [|exact Hpos'|].
    + eexists (_ :: new). rewrite <- app_assoc. split; [reflexivity|].
      constructor; [|exact Hnew]. cbn [row_phi row_begin row_end fst snd].
      split; [reflexivity|]. unfold len in *. rewrite u64_small; lia.
    + unfold len in *. rewrite push_row_length. lia.
Qed.

(** A single row without a node is stitched without a read. *)
Lemma build_one_empty_row (phi : Scalar) :
  build [(phi, 0)] = Ok (mkMesh [] [mkRow phi 0 0]).
Proof.
  unfold build. cbn [generate push_row Z.to_nat].
  change (len (@nil Node)) with 0. change (u64 (0 + 0)) with 0. cbn [app].
  unfold stitch_rows. rewrite for_range_empty by (vm_compute; discriminate).
  cbn [mbind result_bind]. unfold stitch_poles, stitch_front, stitch_back.
  cbn [List.last row_begin row_end]. now rewrite !for_range_empty by lia.
Qed.

(** X5.  The rows of a built mesh partition its node table: row [k] has the
    phi and the number of nodes of entry [k] of [phis], the first row
    begins at node 0, every row begins where the row before ends, and
    the last row ends with the table. *)
Theorem rows_partition_table (phis : list (Scalar * Z)) (m : Mesh Scalar) :
  fits phis -> build phis = Ok m ->
  chain 0 (rows m) (len (nodes m))
  /\ Forall2 (fun p row => row_phi row = fst p
                           /\ row_end row - row_begin row = snd p) phis (rows m).
Proof.
  intros Hfits Hbuild.
  destruct (decide (2 <= length phis)%nat) as [Hlen | Hshort].
  - destruct (build_built phis m Hfits Hlen Hbuild) as (lut0 & Hgen & Hbuilt).
    rewrite (same_sides_len _ _ (built_sides _ _ Hbuilt)).
    split; [exact (built_chain _ _ Hbuilt)|].
    destruct Hfits as (Hpos & Htot & _).
    destruct (generate_rows phis [] [] lut0 (rows m) Hpos) as (new & Hrows & Hnew);
      [change (len (@nil Node)) with 0; lia | exact Hgen |].
    now rewrite Hrows.
  - destruct phis as [|[phi n] [|? ?]]; [| |cbn in Hshort; lia].
    + now rewrite build_no_row in Hbuild.
    + destruct Hfits as (Hpos & Htot & _). inversion Hpos as [|? ? Hn _]; subst.
      cbn in Hn, Htot. destruct (decide (n = 0)) as [-> | Hne].
      * rewrite build_one_empty_row in Hbuild. injection Hbuild as <-.
        cbn. split; [auto|]. constructor; [auto | constructor].
      * rewrite build_one_row in Hbuild by lia. discriminate.
Qed.

End RowsOfMesh.

(** ** Examples on three rows of four nodes *)

Lemma fits_three_rows_of_four : fits (row_sizes [4; 4; 4]).
Proof.
  split; [|split; reflexivity].
  repeat (constructor; [discriminate|]). constructor.
Defined.

Lemma build_returns_iff_witness :
  (exists m, build (double_rows [4; 4; 4]) = Ok m)
  <-> links_in (fst (generate (double_rows [4; 4; 4]) [] []))
        (snd (generate (double_rows [4; 4; 4]) [] [])).
Proof.
  apply (build_returns_iff (double_rows [4; 4; 4])).
  - exact fits_double_rows.
  - cbn. lia.
  - apply surjective_pairing.
Defined.

Lemma vertical_pair_adjacent_witness :
  let j := 7 + nbr (nodes three_rows_of_four) 7 Dir.TL in
  j + nbr (nodes three_rows_of_four) j Dir.R
  = 7 + nbr (nodes three_rows_of_four) 7 (Datatypes.S Dir.TL).
Proof.
  apply (vertical_pair_adjacent (row_sizes [4; 4; 4]) three_rows_of_four 7 Dir.TL).
  - exact fits_three_rows_of_four.
  - cbn. lia.
  - vm_compute. reflexivity.
  - vm_compute. split; [discriminate | reflexivity].
  - left. reflexivity.
Defined.

Lemma right_links_ring_witness :
  Nat.iter 4 (fun j => j + nbr (nodes three_rows_of_four) j Dir.R) 5
  = 4 + (5 - 4 + 4) mod (8 - 4).
Proof.
  apply (right_links_ring (row_sizes [4; 4; 4]) three_rows_of_four 1 (mkRow 1%Q 4 8) 5 4).
  - exact fits_three_rows_of_four.
  - cbn. lia.
  - vm_compute. reflexivity.
  - reflexivity.
  - cbn. lia.
Defined.

Lemma rows_partition_table_witness :
  chain 0 (rows three_rows_of_four) (len (nodes three_rows_of_four))
  /\ Forall2 (fun p row => row_phi row = fst p /\ row_end row - row_begin row = snd p)
       (row_sizes [4; 4; 4]) (rows three_rows_of_four).
Proof.
  apply (rows_partition_table (row_sizes [4; 4; 4]) three_rows_of_four).
  - exact fits_three_rows_of_four.
  - vm_compute. reflexivity.
Defined.

(** ** The constructor *)

Section ConstructorFacts.

Context {Scalar : Type} `{ScalarOps Scalar}.
Variables shape_phi shape_theta : Scalar -> Scalar -> Scalar.
Variable s_isnan : Scalar -> bool.

Lemma map_insert_keys (P : Scalar -> Prop) (luts : Luts) (h : Scalar) (mesh : Mesh Scalar) :
  Forall (fun kv => P (fst kv)) luts -> P h ->
  Forall (fun kv => P (fst kv)) (map_insert luts h mesh).
Proof.
  intros Hluts Hh. induction Hluts as [|[key value] luts Hkey Hluts IH]; cbn [map_insert].
  - constructor; [exact Hh | constructor].
  - destruct (key <? h)%S; [constructor; assumption|].
    destruct (h <? key)%S; constructor; auto.
Qed.

Lemma heights_keys (fuel : nat) (min_angular_res min_height max_height : Scalar)
    (height_resolution : Z) :
  forall (h : Scalar) (luts luts' : Luts),
    heights shape_phi shape_theta s_isnan fuel min_angular_res min_height max_height
      height_resolution h luts = Some (Ok luts') ->
    Forall (fun kv => (fst kv <? max_height)%S = true) luts ->
    Forall (fun kv => (fst kv <? max_height)%S = true) luts'.
Proof.
  induction fuel as [|fuel IH]; intros h luts luts'; cbn [heights];
    destruct (h <? max_height)%S eqn:Hh; try discriminate; try (now intros [= <-]).
  destruct (mesh_of_height _ _ _ _ _ _) as [[mesh|f]|]; try discriminate.
  intros Hrest Hluts. eapply IH; [exact Hrest|].
  now apply (map_insert_keys (fun key => (key <? max_height)%S = true)).
Qed.

(** X7.  Every height the constructor tabulates is below [max_height]: the
    map it leaves has no mesh for [max_height] itself, and asking for
    one dereferences [end()]. *)
Theorem VisualMesh_below_max_height (fuel : nat) (min_height max_height : Scalar)
    (height_resolution : Z) (min_angular_res : Scalar) (luts : Luts) :
  VisualMesh shape_phi shape_theta s_isnan fuel min_height max_height height_resolution
    min_angular_res = Some (Ok luts) ->
  Forall (fun kv => (fst kv <? max_height)%S = true) luts
  /\ height luts max_height = Fault OutOfBounds
  /\ forall theta_limits, lookup luts max_height theta_limits = Fault OutOfBounds.
Proof.
  unfold VisualMesh. intros Hluts.
  apply heights_keys in Hluts; [|constructor].
  assert (Hend : lower_bound_mesh luts max_height = Fault OutOfBounds).
  { unfold lower_bound_mesh. now rewrite (proj2 (lower_bound_none luts max_height) Hluts). }
  split; [exact Hluts|]. split; [exact Hend|].
  intros theta_limits. unfold lookup. now rewrite Hend.
Qed.

(** *** The rows sampled *)

Lemma sample_Forall (P : Scalar * Z -> Prop) (min_angular_res h phi : Scalar) phis :
  Forall P phis -> P (phi, row_steps (row_theta shape_theta min_angular_res h phi)) ->
  Forall P (sample shape_theta s_isnan min_angular_res h phi phis).
Proof.
  intros Hphis Hphi. unfold sample. destruct (negb _); [|exact Hphis].
  apply Forall_app. split; [exact Hphis|]. constructor; [exact Hphi | constructor].
Qed.

Lemma sample_below_Forall (P : Scalar * Z -> Prop) (fuel : nat) (min_angular_res h : Scalar) :
  (forall phi, (phi <? s_pi_2)%S = true ->
               P (phi, row_steps (row_theta shape_theta min_angular_res h phi))) ->
  forall phi phis phis',
    sample_below shape_phi shape_theta s_isnan fuel min_angular_res h phi phis = Some phis' ->
    Forall P phis -> Forall P phis'.
Proof.
  intros HP.
  induction fuel as [|fuel IH]; intros phi phis phis'; cbn [sample_below];
    destruct (phi <? s_pi_2)%S eqn:Hphi; try discriminate; try (now intros [= <-]).
  intros Hrest Hphis. eapply IH; [exact Hrest|].
  apply sample_Forall; auto.
Qed.

Lemma sample_above_Forall (P : Scalar * Z -> Prop) (fuel : nat) (min_angular_res h : Scalar) :
  (forall phi, (s_pi_2 <? phi)%S = true ->
               P (phi, row_steps (row_theta shape_theta min_angular_res h phi))) ->
  forall phi phis phis',
    sample_above shape_phi shape_theta s_isnan fuel min_angular_res h phi phis = Some phis' ->
    Forall P phis -> Forall P phis'.
Proof.
  intros HP.
  induction fuel as [|fuel IH]; intros phi phis phis'; cbn [sample_above];
    destruct (s_pi_2 <? phi)%S eqn:Hphi; try discriminate; try (now intros [= <-]).
  intros Hrest Hphis. eapply IH; [exact Hrest|].
  apply sample_Forall; auto.
Qed.

Lemma sample_phis_Forall (P : Scalar * Z -> Prop) (fuel : nat) (min_angular_res h : Scalar)
    phis :
  (forall phi, (phi <? s_pi_2)%S = true \/ (s_pi_2 <? phi)%S = true ->
               P (phi, row_steps (row_theta shape_theta min_angular_res h phi))) ->
  sample_phis shape_phi shape_theta s_isnan fuel min_angular_res h = Some phis ->
  Forall P phis.
Proof.
  intros HP. unfold sample_phis.
  destruct (sample_below _ _ _ _ _ _ _ _) as [phis1|] eqn:Hbelow; [|discriminate].
  cbn [mbind option_bind]. intros Habove.
  apply (sample_below_Forall P) in Hbelow; [|auto | constructor].
  apply (sample_above_Forall P) in Habove; auto.
Qed.

Lemma sort_phis_insert_Forall (P : Scalar * Z -> Prop) x l :
  P x -> Forall P l -> Forall P (sort_phis_insert x l).
Proof.
  intros Hx Hl. induction Hl as [|y l Hy Hl IH]; cbn [sort_phis_insert].
  - constructor; [exact Hx | constructor].
  - destruct (pair_ltb y x); constructor; auto.
Qed.

Lemma sort_phis_Forall (P : Scalar * Z -> Prop) l : Forall P l -> Forall P (sort_phis l).
Proof.
  induction 1 as [|x l Hx _ IH]; [constructor|].
  cbn [sort_phis fold_right]. now apply sort_phis_insert_Forall.
Qed.

Lemma generate_phis (phis : list (Scalar * Z)) :
  forall lut rws lut' rws',
    generate phis lut rws = (lut', rws') ->
    row_phi <$> rws' = (row_phi <$> rws) ++ (fst <$> phis).
Proof.
  induction phis as [|[phi steps] phis IH]; intros lut rws lut' rws'; cbn [generate].
  - intros [= <- <-]. now rewrite app_nil_r.
  - intros Hgen. apply IH in Hgen. rewrite Hgen, fmap_app, <- app_assoc. reflexivity.
Qed.

Lemma build_phis (phis : list (Scalar * Z)) (m : Mesh Scalar) :
  build phis = Ok m -> row_phi <$> rows m = fst <$> phis.
Proof.
  unfold build. destruct (generate phis [] []) as [lut rws] eqn:Hgen.
  destruct (stitch_rows rws lut); [|discriminate]. cbn [mbind result_bind].
  destruct (stitch_poles rws _); [|discriminate]. cbn [mbind result_bind].
  intros [= <-]. cbn [rows]. now apply generate_phis in Hgen.
Qed.

(** X8.  No row of a mesh the constructor builds lies on the horizon: the
    phi of every row is below [M_PI_2] or above it. *)
Theorem rows_off_horizon (fuel : nat) (min_angular_res h : Scalar) (m : Mesh Scalar) :
  mesh_of_height shape_phi shape_theta s_isnan fuel min_angular_res h = Some (Ok m) ->
  Forall (fun row => (row_phi row <? s_pi_2)%S = true \/ (s_pi_2 <? row_phi row)%S = true)
    (rows m).
Proof.
  set (P := fun phi : Scalar => (phi <? s_pi_2)%S = true \/ (s_pi_2 <? phi)%S = true).
  unfold mesh_of_height.
  destruct (sample_phis _ _ _ _ _ _) as [phis|] eqn:Hphis; [|discriminate].
  cbn [mbind option_bind]. intros [= Hbuild].
  apply (sample_phis_Forall (fun p => P (fst p))) in Hphis; [|auto].
  apply (sort_phis_Forall (fun p => P (fst p))) in Hphis.
  apply build_phis in Hbuild.
  apply (Forall_fmap fst P) in Hphis. rewrite <- Hbuild in Hphis.
  apply (Forall_fmap row_phi P) in Hphis. exact Hphis.
Qed.

End ConstructorFacts.

(** ** Exact arithmetic: the order of the rows *)

Lemma Q_ltb_true (a b : Q) : Q_ltb a b = true <-> (a < b)%Q.
Proof.
  unfold Q_ltb. rewrite negb_true_iff, <- not_true_iff_false, Qle_bool_iff.
  split; [apply Qnot_le_lt | apply Qlt_not_le].
Qed.

Lemma Q_ltb_false (a b : Q) : Q_ltb a b = false <-> (b <= a)%Q.
Proof. unfold Q_ltb. now rewrite negb_false_iff, Qle_bool_iff. Qed.

Section RowsAscending.

Variables shape_phi shape_theta : Q -> Q -> Q.
Variable s_isnan : Q -> bool.

Lemma pair_ltb_asym (a b : Q * Z) : pair_ltb a b = true -> pair_ltb b a = false.
Proof.
  unfold pair_ltb. cbn [s_ltb Q_ops].
  destruct (Q_ltb (fst a) (fst b)) eqn:Hab; destruct (Q_ltb (fst b) (fst a)) eqn:Hba;
    cbn [orb andb negb]; try reflexivity; try discriminate.
  - apply Q_ltb_true in Hab, Hba. Lqa.lra.
  - intros Hlt. apply Z.ltb_lt in Hlt. apply Z.ltb_ge. lia.
Qed.

Lemma pair_ltb_phi (a b : Q * Z) : pair_ltb b a = false -> (fst a <= fst b)%Q.
Proof.
  unfold pair_ltb. cbn [s_ltb Q_ops]. intros Hlt.
  apply orb_false_iff in Hlt as [Hlt _]. now apply Q_ltb_false in Hlt.
Qed.

(** Neighbours in the list are in order. *)
Lemma sort_phis_insert_ordered (x : Q * Z) (l : list (Q * Z)) :
  (forall (i : nat) a b, l !! i = Some a -> l !! Datatypes.S i = Some b ->
                         pair_ltb b a = false) ->
  forall (i : nat) a b,
    sort_phis_insert x l !! i = Some a -> sort_phis_insert x l !! Datatypes.S i = Some b ->
    pair_ltb b a = false.
Proof.
  induction l as [|y l IH]; intros Hl i a b; cbn [sort_phis_insert].
  - destruct i; cbn; discriminate.
  - destruct (pair_ltb y x) eqn:Hyx.
    + destruct i as [|i].
      * cbn [lookup list_lookup]. intros [= <-].
        destruct l as [|z l]; cbn [sort_phis_insert lookup list_lookup].
        -- intros [= <-]. now apply pair_ltb_asym.
        -- destruct (pair_ltb z x) eqn:Hzx; cbn [lookup list_lookup]; intros [= <-].
           ++ apply (Hl 0%nat); reflexivity.
           ++ now apply pair_ltb_asym.
      * apply IH. intros j c d Hc Hd. apply (Hl (Datatypes.S j)); assumption.
    + destruct i as [|i].
      * cbn [lookup list_lookup]. now intros [= <-] [= <-].
      * apply (Hl i).
Qed.

Lemma sort_phis_ordered (l : list (Q * Z)) :
  forall (i : nat) a b,
    sort_phis l !! i = Some a -> sort_phis l !! Datatypes.S i = Some b ->
    pair_ltb b a = false.
Proof.
  induction l as [|x l IH]; cbn [sort_phis fold_right].
  - intros i a b. destruct i; discriminate.
  - apply sort_phis_insert_ordered. exact IH.
Qed.

(** X12.  With exact arithmetic the rows of a mesh the constructor builds are
    in ascending order of phi: no row has a smaller phi than the row
    before it. *)
Theorem rows_ascending (fuel : nat) (min_angular_res h : Q) (m : Mesh Q)
    (r : nat) (row next : Row Q) :
  mesh_of_height shape_phi shape_theta s_isnan fuel min_angular_res h = Some (Ok m) ->
  rows m !! r = Some row -> rows m !! Datatypes.S r = Some next ->
  (row_phi row <= row_phi next)%Q.
Proof.
  unfold mesh_of_height.
  destruct (sample_phis _ _ _ _ _ _) as [phis|]; [|discriminate].
  cbn [mbind option_bind]. intros [= Hbuild] Hrow Hnext.
  apply build_phis in Hbuild.
  assert (Hlookup : forall (k : nat) (x : Row Q),
            rows m !! k = Some x ->
            exists p, sort_phis phis !! k = Some p /\ fst p = row_phi x).
  { intros k x Hx.
    assert (Hk : (row_phi <$> rows m) !! k = Some (row_phi x))
      by now rewrite list_lookup_fmap, Hx.
    rewrite Hbuild, list_lookup_fmap in Hk.
    destruct (sort_phis phis !! k) as [p|]; [|discriminate].
    injection Hk as Hk. eauto. }
  destruct (Hlookup _ _ Hrow) as (a & Ha & <-).
  destruct (Hlookup _ _ Hnext) as (b & Hb & <-).
  apply pair_ltb_phi. eapply sort_phis_ordered; eauto.
Qed.

End RowsAscending.

(** ** The mesh of a height *)

Section HeightRoundsUp.

Context {Scalar : Type} `{ScalarOps Scalar}.

(** X13.  [height] rounds up: the mesh it returns is the one of the first
    key that is not less than the height asked for, every key before
    it is less. *)
Theorem height_first_not_less (luts : Luts) (h : Scalar) (mesh : Mesh Scalar) :
  height luts h = Ok mesh <->
  exists before key after,
    luts = before ++ (key, mesh) :: after
    /\ Forall (fun kv => (fst kv <? h)%S = true) before
    /\ (key <? h)%S = false.
Proof.
  unfold height, lower_bound_mesh, lower_bound. split.
  - induction luts as [|[key value] luts IH]; cbn [List.find fst]; [discriminate|].
    destruct (key <? h)%S eqn:Hkey; cbn [negb].
    + intros Hrest. destruct (IH Hrest) as (before & key' & after & -> & Hbefore & Hkey').
      exists ((key, value) :: before), key', after.
      split; [reflexivity|]. split; [constructor; assumption | exact Hkey'].
    + cbn [snd]. intros [= <-]. exists [], key, luts.
      split; [reflexivity|]. split; [constructor | exact Hkey].
  - intros (before & key & after & -> & Hbefore & Hkey).
    induction Hbefore as [|[key' value'] before Hk _ IH]; cbn [app List.find fst].
    + rewrite Hkey. reflexivity.
    + cbn [fst] in Hk. rewrite Hk. exact IH.
Qed.

End HeightRoundsUp.

(** ** The ranges of a lookup *)

Section LookupRanges.

Context {Scalar : Type} `{ScalarOps Scalar}.

(** The clamps of [lookup] keep every range inside its row, whatever
    the angles are. *)
Lemma range_indices_in_row (row : Row Scalar) (range : Scalar * Scalar) (b e : Z) :
  0 <= row_begin row <= row_end row -> row_end row < 2 ^ 63 ->
  In (b, e) (range_indices row range) ->
  row_begin row <= b /\ b <= e /\ e <= row_end row.
Proof.
  intros Hrow Hend. unfold range_indices.
  rewrite (u64_small (row_end row - row_begin row)) by lia.
  set (N := row_end row - row_begin row).
  set (b0 := theta_index N (fst range)). set (e0 := theta_index N (snd range)).
  assert (Hb0 : 0 <= b0) by apply u64_range.
  assert (He0 : 0 <= e0) by apply u64_range.
  set (begin := if N <? b0 then 0 else b0).
  set (end_ := if N <? e0 then N else e0).
  assert (Hbegin : 0 <= begin <= N).
  { unfold begin. destruct (Z.ltb_spec N b0); lia. }
  assert (Hend_ : 0 <= end_ <= N).
  { unfold end_. destruct (Z.ltb_spec N e0); lia. }
  destruct (Z.eqb_spec begin end_) as [Heq | Hne]; cbn [negb]; [intros []|].
  destruct (Z.ltb_spec begin end_) as [Hlt | Hge]; cbn [In];
    rewrite !u64_small by lia;
    intros Hin; repeat destruct Hin as [Hin | Hin];
    try (injection Hin as <- <-); try destruct Hin; unfold N in *; lia.
Qed.

Lemma lookup_rows_ranges (theta_limits : ThetaLimits) (rws : list (Row Scalar))
    (indices result : list (Z * Z)) (x : Z * Z) :
  lookup_rows theta_limits rws indices = Ok result -> In x result ->
  In x indices
  \/ exists row range, In row rws /\ In x (range_indices row range).
Proof.
  revert indices. induction rws as [|r rws IH]; intros indices; cbn [lookup_rows].
  - intros [= <-]. auto.
  - destruct (theta_limits (row_phi r)) as [ranges|f]; [|discriminate].
    cbn [mbind result_bind]. intros Hok Hin.
    destruct (IH _ Hok Hin) as [Hacc | (row & range & Hrow & Hx)].
    + apply in_app_or in Hacc as [Hacc | Hnew]; [auto|].
      apply in_flat_map in Hnew as (range & _ & Hx).
      right. exists r, range. split; [left; reflexivity | exact Hx].
    + right. exists row, range. split; [right; exact Hrow | exact Hx].
Qed.

(** X15.  Every index range a lookup returns lies inside one row of the mesh
    it returns, hence inside the node table, whatever [theta_limits]
    answers. *)
Theorem lookup_ranges_in_table (luts : Luts) (h : Scalar) (theta_limits : ThetaLimits)
    (mesh : Mesh Scalar) (indices : list (Z * Z)) (b e : Z) :
  lookup luts h theta_limits = Ok (mesh, indices) ->
  chain 0 (rows mesh) (len (nodes mesh)) -> len (nodes mesh) < 2 ^ 63 ->
  In (b, e) indices ->
  exists row, In row (rows mesh) /\ 0 <= row_begin row <= b /\ b <= e
              /\ e <= row_end row <= len (nodes mesh).
Proof.
  unfold lookup.
  destruct (lower_bound_mesh luts h) as [m|f]; [|discriminate]. cbn [mbind result_bind].
  destruct (lookup_rows theta_limits (rows m) []) as [ind|f] eqn:Hrows; [|discriminate].
  cbn [mbind result_bind]. intros [= <- <-] Hchain HT Hin.
  destruct (lookup_rows_ranges _ _ _ _ _ Hrows Hin) as [[] | (row & range & Hrow & Hx)].
  pose proof Hrow as Hr. apply list_elem_of_In, list_elem_of_lookup_1 in Hr as [r Hr].
  pose proof (chain_lookup _ _ _ _ _ Hchain Hr) as (Hb & Hbe & He).
  apply range_indices_in_row in Hx; [|lia..].
  exists row. split; [exact Hrow | lia].
Qed.

End LookupRanges.

Lemma lookup_ranges_in_table_witness :
  exists row, In row (rows three_rows_of_four) /\ 0 <= row_begin row <= 6 /\ 6 <= 8
              /\ 8 <= row_end row <= len (nodes three_rows_of_four).
Proof.
  apply (lookup_ranges_in_table [(1%Q, three_rows_of_four)] 1%Q
           (fun phi => if Qeq_bool phi 1 then Ok [(3%Q, 7%Q)] else Ok [])
           three_rows_of_four [(6, 8)] 6 8).
  - vm_compute. reflexivity.
  - vm_compute. intuition discriminate.
  - vm_compute. reflexivity.
  - left. reflexivity.
Defined.

(** ** Exact arithmetic: an interval that does not wrap *)

Lemma Qceiling_nonneg (x : Q) : (0 <= x)%Q -> 0 <= Qceiling x.
Proof.
  intros Hx. rewrite Zle_Qle.
  apply Qle_trans with x; [exact Hx | apply Qle_ceiling].
Qed.

(** With exact arithmetic the product with the reciprocal of 2 pi is
    the quotient by 2 pi. *)
Lemma theta_index_exact (N : Z) (theta : Q) :
  0 <= Qceiling (inject_Z N * theta / two_pi) < 2 ^ 64 ->
  theta_index N theta = Qceiling (inject_Z N * theta / two_pi).
Proof.
  intros Hrange. unfold theta_index. cbn [s_to_Z s_ceil s_mul s_div s_of_Z Q_ops].
  cbn [Qnum Qden inject_Z]. rewrite Z.quot_1_r.
  assert (Heq : (inject_Z N * theta * (inject_Z 1 / two_pi) ==
                 inject_Z N * theta / two_pi)%Q).
  { change (inject_Z 1) with 1%Q. field. discriminate. }
  rewrite Heq. now apply u64_small.
Qed.

(** X17.  With exact arithmetic an interval whose lower angle is not above
    its upper angle never wraps: it gives one range at most. *)
Theorem range_indices_no_wrap (row : Row Q) (theta_lo theta_hi : Q) :
  0 <= row_begin row <= row_end row -> row_end row < 2 ^ 63 ->
  (0 <= theta_lo)%Q -> (theta_lo <= theta_hi)%Q ->
  Qceiling (inject_Z (row_end row - row_begin row) * theta_hi / two_pi) < 2 ^ 64 ->
  (length (range_indices row (theta_lo, theta_hi)) <= 1)%nat.
Proof.
  intros Hrow Hend Hlo Hle Helt.
  unfold range_indices. cbn [fst snd].
  set (N := row_end row - row_begin row) in *.
  assert (HN : u64 N = N) by (apply u64_small; lia).
  assert (Hmono : Qceiling (inject_Z N * theta_lo / two_pi)
                  <= Qceiling (inject_Z N * theta_hi / two_pi)).
  { apply Qceiling_resp_le. apply Qmult_le_compat_r; [|discriminate].
    rewrite !(Qmult_comm (inject_Z N)). apply Qmult_le_compat_r; [exact Hle|].
    change 0%Q with (inject_Z 0). rewrite <- Zle_Qle. lia. }
  assert (Hpos : 0 <= Qceiling (inject_Z N * theta_lo / two_pi)).
  { apply Qceiling_nonneg.
    apply Qle_shift_div_l; [reflexivity |].
    rewrite Qmult_0_l. apply Qmult_le_0_compat; [|exact Hlo].
    change 0%Q with (inject_Z 0). rewrite <- Zle_Qle. lia. }
  rewrite HN, !theta_index_exact by lia.
  set (b0 := Qceiling (inject_Z N * theta_lo / two_pi)) in *.
  set (e0 := Qceiling (inject_Z N * theta_hi / two_pi)) in *.
  destruct (Z.ltb_spec N b0); destruct (Z.ltb_spec N e0);
    repeat match goal with
           | |- context [?x =? ?y] => destruct (Z.eqb_spec x y)
           | |- context [?x <? ?y] => destruct (Z.ltb_spec x y)
           end; cbn [negb length]; lia.
Qed.

Lemma range_indices_no_wrap_witness :
  (length (range_indices (mkRow 0%Q 8 16) (1%Q, 6%Q)) <= 1)%nat.
Proof.
  apply (range_indices_no_wrap (mkRow 0%Q 8 16) 1%Q 6%Q);
    cbn [row_begin row_end]; try lia; try discriminate; reflexivity.
Defined.

(** ** The intervals of the equirectangular lens *)

Section Intervals.

Context {Scalar : Type} `{ScalarOps Scalar}.
Variables s_sin s_cos s_tan s_sqrt : Scalar -> Scalar.
Variable s_atan2 : Scalar -> Scalar -> Scalar.

Lemma edge_limits_length (phi c2 : Scalar) (o d : vec3) found :
  edge_limits s_sqrt s_atan2 phi c2 o d = Some found -> (length found <= 2)%nat.
Proof.
  unfold edge_limits. destruct (_ <=? _)%S; [discriminate|].
  destruct (negb _); intros [= <-]; [|cbn; lia].
  cbn [flat_map]. rewrite !length_app. cbn [length].
  repeat match goal with
         | |- context [if ?c then _ else _] => destruct c
         end; cbn [length]; lia.
Qed.

(** An edge is counted as complex or appends two thetas at most. *)
Lemma collect_limits_length (phi c2 : Scalar) sides limits cs limits' cs' :
  collect_limits s_sqrt s_atan2 phi c2 sides limits cs = (limits', cs') ->
  (length limits' <= length limits + 2 * length sides)%nat.
Proof.
  revert limits cs.
  induction sides as [|[o d] sides IH]; intros limits cs; cbn [collect_limits].
  - intros [= <- <-]. lia.
  - destruct (edge_limits _ _ _ _ _ _) as [found|] eqn:Hedge.
    + intros Hrest. apply IH in Hrest. apply edge_limits_length in Hedge.
      rewrite length_app in Hrest. cbn [length]. lia.
    + intros Hrest. apply IH in Hrest. cbn [length]. lia.
Qed.

Lemma sort_insert_length (x : Scalar) l : length (sort_insert x l) = Datatypes.S (length l).
Proof.
  induction l as [|y l IH]; cbn [sort_insert]; [reflexivity|].
  destruct (_ <? _)%S; cbn [length]; now rewrite ?IH.
Qed.

Lemma sort_limits_length (l : list Scalar) : length (sort_limits l) = length l.
Proof.
  induction l as [|x l IH]; [reflexivity|].
  cbn [sort_limits fold_right]. rewrite sort_insert_length. cbn [length]. f_equal. exact IH.
Qed.

Lemma pair_up_length (l : list Scalar) : (2 * length (pair_up l) <= length l)%nat.
Proof.
  enough (Hn : forall n (l : list Scalar), (length l <= n)%nat ->
                 (2 * length (pair_up l) <= length l)%nat) by (apply (Hn (length l)); lia).
  clear l. induction n as [|n IH]; intros [|a [|b rest]] Hl;
    cbn [pair_up length] in *; try lia.
  specialize (IH rest). lia.
Qed.

(** The intervals answered for the limits collected: one interval for
    two limits, the wrapping one included. *)
Lemma classify_limits_length (f : Frustum) (phi : Scalar) (limits : list Scalar)
    (cs : Z) out :
  classify_limits s_sin s_cos f phi limits cs = Ok out ->
  (2 * length out <= Nat.max 2 (length limits))%nat.
Proof.
  unfold classify_limits.
  destruct ((cs =? 4) && Bool.eqb _ _).
  - destruct (negb _); intros [= <-]; cbn [length]; lia.
  - destruct (negb (length limits =? 0)%nat).
    + destruct (Z.eqb_spec (Z.of_nat (length limits) mod 2) 0) as [Heven|]; [|discriminate].
      intros [= <-]. pose proof (sort_limits_length limits) as Hsort.
      destruct (outside f _).
      * rewrite length_app. cbn [length].
        pose proof (pair_up_length (tail (sort_limits limits))) as Hp.
        destruct (sort_limits limits) as [|y sorted]; cbn [tail length] in *;
          Z.div_mod_to_equations; lia.
      * pose proof (pair_up_length (sort_limits limits)). lia.
    + intros [= <-]. cbn [length]. lia.
Qed.

(** X18.  The lambda of the equirectangular lens answers four intervals at
    most for a row: each of the four edges of the frustum gives two
    limits at most, and two limits give one interval. *)
Theorem theta_limits_equirectangular_length (Hoc : mat4) (fov : Scalar * Scalar)
    (phi : Scalar) out :
  theta_limits_equirectangular s_sin s_cos s_tan s_sqrt s_atan2
    (frustum s_tan Hoc fov) phi = Ok out ->
  (length out <= 4)%nat.
Proof.
  unfold theta_limits_equirectangular.
  destruct (collect_limits _ _ _ _ _ _ _) as [limits cs] eqn:Hcollect.
  intros Hout. apply classify_limits_length in Hout.
  apply collect_limits_length in Hcollect. cbn [frustum rNCo rMNo map combine length] in Hcollect.
  lia.
Qed.

End Intervals.

(** ** The radial lens *)

Section RadialFacts.

Context {Scalar : Type} `{ScalarOps Scalar}.
Variables s_sin s_cos s_tan s_sqrt s_acos : Scalar -> Scalar.
Variable s_atan2 : Scalar -> Scalar -> Scalar.

Lemma theta_limits_radial_one (cam : vec3) (fov phi : Scalar) :
  exists range, theta_limits_radial s_sin s_cos s_sqrt s_acos s_atan2 cam fov phi = Ok [range].
Proof.
  unfold theta_limits_radial.
  repeat match goal with
         | |- context [if ?c then Ok _ else _] => destruct c
         end; eauto.
Qed.

Lemma range_indices_length (row : Row Scalar) (range : Scalar * Scalar) :
  (length (range_indices row range) <= 2)%nat.
Proof.
  unfold range_indices.
  repeat match goal with
         | |- context [if ?c then _ else _] => destruct c
         end; cbn [length]; lia.
Qed.

Lemma lookup_rows_radial (cam : vec3) (fov : Scalar) (rws : list (Row Scalar)) indices :
  exists result,
    lookup_rows (theta_limits_radial s_sin s_cos s_sqrt s_acos s_atan2 cam fov) rws indices
    = Ok result
    /\ (length result <= length indices + 2 * length rws)%nat.
Proof.
  revert indices. induction rws as [|row rws IH]; intros indices; cbn [lookup_rows].
  - exists indices. split; [reflexivity | lia].
  - destruct (theta_limits_radial_one cam fov (row_phi row)) as [range ->].
    cbn [mbind result_bind flat_map].
    destruct (IH (indices ++ (range_indices row range ++ []))) as (result & -> & Hlen).
    exists result. split; [reflexivity|].
    rewrite !length_app in Hlen. cbn [length] in *.
    pose proof (range_indices_length row range). lia.
Qed.

Lemma lookup_radial_ok (luts : Luts) (Hoc : mat4) (fov : Scalar) (mesh : Mesh Scalar) :
  height luts (Hoc 2%nat 3%nat) = Ok mesh ->
  exists indices,
    lookup_radial s_sin s_cos s_sqrt s_acos s_atan2 luts Hoc fov = Ok (mesh, indices)
    /\ (length indices <= 2 * length (rows mesh))%nat.
Proof.
  unfold height, lookup_radial, lookup. intros ->. cbn [mbind result_bind].
  destruct (lookup_rows_radial (Hoc 0%nat 0%nat, Hoc 1%nat 0%nat, Hoc 2%nat 0%nat) fov
              (rows mesh) []) as (result & -> & Hlen).
  exists result. split; [reflexivity | cbn [length] in Hlen; lia].
Qed.


End RadialFacts.

(** ** The indices of [classify] *)

Lemma i64_small z : - 2 ^ 63 <= z < 2 ^ 63 -> i64 z = z.
Proof. intros Hz. unfold i64. rewrite Z.mod_small; lia. Qed.

Lemma range_total_cons (range : Z * Z) ranges :
  range_total (range :: ranges) = snd range - fst range + range_total ranges.
Proof. reflexivity. Qed.

Lemma range_total_nonneg (ranges : list (Z * Z)) :
  Forall (fun range => fst range <= snd range) ranges -> 0 <= range_total ranges.
Proof.
  induction 1 as [|range ranges Hr _ IH]; [reflexivity|].
  rewrite range_total_cons. cbn beta in Hr. lia.
Qed.

Lemma count_points_total (ranges : list (Z * Z)) :
  Forall (fun range => fst range <= snd range) ranges -> range_total ranges < 2 ^ 31 ->
  count_points ranges = range_total ranges.
Proof.
  intros Hranges Htotal. unfold count_points.
  enough (Hacc : forall acc, 0 <= acc -> acc + range_total ranges < 2 ^ 31 ->
            fold_left (fun points range =>
                         i32 (u64 (u64 points + u64 (snd range - fst range)))) ranges acc
            = acc + range_total ranges) by (apply (Hacc 0); lia).
  induction Hranges as [|range ranges Hr Hrs IH]; intros acc Hacc Hsum;
    [cbn; lia|].
  rewrite range_total_cons in *. cbn [fold_left]. cbn beta in Hr.
  pose proof (range_total_nonneg ranges Hrs) as Hpos.
  rewrite !u64_small, i32_small by (rewrite ?u64_small; lia).
  rewrite IH; lia.
Qed.

Lemma iota_fills (count : nat) :
  forall (done : list Z) (k : nat) (value : Z),
    0 <= value -> value + Z.of_nat count <= 2 ^ 31 ->
    iota count (done ++ repeat 0 (count + k)) (len done) value
    = Ok (done ++ seqZ value (Z.of_nat count) ++ repeat 0 k).
Proof.
  induction count as [|count IH]; intros done k value Hv Hfit.
  - reflexivity.
  - cbn [iota].
    assert (Hin : (0 <=? len done) && (len done <? len (done ++ repeat 0 (Datatypes.S count + k)))
                  = true).
    { unfold len. rewrite length_app, repeat_length.
      apply andb_true_intro. split; [apply Z.leb_le | apply Z.ltb_lt]; lia. }
    rewrite Hin. unfold len at 1. cbn [Nat.add repeat].
    rewrite Nat2Z.id, insert_app_r_alt, Nat.sub_diag by lia.
    cbn [insert list_insert]. rewrite i32_small, u64_small by lia.
    replace (done ++ value :: repeat 0 (count + k))
      with ((done ++ [value]) ++ repeat 0 (count + k)) by now rewrite <- app_assoc.
    replace (len done + 1) with (len (done ++ [value]))
      by (unfold len; rewrite length_app; cbn [length]; lia).
    rewrite IH by lia. rewrite <- app_assoc. cbn [app].
    rewrite (seqZ_cons value (Z.of_nat (Datatypes.S count))) by lia.
    cbn [app]. replace (Z.pred (Z.of_nat (Datatypes.S count))) with (Z.of_nat count) by lia.
    reflexivity.
Qed.

Lemma fill_indices_nodes (ranges : list (Z * Z)) :
  forall (done : list Z) (k : nat),
    Forall (fun range => 0 <= fst range <= snd range /\ snd range <= 2 ^ 31) ranges ->
    fill_indices ranges (done ++ repeat 0 (Z.to_nat (range_total ranges) + k)) (len done)
    = Ok (done ++ range_nodes ranges ++ repeat 0 k).
Proof.
  induction ranges as [|range ranges IH]; intros done k Hranges.
  - reflexivity.
  - inversion Hranges as [|? ? (Hb & He) Hrs]; subst.
    assert (Hpos : 0 <= range_total ranges).
    { apply range_total_nonneg. eapply Forall_impl; [exact Hrs|]. cbn. intros; lia. }
    rewrite range_total_cons. cbn [fill_indices range_nodes flat_map].
    fold (range_nodes ranges).
    rewrite u64_small, i64_small by (rewrite ?u64_small; lia).
    destruct (Z.ltb_spec (snd range - fst range) 0); [lia|].
    replace (Z.to_nat (snd range - fst range + range_total ranges) + k)%nat
      with (Z.to_nat (snd range - fst range) + (Z.to_nat (range_total ranges) + k))%nat
      by lia.
    rewrite iota_fills by lia. cbn [mbind result_bind].
    rewrite Z2Nat.id by lia.
    replace (len done + (snd range - fst range))
      with (len (done ++ seqZ (fst range) (snd range - fst range)))
      by (unfold len; rewrite length_app, length_seqZ; lia).
    rewrite app_assoc. rewrite IH by exact Hrs.
    now rewrite <- !app_assoc.
Qed.

Lemma range_nodes_length (ranges : list (Z * Z)) :
  Forall (fun range => fst range <= snd range) ranges ->
  len (range_nodes ranges) = range_total ranges.
Proof.
  unfold len.
  induction 1 as [|range ranges Hr _ IH]; [reflexivity|].
  rewrite range_total_cons. cbn [range_nodes flat_map]. fold (range_nodes ranges).
  cbn beta in Hr. rewrite length_app, length_seqZ. lia.
Qed.

(** X20.  For ranges inside a table of [T] nodes, [T] and the number of
    nodes of the ranges within [int], [classify] allocates one index
    for every node of the ranges and fills in the nodes of the ranges
    in order: every index handed to the device is a node of the
    table. *)
Theorem classify_indices_nodes (ranges : list (Z * Z)) (T : Z) :
  Forall (fun range => 0 <= fst range <= snd range /\ snd range <= T) ranges ->
  T <= 2 ^ 31 -> range_total ranges < 2 ^ 31 ->
  classify_indices ranges = Some (Ok (range_nodes ranges))
  /\ len (range_nodes ranges) = range_total ranges
  /\ Forall (fun index => 0 <= index < T) (range_nodes ranges).
Proof.
  intros Hranges HT Htotal.
  assert (Hle : Forall (fun range => fst range <= snd range) ranges).
  { eapply Forall_impl; [exact Hranges|]. cbn. intros; lia. }
  split; [|split].
  - unfold classify_indices, resize. rewrite count_points_total by assumption.
    pose proof (range_total_nonneg ranges Hle) as Hpos.
    destruct (Z.ltb_spec (range_total ranges) 0); [lia|]. cbn [mbind option_bind].
    pose proof (fill_indices_nodes ranges [] 0) as Hfill.
    rewrite Nat.add_0_r, !app_nil_r in Hfill. cbn [app] in Hfill.
    change (len (@nil Z)) with 0 in Hfill. rewrite Hfill; [reflexivity|].
    eapply Forall_impl; [exact Hranges|]. cbn. intros; lia.
  - now apply range_nodes_length.
  - unfold range_nodes. apply Forall_forall. intros index Hin.
    apply list_elem_of_In, in_flat_map in Hin as (range & Hrange & Hin).
    rewrite Forall_forall in Hranges. apply list_elem_of_In in Hrange.
    specialize (Hranges range Hrange).
    apply list_elem_of_In, elem_of_seqZ in Hin. lia.
Qed.

Lemma classify_indices_nodes_witness :
  classify_indices [(2, 4); (6, 8)] = Some (Ok (range_nodes [(2, 4); (6, 8)]))
  /\ len (range_nodes [(2, 4); (6, 8)]) = range_total [(2, 4); (6, 8)]
  /\ Forall (fun index => 0 <= index < 12) (range_nodes [(2, 4); (6, 8)]).
Proof.
  apply (classify_indices_nodes [(2, 4); (6, 8)] 12).
  - repeat constructor; cbn; lia.
  - lia.
  - reflexivity.
Defined.

(** ** From the builder to the device *)

Section BuiltMeshIndices.

Context {Scalar : Type} `{ScalarOps Scalar}.

(** X21.  The builder, the lookup and [classify] together: for a mesh the
    builder returned, whatever ranges a lookup on it returns, if they
    hold fewer than [2 ^ 31] nodes then [classify] fills its index
    vector without leaving it, and every index it hands to the device
    is a node of the mesh. *)
Theorem built_mesh_indices_valid (phis : list (Scalar * Z)) (luts : Luts) (h : Scalar)
    (theta_limits : ThetaLimits) (mesh : Mesh Scalar) (ranges : list (Z * Z)) :
  fits phis -> (2 <= length phis)%nat -> build phis = Ok mesh ->
  lookup luts h theta_limits = Ok (mesh, ranges) ->
  range_total ranges < 2 ^ 31 ->
  exists indices,
    classify_indices ranges = Some (Ok indices)
    /\ len indices = range_total ranges
    /\ Forall (fun index => 0 <= index < len (nodes mesh)) indices.
Proof.
  intros Hfits Hlen Hbuild Hlookup Htotal.
  destruct (build_facts phis mesh Hfits Hlen Hbuild) as (lut0 & Hbuilt & HT & _).
  pose proof (built_chain _ _ Hbuilt) as Hchain.
  pose proof (same_sides_len _ _ (built_sides _ _ Hbuilt)) as Hnodes.
  rewrite Hnodes.
  assert (Hranges : Forall (fun range => 0 <= fst range <= snd range
                                         /\ snd range <= len lut0) ranges).
  { unfold lookup in Hlookup.
    destruct (lower_bound_mesh luts h) as [m|f]; [|discriminate].
    cbn [mbind result_bind] in Hlookup.
    destruct (lookup_rows theta_limits (rows m) []) as [ind|f] eqn:Hrows; [|discriminate].
    cbn [mbind result_bind] in Hlookup. injection Hlookup as -> ->.
    apply Forall_forall. intros [b e] Hin. apply list_elem_of_In in Hin.
    destruct (lookup_rows_ranges _ _ _ _ _ Hrows Hin) as [[] | (row & range & Hrow & Hx)].
    apply list_elem_of_In, list_elem_of_lookup_1 in Hrow as [r Hr].
    pose proof (chain_lookup _ _ _ _ _ Hchain Hr) as (Hb & Hbe & He).
    apply range_indices_in_row in Hx; [|lia..]. cbn [fst snd]. lia. }
  assert (Hle : Forall (fun range => fst range <= snd range) ranges).
  { eapply Forall_impl; [exact Hranges|]. cbn. intros; lia. }
  exists (range_nodes ranges). split; [|split].
  - unfold classify_indices, resize. rewrite count_points_total by assumption.
    pose proof (range_total_nonneg ranges Hle) as Hpos.
    destruct (Z.ltb_spec (range_total ranges) 0); [lia|]. cbn [mbind option_bind].
    pose proof (fill_indices_nodes ranges [] 0) as Hfill.
    rewrite Nat.add_0_r, !app_nil_r in Hfill. cbn [app] in Hfill.
    change (len (@nil Z)) with 0 in Hfill. rewrite Hfill; [reflexivity|].
    eapply Forall_impl; [exact Hranges|]. cbn. intros; lia.
  - now apply range_nodes_length.
  - unfold range_nodes. apply Forall_forall. intros index Hin.
    apply list_elem_of_In, in_flat_map in Hin as (range & Hrange & Hin).
    rewrite Forall_forall in Hranges. apply list_elem_of_In in Hrange.
    specialize (Hranges range Hrange).
    apply list_elem_of_In, elem_of_seqZ in Hin. lia.
Qed.

End BuiltMeshIndices.

Lemma built_mesh_indices_valid_witness :
  exists indices,
    classify_indices [(6, 8)] = Some (Ok indices)
    /\ len indices = range_total [(6, 8)]
    /\ Forall (fun index => 0 <= index < len (nodes three_rows_of_four)) indices.
Proof.
  apply (built_mesh_indices_valid (row_sizes [4; 4; 4]) [(1%Q, three_rows_of_four)] 1%Q
           (fun phi => if Qeq_bool phi 1 then Ok [(3%Q, 7%Q)] else Ok [])
           three_rows_of_four [(6, 8)]).
  - split; [|split; reflexivity].
    repeat (constructor; [discriminate|]). constructor.
  - cbn. lia.
  - vm_compute. reflexivity.
  - vm_compute. reflexivity.
  - reflexivity.
Defined.

(** ** The mesh cache, for every shape *)

Section CacheFacts.

Context {Scalar : Type} `{ScalarOps Scalar}.
Variable shape_k : Scalar -> Scalar -> Scalar.
Implicit Types (meshes : list (MeshPtr Scalar)) (c : Cache Scalar) (m : MeshPtr Scalar).

Lemma iter_swap_front meshes (j : nat) : iter_swap meshes 0 j ≡ₚ meshes.
Proof.
  unfold iter_swap. destruct meshes as [|a rest]; [reflexivity|].
  change ((a :: rest) !! 0%nat) with (Some a). cbv beta iota.
  destruct j as [|j]; [reflexivity|].
  change ((a :: rest) !! Datatypes.S j) with (rest !! j).
  destruct (rest !! j) as [b|] eqn:Hb; [|reflexivity].
  change (<[0%nat:=b]> (<[Datatypes.S j:=a]> (a :: rest))) with (b :: <[j:=a]> rest).
  rewrite insert_take_drop by (eapply lookup_lt_Some; eauto).
  rewrite <- (take_drop_middle rest j b Hb) at 3.
  rewrite <- !Permutation_middle. apply perm_swap.
Qed.

(** X22.  [find_mesh] reorders the vector and nothing else: no mesh is
    dropped or duplicated, and the pointer it returns is one of the
    cached meshes. *)
Theorem find_mesh_permutes meshes (h k t d : Scalar) :
  fst (find_mesh shape_k meshes h k t d) ≡ₚ meshes
  /\ forall m, snd (find_mesh shape_k meshes h k t d) = Some m -> m ∈ meshes.
Proof.
  unfold find_mesh. destruct meshes as [|a rest]; [split; [reflexivity | discriminate]|].
  destruct (scan _ _ _ _ _ _ _ _) as [best_it best_error]. cbn [fst snd].
  pose proof (iter_swap_front (a :: rest) best_it) as Hperm.
  split; [exact Hperm|]. intros m. destruct (_ <=? _)%S; [|discriminate].
  intros Hm. rewrite <- Hperm. eapply list_elem_of_lookup_2; eauto.
Qed.

Lemma find_mesh_Permutation meshes (h k t d : Scalar) :
  fst (find_mesh shape_k meshes h k t d) ≡ₚ meshes.
Proof.
  unfold find_mesh. destruct meshes as [|a rest]; [reflexivity|].
  destruct (scan _ _ _ _ _ _ _ _) as [best_it best_error]. cbn [fst].
  apply iter_swap_front.
Qed.

Lemma find_mesh_length meshes (h k t d : Scalar) :
  length (fst (find_mesh shape_k meshes h k t d)) = length meshes.
Proof. apply Permutation_length, find_mesh_Permutation. Qed.

Lemma find_mesh_elem meshes (h k t d : Scalar) meshes' m :
  find_mesh shape_k meshes h k t d = (meshes', Some m) -> m ∈ meshes' /\ m ∈ meshes.
Proof.
  intros Hfind.
  pose proof (find_mesh_Permutation meshes h k t d) as Hperm.
  rewrite Hfind in Hperm. cbn [fst] in Hperm.
  enough (Hin : m ∈ meshes') by (split; [exact Hin | now rewrite <- Hperm]).
  unfold find_mesh in Hfind. destruct meshes as [|a rest]; [discriminate|].
  destruct (scan _ _ _ _ _ _ _ _) as [best_it best_error].
  injection Hfind as <- Hm. destruct (_ <=? _)%S; [|discriminate].
  eapply list_elem_of_lookup_2; eauto.
Qed.

(** The eviction loop keeps the first [cached_meshes] meshes; with a
    negative capacity it pops from the empty vector. *)
Lemma evict_take (size : nat) :
  forall meshes (cached_meshes : Z),
    length meshes = size -> len meshes < 2 ^ 31 ->
    evict size meshes cached_meshes
    = if 0 <=? cached_meshes then Ok (take (Z.to_nat cached_meshes) meshes)
      else Fault OutOfBounds.
Proof.
  induction size as [|size IH]; intros meshes k Hsize Hfit.
  - destruct meshes; [|discriminate]. cbn [evict].
    change (i32 (len (@nil (MeshPtr Scalar)))) with 0.
    destruct (Z.gtb_spec 0 k), (Z.leb_spec 0 k); try lia; [reflexivity|].
    now rewrite take_nil.
  - cbn [evict]. unfold len in *. rewrite i32_small by lia.
    destruct (Z.gtb_spec (Z.of_nat (length meshes)) k) as [Hgt | Hle].
    + rewrite IH.
      * destruct (Z.leb_spec 0 k); [|reflexivity].
        rewrite removelast_firstn_len. f_equal.
        change (firstn (Init.Nat.pred (length meshes)) meshes)
          with (take (Init.Nat.pred (length meshes)) meshes).
        rewrite take_take. f_equal. lia.
      * rewrite removelast_firstn_len, length_take. lia.
      * rewrite removelast_firstn_len, length_take. lia.
    + destruct (Z.leb_spec 0 k); [|lia]. now rewrite take_ge by lia.
Qed.

(** X23.  The capacity of the cache as the code has it: a call that returns
    leaves at most [cached_meshes + 1] meshes in a vector that held no
    more before, and never makes a larger vector larger. *)
Theorem get_mesh_capacity c (h n t : Scalar) (cached_meshes : Z) (d : Scalar) c' m :
  len (meshes c) < 2 ^ 31 ->
  get_mesh shape_k c h n t cached_meshes d = Ok (c', m) ->
  len (meshes c') <= Z.max (len (meshes c)) (cached_meshes + 1).
Proof.
  intros Hfit. unfold get_mesh.
  pose proof (find_mesh_length (meshes c) h n t d) as Hlen1.
  destruct (find_mesh shape_k (meshes c) h n t d) as [meshes1 found1].
  cbn [fst] in Hlen1.
  destruct found1 as [m1|].
  - intros [= <- _]. cbn [meshes]. unfold len. lia.
  - pose proof (find_mesh_length meshes1 h n t d) as Hlen2.
    destruct (find_mesh shape_k meshes1 h n t d) as [meshes2 found2].
    cbn [fst] in Hlen2.
    destruct found2 as [m2|].
    + intros [= <- _]. cbn [meshes]. unfold len. lia.
    + rewrite evict_take by (unfold len in *; lia).
      destruct (Z.leb_spec 0 cached_meshes); [|discriminate].
      cbn [mbind result_bind]. intros [= <- _]. cbn [meshes].
      unfold len. rewrite length_app, length_take. cbn [length]. lia.
Qed.

(** X24.  What [get_mesh] hands out: a mesh that was cached, or the mesh it
    builds for exactly the height and the maximum distance asked for;
    in both cases the cache holds the mesh after the call. *)
Theorem get_mesh_cached c (h n t : Scalar) (cached_meshes : Z) (d : Scalar) c' m :
  get_mesh shape_k c h n t cached_meshes d = Ok (c', m) ->
  m ∈ meshes c'
  /\ (m ∈ meshes c \/ m = mkMeshPtr (next_ptr c) h d).
Proof.
  unfold get_mesh.
  destruct (find_mesh shape_k (meshes c) h n t d) as [meshes1 found1] eqn:Hfind1.
  destruct found1 as [m1|].
  - intros [= <- <-]. cbn [meshes].
    destruct (find_mesh_elem _ _ _ _ _ _ _ Hfind1). auto.
  - destruct (find_mesh shape_k meshes1 h n t d) as [meshes2 found2] eqn:Hfind2.
    destruct found2 as [m2|].
    + intros [= <- <-]. cbn [meshes].
      destruct (find_mesh_elem _ _ _ _ _ _ _ Hfind2) as [Hin2 Hin1].
      split; [exact Hin2|]. left.
      pose proof (find_mesh_Permutation (meshes c) h n t d) as Hperm.
      rewrite Hfind1 in Hperm. cbn [fst] in Hperm. now rewrite <- Hperm.
    + destruct (evict _ _ _) as [meshes3|]; [|discriminate].
      cbn [mbind result_bind]. intros [= <- <-]. cbn [meshes].
      split; [|right; reflexivity].
      apply elem_of_app. right. apply list_elem_of_singleton. reflexivity.
Qed.

(** X25.  With a negative capacity the eviction pops from the empty vector:
    a call that returns hands out one of the cached meshes and leaves
    the cache with the meshes it had. *)
Theorem get_mesh_negative_capacity c (h n t : Scalar) (cached_meshes : Z) (d : Scalar)
    c' m :
  cached_meshes < 0 -> len (meshes c) < 2 ^ 31 ->
  get_mesh shape_k c h n t cached_meshes d = Ok (c', m) ->
  m ∈ meshes c /\ meshes c' ≡ₚ meshes c.
Proof.
  intros Hneg Hfit. unfold get_mesh.
  pose proof (find_mesh_Permutation (meshes c) h n t d) as Hperm1.
  destruct (find_mesh shape_k (meshes c) h n t d) as [meshes1 found1] eqn:Hfind1.
  cbn [fst] in Hperm1.
  destruct found1 as [m1|].
  - intros [= <- <-]. cbn [meshes].
    destruct (find_mesh_elem _ _ _ _ _ _ _ Hfind1). auto.
  - pose proof (find_mesh_Permutation meshes1 h n t d) as Hperm2.
    destruct (find_mesh shape_k meshes1 h n t d) as [meshes2 found2] eqn:Hfind2.
    cbn [fst] in Hperm2.
    destruct found2 as [m2|].
    + intros [= <- <-]. cbn [meshes].
      destruct (find_mesh_elem _ _ _ _ _ _ _ Hfind2) as [_ Hin].
      split; [now rewrite <- Hperm1 | now rewrite Hperm2].
    + rewrite evict_take;
        [|reflexivity | unfold len in *; rewrite (Permutation_length Hperm2),
                          (Permutation_length Hperm1); lia].
      destruct (Z.leb_spec 0 cached_meshes); [lia | discriminate].
Qed.

Lemma scan_no_match meshes (h k d : Scalar) (it best_it : nat) (best_error : Scalar) :
  Forall (fun m => (d =? mesh_max_distance m)%S = false) meshes ->
  scan shape_k meshes h k d it best_it best_error = (best_it, best_error).
Proof.
  intros Hd. revert it. induction Hd as [|m meshes Hm _ IH]; intros it; cbn [scan].
  - reflexivity.
  - rewrite Hm. cbn [andb]. apply IH.
Qed.

(** X26.  A cached mesh is reused only for the very maximum distance it was
    built for: when no cached mesh has the maximum distance asked for,
    the search finds nothing, whatever the heights are, and leaves the
    vector as it is. *)
Theorem find_mesh_other_distance meshes (h k t d : Scalar) :
  Forall (fun m => (d =? mesh_max_distance m)%S = false) meshes ->
  (s_max <=? t)%S = false ->
  find_mesh shape_k meshes h k t d = (meshes, None).
Proof.
  intros Hd Ht. unfold find_mesh. destruct meshes as [|a rest]; [reflexivity|].
  rewrite scan_no_match by exact Hd. now rewrite Ht.
Qed.

End CacheFacts.

Lemma get_mesh_capacity_witness :
  len [cached 0 1 10; cached 1 1 20] <= Z.max (len [cached 0 1 10]) (1 + 1).
Proof.
  apply (get_mesh_capacity ratio_k (mkCache [cached 0 1 10] 1) 1%Q 4%Q (1 # 2)%Q 1 20%Q
           (mkCache [cached 0 1 10; cached 1 1 20] 2) (cached 1 1 20)).
  - reflexivity.
  - vm_compute. reflexivity.
Defined.

Lemma get_mesh_cached_witness :
  cached 1 1 20 ∈ [cached 0 1 10; cached 1 1 20]
  /\ (cached 1 1 20 ∈ [cached 0 1 10] \/ cached 1 1 20 = mkMeshPtr 1 1%Q 20%Q).
Proof.
  apply (get_mesh_cached ratio_k (mkCache [cached 0 1 10] 1) 1%Q 4%Q (1 # 2)%Q 1 20%Q
           (mkCache [cached 0 1 10; cached 1 1 20] 2) (cached 1 1 20)).
  vm_compute. reflexivity.
Defined.

Lemma get_mesh_negative_capacity_witness :
  cached 0 1 10 ∈ [cached 0 1 10] /\ [cached 0 1 10] ≡ₚ [cached 0 1 10].
Proof.
  apply (get_mesh_negative_capacity ratio_k (mkCache [cached 0 1 10] 1)
           1%Q 4%Q (1 # 2)%Q (-1) 10%Q (mkCache [cached 0 1 10] 1) (cached 0 1 10)).
  - lia.
  - reflexivity.
  - vm_compute. reflexivity.
Defined.

Lemma find_mesh_other_distance_witness :
  find_mesh ratio_k [cached 0 1 10] 1%Q 4%Q (1 # 2)%Q 20%Q = ([cached 0 1 10], None).
Proof.
  apply (find_mesh_other_distance ratio_k [cached 0 1 10] 1%Q 4%Q (1 # 2)%Q 20%Q).
  - repeat constructor.
  - reflexivity.
Defined.

(** ** The op and its two caches *)

Section OpCaches.

Context {Scalar : Type} `{ScalarOps Scalar}.
Variable sphere_k circle_k : Scalar -> Scalar -> Scalar -> Scalar.
Variable project : MeshPtr Scalar -> list (list Scalar) -> OpLens Scalar -> ProjectedMesh Scalar.
Variable scalar_as_int32 : Scalar -> Z.

Ltac read_inputs :=
  repeat match goal with
         | |- context [mbind _ (element ?t ?k)] =>
             destruct (element t k); cbn [mbind result_bind]; [|discriminate]
         end.

(** X27.  An invocation changes the cache of the geometry it names and no
    other state: a rejected invocation leaves both caches as they
    were, a projection for [SPHERE] leaves the cache of the circles
    alone and a projection for [CIRCLE] the cache of the spheres. *)
Theorem Compute_caches (inp : Inputs Scalar) (st st' : OpState Scalar)
    (out : Outcome Scalar) :
  Compute sphere_k circle_k project scalar_as_int32 inp st = Ok (st', out) ->
  match out with
  | InvalidArgument _ => st' = st
  | Projected _ =>
      exists geometry,
        element (in_geometry inp) 0 = Ok geometry
        /\ if String.eqb geometry "SPHERE"
           then circle_meshes st' = circle_meshes st
           else geometry = "CIRCLE"%string /\ sphere_meshes st' = sphere_meshes st
  end.
Proof.
  unfold Compute. destruct (first_failed _); [now intros [= <- <-]|].
  read_inputs.
  destruct (parse_projection _); [|now intros [= <- <-]].
  match goal with
  | |- context [String.eqb ?g "SPHERE"] =>
      destruct (String.eqb g "SPHERE") eqn:Hsphere;
      destruct (String.eqb g "CIRCLE") eqn:Hcircle; cbn [orb negb];
      try (now intros [= <- <-])
  end; read_inputs;
  match goal with
  | |- context [get_mesh ?k ?c ?a ?b ?e ?f ?g] =>
      destruct (get_mesh k c a b e f g) as [[cache mesh]|]; cbn [mbind result_bind];
      [|discriminate]
  end; intros [= <- <-]; eexists; (split; [reflexivity|]); rewrite Hsphere;
  cbn [circle_meshes sphere_meshes]; try reflexivity.
  all: split; [now apply String.eqb_eq | reflexivity].
Qed.

End OpCaches.

(** ** The output tensors *)

Section LoopFaults.

Context {St : Type}.

(** A loop whose last iteration faults. *)
Lemma for_range_last_fault (P : Z -> St -> Prop) lo hi (body : Z -> St -> result St) s f :
  lo < hi -> P lo s ->
  (forall i t, lo <= i < hi - 1 -> P i t -> exists t', body i t = Ok t' /\ P (i + 1) t') ->
  (forall t, P (hi - 1) t -> body (hi - 1) t = Fault f) ->
  for_range lo hi body s = Fault f.
Proof.
  intros Hlt Hs Hstep Hlast.
  remember (Z.to_nat (hi - 1 - lo)) as n eqn:Hn.
  revert lo s Hlt Hs Hstep Hn. induction n as [|n IH]; intros lo s Hlt Hs Hstep Hn.
  - assert (lo = hi - 1) as -> by lia.
    apply for_range_first_fault; [lia | now apply Hlast].
  - rewrite for_range_step by lia.
    destruct (Hstep lo s) as (t' & -> & Ht'); [lia | exact Hs |].
    apply IH; [lia | exact Ht' | | lia].
    intros i t Hi. apply Hstep. lia.
Qed.

(** A loop that returns, with what it leaves. *)
Lemma for_range_returns (P : Z -> St -> Prop) lo hi (body : Z -> St -> result St) s :
  lo <= hi -> P lo s ->
  (forall i t, lo <= i < hi -> P i t -> exists t', body i t = Ok t' /\ P (i + 1) t') ->
  exists s', for_range lo hi body s = Ok s' /\ P hi s'.
Proof.
  intros Hle Hs Hstep.
  remember (Z.to_nat (hi - lo)) as n eqn:Hn.
  revert lo s Hle Hs Hstep Hn. induction n as [|n IH]; intros lo s Hle Hs Hstep Hn.
  - assert (lo = hi) as -> by lia. rewrite for_range_empty by lia. eauto.
  - rewrite for_range_step by lia.
    destruct (Hstep lo s) as (t' & -> & Ht'); [lia | exact Hs |].
    apply IH; [lia | exact Ht' | | lia].
    intros i t Hi. apply Hstep. lia.
Qed.

End LoopFaults.

Section OutputFacts.

Context {Scalar : Type} `{ScalarOps Scalar}.
Variable to_U : Z -> Z.

Lemma matrix_set_ok {A} (t : Tensor A) (i j : Z) (v : A) :
  0 <= i * dim_size t 1 + j < len (flat t) ->
  matrix_set t i j v
  = Ok (mkTensor A (dims t) (<[Z.to_nat (i * dim_size t 1 + j) := v]> (flat t))).
Proof.
  intros Hin. unfold matrix_set.
  destruct (Z.leb_spec 0 (i * dim_size t 1 + j)); [|lia].
  destruct (Z.ltb_spec (i * dim_size t 1 + j) (len (flat t))); [|lia]. reflexivity.
Qed.

Lemma matrix_set_fault {A} (t : Tensor A) (i j : Z) (v : A) :
  len (flat t) <= i * dim_size t 1 + j -> matrix_set t i j v = Fault OutOfBounds.
Proof.
  intros Hout. unfold matrix_set.
  destruct (Z.ltb_spec (i * dim_size t 1 + j) (len (flat t))); [lia|].
  now rewrite andb_false_r.
Qed.

(** A matrix of [N] rows and [k] columns. *)
Lemma shape_set {A} (t : Tensor A) (N k i j : Z) (v : A) t' :
  dims t = [N; k] -> len (flat t) = N * k ->
  matrix_set t i j v = Ok t' -> dims t' = [N; k] /\ len (flat t') = N * k.
Proof.
  intros Hdims Hlen. unfold matrix_set. destruct (_ && _); [|discriminate].
  intros [= <-]. cbn [dims flat]. unfold len in *. now rewrite length_insert.
Qed.

(** The row of a node: its own index, then its neighbours one column
    to the right.  In a matrix as wide as the row is long, the last
    neighbour lands in the first column of the next row. *)
Lemma neighbours_row (m : list Z) (N k i : Z) (n : Tensor Z) :
  dims n = [N; k] -> len (flat n) = N * k -> len m = k -> 1 <= k -> 0 <= i < N - 1 ->
  exists n',
    (n1 ← matrix_set n i 0 (to_U i);
     for_range 0 (len m) (fun j n => x ← at_index m j; matrix_set n i (j + 1) (to_U x)) n1)
    = Ok n'
    /\ dims n' = [N; k] /\ len (flat n') = N * k.
Proof.
  intros Hdims Hlen Hm Hk Hi.
  rewrite matrix_set_ok by (unfold dim_size; rewrite Hdims; cbn [nth]; nia).
  cbn [mbind result_bind].
  apply (for_range_total (fun n => dims n = [N; k] /\ len (flat n) = N * k)).
  - cbn [dims flat]. unfold len in *. now rewrite length_insert.
  - intros j t Hj [Hd Hl].
    destruct (at_index_total m j) as [x ->]; [lia|]. cbn [mbind result_bind].
    rewrite matrix_set_ok by (unfold dim_size; rewrite Hd; cbn [nth]; nia).
    eexists. split; [reflexivity|]. cbn [dims flat]. unfold len in *.
    now rewrite length_insert.
Qed.

(** The row of the last node: the write of its last neighbour is one
    element after the end of the buffer. *)
Lemma neighbours_last_row (m : list Z) (N k : Z) (n : Tensor Z) :
  dims n = [N; k] -> len (flat n) = N * k -> len m = k -> 1 <= k -> 1 <= N ->
  (n1 ← matrix_set n (N - 1) 0 (to_U (N - 1));
   for_range 0 (len m)
     (fun j n => x ← at_index m j; matrix_set n (N - 1) (j + 1) (to_U x)) n1)
  = Fault OutOfBounds.
Proof.
  intros Hdims Hlen Hm Hk HN.
  rewrite matrix_set_ok by (unfold dim_size; rewrite Hdims; cbn [nth]; nia).
  cbn [mbind result_bind].
  apply (for_range_last_fault (fun _ n => dims n = [N; k] /\ len (flat n) = N * k)).
  - lia.
  - cbn [dims flat]. unfold len in *. now rewrite length_insert.
  - intros j t Hj [Hd Hl].
    destruct (at_index_total m j) as [x ->]; [lia|]. cbn [mbind result_bind].
    rewrite matrix_set_ok by (unfold dim_size; rewrite Hd; cbn [nth]; nia).
    eexists. split; [reflexivity|]. cbn [dims flat]. unfold len in *.
    now rewrite length_insert.
  - intros t [Hd Hl].
    destruct (at_index_total m (len m - 1)) as [x ->]; [lia|]. cbn [mbind result_bind].
    apply matrix_set_fault. unfold dim_size. rewrite Hd. cbn [nth]. nia.
Qed.

Lemma allocate_matrix_shape {A} (N k : Z) (fill : A) :
  0 <= N -> 0 <= k ->
  dims (allocate_matrix N k fill) = [N; k]
  /\ len (flat (allocate_matrix N k fill)) = N * k.
Proof.
  intros HN Hk. unfold allocate_matrix. cbn [dims flat]. split; [reflexivity|].
  unfold len. rewrite repeat_length. nia.
Qed.

(** X28.  The copy of the neighbourhood graph never stays inside the tensor
    it allocates.  The tensor is as wide as a row of the graph is
    long, and the copy writes one element more than that for every
    node: whenever the rows of the graph have one length, as the rows
    of a graph with a fixed number of neighbours do, the last write is
    outside the buffer; and for a graph without a node the width is
    read from [front()] of the empty vector. *)
Theorem output_neighbours_out_of_bounds (neighbourhood : list (list Z)) (k : nat) :
  Forall (fun m => length m = k) neighbourhood ->
  output_neighbours to_U neighbourhood = Fault OutOfBounds.
Proof.
  intros Hrows. unfold output_neighbours.
  destruct neighbourhood as [|front rest] eqn:Hn; [reflexivity|].
  rewrite <- Hn in *. cbn [mbind result_bind].
  assert (Hfront : len front = Z.of_nat k).
  { rewrite Hn in Hrows. inversion Hrows; subst. unfold len. congruence. }
  assert (HN : 1 <= len neighbourhood) by (rewrite Hn; unfold len; cbn [length]; lia).
  assert (Hrow : forall i, 0 <= i < len neighbourhood ->
            exists m, at_index neighbourhood i = Ok m /\ len m = Z.of_nat k).
  { intros i Hi. destruct (at_index_total neighbourhood i Hi) as [m Hm].
    exists m. split; [exact Hm|].
    apply at_index_ok in Hm as [_ Hm]. rewrite Forall_forall in Hrows.
    unfold len. f_equal. apply Hrows. eapply list_elem_of_lookup_2; eauto. }
  rewrite Hfront.
  destruct (allocate_matrix_shape (len neighbourhood) (Z.of_nat k) 0) as [Hd Hl]; [lia..|].
  destruct (decide (k = 0%nat)) as [-> | Hk].
  - apply for_range_first_fault; [lia|].
    destruct (Hrow 0) as (m & -> & _); [lia|]. cbn [mbind result_bind].
    rewrite matrix_set_fault; [reflexivity|]. rewrite Hl.
    unfold dim_size. rewrite Hd. cbn [nth]. lia.
  - apply (for_range_last_fault
             (fun _ n => dims n = [len neighbourhood; Z.of_nat k]
                         /\ len (flat n) = len neighbourhood * Z.of_nat k)).
    + lia.
    + auto.
    + intros i t Hi [Hdt Hlt].
      destruct (Hrow i) as (m & -> & Hm); [lia|]. cbn [mbind result_bind].
      apply neighbours_row; auto; lia.
    + intros t [Hdt Hlt].
      destruct (Hrow (len neighbourhood - 1)) as (m & -> & Hm); [lia|].
      cbn [mbind result_bind].
      apply (neighbours_last_row m (len neighbourhood) (Z.of_nat k)); auto; lia.
Qed.

Lemma flat_map_constant_length {A B} (f : A -> list B) (l : list A) (c : nat) :
  (forall x, length (f x) = c) -> length (flat_map f l) = (length l * c)%nat.
Proof.
  intros Hf. induction l as [|x l IH]; [reflexivity|].
  cbn [flat_map length]. rewrite length_app, Hf, IH. lia.
Qed.

(** X29.  The pixel coordinates are copied into a matrix of two columns,
    one row for every node in order, with [x] and [y] exchanged. *)
Theorem output_coordinates_swapped (px : list (Scalar * Scalar)) :
  output_coordinates px
  = Ok (mkTensor Scalar [len px; 2] (flat_map (fun p => [snd p; fst p]) px)).
Proof.
  unfold output_coordinates.
  set (zero := s_of_Z 0).
  set (swap := fun p : Scalar * Scalar => [snd p; fst p]).
  destruct (for_range_returns
              (fun i c => dims c = [len px; 2]
                          /\ flat c = flat_map swap (take (Z.to_nat i) px)
                                      ++ repeat zero (2 * (length px - Z.to_nat i)))
              0 (len px)
              (fun i c => p ← at_index px i;
                          c1 ← matrix_set c i 0 (snd p);
                          matrix_set c1 i 1 (fst p))
              (allocate_matrix (len px) 2 zero)) as (c & -> & Hd & Hf).
  - unfold len. lia.
  - unfold allocate_matrix. cbn [dims flat]. split; [reflexivity|].
    change (Z.to_nat 0) with 0%nat. rewrite take_0. cbn [flat_map app].
    f_equal. unfold len. lia.
  - intros i c Hi [Hd Hf].
    destruct (at_index_total px i Hi) as [p Hp]. rewrite Hp. cbn [mbind result_bind].
    apply at_index_ok in Hp as [_ Hp].
    assert (Hpre : length (flat_map swap (take (Z.to_nat i) px)) = (2 * Z.to_nat i)%nat).
    { rewrite (flat_map_constant_length swap _ 2) by reflexivity.
      rewrite length_take. unfold len in Hi. lia. }
    assert (Hrest : (2 * (length px - Z.to_nat i)
                     = Datatypes.S (Datatypes.S (2 * (length px - Z.to_nat (i + 1)))))%nat).
    { unfold len in Hi. lia. }
    rewrite Hrest in Hf. cbn [repeat] in Hf.
    rewrite matrix_set_ok;
      [|unfold dim_size; rewrite Hd, Hf; cbn [nth]; unfold len;
        rewrite length_app, Hpre; cbn [length]; lia].
    cbn [mbind result_bind].
    rewrite matrix_set_ok;
      [|unfold dim_size; cbn [dims flat]; rewrite Hd; cbn [nth]; unfold len;
        rewrite length_insert, Hf, length_app, Hpre; cbn [length]; lia].
    eexists. split; [reflexivity|]. cbn [dims flat]. split; [exact Hd|].
    unfold dim_size. rewrite Hd. cbn [nth]. rewrite Hf.
    set (done := flat_map swap (take (Z.to_nat i) px)) in *.
    set (rest := repeat zero (2 * (length px - Z.to_nat (i + 1)))) in *.
    assert (H0 : <[Z.to_nat (i * 2 + 0) := snd p]> (done ++ zero :: zero :: rest)
                 = done ++ snd p :: zero :: rest).
    { rewrite insert_app_r_alt by lia.
      replace (Z.to_nat (i * 2 + 0) - length done)%nat with 0%nat by lia. reflexivity. }
    assert (H1 : <[Z.to_nat (i * 2 + 1) := fst p]> (done ++ snd p :: zero :: rest)
                 = done ++ snd p :: fst p :: rest).
    { rewrite insert_app_r_alt by lia.
      replace (Z.to_nat (i * 2 + 1) - length done)%nat with 1%nat by lia. reflexivity. }
    cbn [dims nth]. rewrite H0, H1. unfold done.
    replace (Z.to_nat (i + 1)) with (Datatypes.S (Z.to_nat i)) by lia.
    rewrite (take_S_r px (Z.to_nat i) p Hp), flat_map_app. cbn [flat_map].
    rewrite app_nil_r, <- app_assoc. reflexivity.
  - f_equal. destruct c as [d f]. cbn [dims flat] in *. subst d. f_equal.
    rewrite Hf. unfold len. rewrite Nat2Z.id, Nat.sub_diag, firstn_all. cbn [repeat Nat.mul].
    now rewrite app_nil_r.
Qed.

End OutputFacts.

Lemma output_neighbours_out_of_bounds_witness :
  output_neighbours (fun x => x) [[5; 6]; [7; 8]] = Fault OutOfBounds.
Proof.
  apply (output_neighbours_out_of_bounds (fun x => x) [[5; 6]; [7; 8]] 2).
  repeat constructor.
Defined.

(** ** Examples of the properties *)

Lemma theta_limits_equirectangular_length_witness :
  (length [(0%Q, two_pi (Scalar := Q))] <= 4)%nat.
Proof.
  apply (theta_limits_equirectangular_length q_sin q_cos q_tan q_sqrt q_atan2
           looking_down (1%Q, 1%Q) (1 # 10)%Q).
  vm_compute. reflexivity.
Defined.


Lemma height_first_not_less_witness :
  exists before key after,
    example_luts = before ++ (key, example_mesh) :: after
    /\ Forall (fun kv => (fst kv <? (1 # 2)%Q)%S = true) before
    /\ (key <? (1 # 2)%Q)%S = false.
Proof.
  apply (proj1 (height_first_not_less example_luts (1 # 2)%Q example_mesh)).
  vm_compute. reflexivity.
Defined.

Lemma VisualMesh_below_max_height_witness :
  Forall (fun kv => (fst kv <? 2%Q)%S = true) example_luts
  /\ height example_luts 2%Q = Fault OutOfBounds
  /\ forall theta_limits, lookup example_luts 2%Q theta_limits = Fault OutOfBounds.
Proof.
  apply (VisualMesh_below_max_height step_phi unit_theta never_nan 20 1%Q 2%Q 1 (1 # 2)%Q
           example_luts).
  vm_compute. reflexivity.
Defined.

Lemma rows_off_horizon_witness :
  Forall (fun row => (row_phi row <? s_pi_2)%S = true \/ (s_pi_2 <? row_phi row)%S = true)
    (rows example_mesh).
Proof.
  apply (rows_off_horizon step_phi unit_theta never_nan 19 (1 # 2)%Q 1%Q example_mesh).
  vm_compute. reflexivity.
Defined.

Lemma rows_ascending_witness :
  (row_phi (mkRow (1 # 2)%Q 0 7) <= row_phi (mkRow (3 # 2)%Q 7 14))%Q.
Proof.
  apply (rows_ascending step_phi unit_theta never_nan 19 (1 # 2)%Q 1%Q example_mesh 0).
  - vm_compute. reflexivity.
  - reflexivity.
  - reflexivity.
Defined.

Lemma Compute_caches_witness :
  exists geometry,
    element (in_geometry sphere_inputs) 0 = Ok geometry
    /\ if String.eqb geometry "SPHERE"
       then circle_meshes (mkOpState (mkCache [cached 0 1 10] 1) empty_cache)
            = circle_meshes (mkOpState empty_cache empty_cache)
       else geometry = "CIRCLE"%string
            /\ sphere_meshes (mkOpState (mkCache [cached 0 1 10] 1) empty_cache)
               = sphere_meshes (mkOpState empty_cache empty_cache).
Proof.
  apply (Compute_caches (fun radius => ratio_k) (fun radius => ratio_k) no_projection
           Qfloor sphere_inputs (mkOpState empty_cache empty_cache)
           (mkOpState (mkCache [cached 0 1 10] 1) empty_cache)
           (Projected (mkProjected [] []))).
  vm_compute. reflexivity.
Defined.
